(** * Autoparts: splitting one Python file into a package of modules

    A shallow embedding of [autoparts.py]: name normalisation, extraction of
    top-level items from [tree.body], Tarjan's strongly connected components,
    component construction, the packing heuristics and the renderers,
    followed by the properties of the package that is produced.

    Conventions of the embedding.
    - A Python [str] is a [string] holding its UTF-8 bytes; the functions
      below act on ASCII the way Python does, and bytes above 127 are
      letters of no class (neither digit, case, space nor identifier
      character of the regular expressions, whose ranges are ASCII).
      [Str.lower], [Str.strip] and [Str.rstrip] are [str.lower], [str.strip]
      and [str.rstrip] on ASCII text: they leave letters and spaces outside
      ASCII as they are, where Python's functions do not, so that the order
      of the items within a component is stated for names in ASCII.
    - A Python [dict] that is only looked up is a [gmap]; a [dict] or [set]
      that is iterated is a list in its iteration order.
    - An exception is a value of [error]; functions that can raise return
      [result]. The recursion of [DependencyVisitor] over a syntax tree is
      not counted against the recursion limit: the extraction is the one of
      a run in which the visitor comes to its end, and what is stated of a
      plan or a package is stated of the runs that return one. *)

From Stdlib Require Import Ascii String ZArith Lia.
From stdpp Require Import base option list sorting relations gmap sets strings pretty.

Open Scope string_scope.
Open Scope nat_scope.
Open Scope list_scope.

(** ** Characters and strings *)

Module Str.

Definition code (c : ascii) : nat := nat_of_ascii c.

Definition is_lower (c : ascii) : bool := (97 <=? code c) && (code c <=? 122).
Definition is_upper (c : ascii) : bool := (65 <=? code c) && (code c <=? 90).
Definition is_digit (c : ascii) : bool := (48 <=? code c) && (code c <=? 57).
Definition is_underscore (c : ascii) : bool := code c =? 95.

(** [str.isspace] on ASCII: tab, line feed, vertical tab, form feed,
    carriage return, the separators 28..31 and the space. *)
Definition is_space (c : ascii) : bool :=
  ((9 <=? code c) && (code c <=? 13)) || ((28 <=? code c) && (code c <=? 32)).

(** The class [[0-9a-zA-Z_]] of [_identifier_re]. *)
Definition is_ident (c : ascii) : bool :=
  is_digit c || is_lower c || is_upper c || is_underscore c.

Definition lower_char (c : ascii) : ascii :=
  if is_upper c then ascii_of_nat (code c + 32) else c.

Definition lower_l (l : list ascii) : list ascii := map lower_char l.

Fixpoint lstrip_l (p : ascii -> bool) (l : list ascii) : list ascii :=
  match l with
  | [] => []
  | c :: r => if p c then lstrip_l p r else l
  end.

Fixpoint rstrip_l (p : ascii -> bool) (l : list ascii) : list ascii :=
  match l with
  | [] => []
  | c :: r =>
      match rstrip_l p r with
      | [] => if p c then [] else [c]
      | r' => c :: r'
      end
  end.

Definition strip_l (p : ascii -> bool) (l : list ascii) : list ascii :=
  rstrip_l p (lstrip_l p l).

(** [name.replace("-", "_")] *)
Definition dash_to_underscore (l : list ascii) : list ascii :=
  map (fun c => if code c =? 45 then "_"%char else c) l.

(** [re.sub("([a-z0-9])([A-Z])", r"\1_\2", name)]: leftmost matches, each
    consuming both characters. *)
Fixpoint camel_sub (l : list ascii) : list ascii :=
  match l with
  | [] => []
  | a :: r =>
      match r with
      | [] => [a]
      | b :: r' =>
          if (is_lower a || is_digit a) && is_upper b
          then a :: "_"%char :: b :: camel_sub r'
          else a :: camel_sub r
      end
  end.

(** [_identifier_re.sub("_", name)] with [_identifier_re = [^0-9a-zA-Z_]+]:
    every maximal run of other characters becomes one underscore.
    [in_run] says that the previous character belonged to such a run. *)
Fixpoint ident_sub_from (in_run : bool) (l : list ascii) : list ascii :=
  match l with
  | [] => []
  | c :: r =>
      if is_ident c then c :: ident_sub_from false r
      else if in_run then ident_sub_from true r
      else "_"%char :: ident_sub_from true r
  end.

Definition ident_sub (l : list ascii) : list ascii := ident_sub_from false l.

Definition of_list (l : list ascii) : string := string_of_list_ascii l.
Definition to_list (s : string) : list ascii := list_ascii_of_string s.

Definition lower (s : string) : string := of_list (lower_l (to_list s)).
Definition rstrip (s : string) : string := of_list (rstrip_l is_space (to_list s)).
Definition strip (s : string) : string := of_list (strip_l is_space (to_list s)).

(** [sep.join(parts)] *)
Fixpoint join (sep : string) (parts : list string) : string :=
  match parts with
  | [] => ""
  | [p] => p
  | p :: rest => p +:+ sep +:+ join sep rest
  end.

(** [repr] of a name: identifiers need no escaping. *)
Definition repr (s : string) : string := "'" +:+ s +:+ "'".

(** Lexicographic order on code points, which is the order of the UTF-8
    bytes: Python's [<=] on [str]. *)
Definition leb (a b : string) : bool := String.leb a b.

End Str.

(** ** Name normalisation *)

(** [keyword.kwlist] of the standard library. *)
Definition kwlist : list string :=
  ["False"; "None"; "True"; "and"; "as"; "assert"; "async"; "await"; "break";
   "class"; "continue"; "def"; "del"; "elif"; "else"; "except"; "finally";
   "for"; "from"; "global"; "if"; "import"; "in"; "is"; "lambda"; "nonlocal";
   "not"; "or"; "pass"; "raise"; "return"; "try"; "while"; "with"; "yield"].

Definition iskeyword (s : string) : bool := existsb (String.eqb s) kwlist.

Definition starts_with_digit (l : list ascii) : bool :=
  match l with
  | c :: _ => Str.is_digit c
  | [] => false
  end.

Definition to_snake_l (name : list ascii) : list ascii :=
  let name := Str.dash_to_underscore (Str.strip_l Str.is_space name) in
  let name := Str.camel_sub name in
  let name := Str.strip_l Str.is_underscore (Str.lower_l (Str.ident_sub name)) in
  let name := match name with [] => Str.to_list "module" | _ => name end in
  let name := if starts_with_digit name then Str.to_list "m_" ++ name else name in
  let name := if iskeyword (Str.of_list name) then Str.to_list "mod_" ++ name else name in
  name.

Definition to_snake (name : string) : string :=
  Str.of_list (to_snake_l (Str.to_list name)).

Definition module_name_for_component (names : list string) : string :=
  let parts := map to_snake (filter (fun n => n <> "") names) in
  let base := match parts with p :: _ => p | [] => "module" end in
  let base :=
    fold_left
      (fun base extra => if String.length base <? 20 then base +:+ "_" +:+ extra else base)
      (take 2 (drop 1 parts)) base in
  let base :=
    if 40 <? String.length base
    then Str.of_list (Str.rstrip_l Str.is_underscore (take 40 (Str.to_list base)))
    else base in
  if String.eqb base "" then "module" else base.

(** [f"{base}_{i}"] *)
Definition suffixed (base : string) (i : nat) : string := base +:+ "_" +:+ pretty i.

(** [ensure_unique_module_name]: the search [while f"{base}_{i}" in used]
    ends within [size used + 1] candidates; [tries] bounds it. *)
Fixpoint first_free_suffix (base : string) (used : gset string) (tries i : nat) : nat :=
  match tries with
  | 0 => i
  | S tries' =>
      if bool_decide (suffixed base i ∈ used)
      then first_free_suffix base used tries' (S i)
      else i
  end.

(** Returns the name and the updated [used] set. *)
Definition ensure_unique_module_name (base : string) (used : gset string)
  : string * gset string :=
  if bool_decide (base ∉ used) then (base, {[base]} ∪ used)
  else
    let i := first_free_suffix base used (S (size used)) 2 in
    let name := suffixed base i in
    (name, {[name]} ∪ used).

(** ** Exceptions *)

Inductive error : Set := RecursionError | KeyError | IndexError.

Inductive result (A : Type) : Type :=
  | Ok (a : A)
  | Err (e : error).
Arguments Ok {A} a.
Arguments Err {A} e.

#[global] Instance result_ret : MRet result := fun A a => Ok a.
#[global] Instance result_bind : MBind result :=
  fun A B f m => match m with Ok a => f a | Err e => Err e end.

(** ** Dictionaries that are iterated

    Keys in insertion order; assigning to a key that is present replaces the
    value where it stands. *)

Definition dict (V : Type) : Type := list (string * V).

Fixpoint dict_set {V} (k : string) (v : V) (d : dict V) : dict V :=
  match d with
  | [] => [(k, v)]
  | (k', v') :: d' =>
      if String.eqb k k' then (k, v) :: d' else (k', v') :: dict_set k v d'
  end.

Fixpoint dict_get {V} (d : dict V) (k : string) : option V :=
  match d with
  | [] => None
  | (k', v') :: d' => if String.eqb k k' then Some v' else dict_get d' k
  end.

Definition dict_keys {V} (d : dict V) : list string := map fst d.

(** [d[k]] *)
Definition dict_item {V} (d : dict V) (k : string) : result V :=
  match dict_get d k with Some v => Ok v | None => Err KeyError end.

(** The assignments [d[key(x)] = val(x)] for [x] in [xs], and the
    comprehension [{key(x): val(x) for x in xs}]. *)
Definition dict_of_from {A V} (key : A -> string) (val : A -> V) (xs : list A)
    (d : dict V) : dict V :=
  fold_left (fun d x => dict_set (key x) (val x) d) xs d.

Definition dict_of {A V} (key : A -> string) (val : A -> V) (xs : list A) : dict V :=
  dict_of_from key val xs [].

(** A set kept as the list of its elements without repetition. *)
Definition set_add (x : string) (s : list string) : list string :=
  if bool_decide (x ∈ s) then s else s ++ [x].

(** [list.sort(key=...)] and [sorted]: the stable sort, by insertion. *)
Fixpoint insert_by {A K} (le : K -> K -> bool) (key : A -> K) (x : A) (l : list A) : list A :=
  match l with
  | [] => [x]
  | y :: l' => if le (key x) (key y) then x :: l else y :: insert_by le key x l'
  end.

Definition sort_by {A K} (le : K -> K -> bool) (key : A -> K) (l : list A) : list A :=
  foldr (insert_by le key) [] l.

(** ** Data types *)

Inductive item_kind : Set := KClass | KFunc | KAssign.

(** [node] is the position in [tree.body] of the statement the item comes
    from; it stands for the reference to that AST node. [deps] lists the set
    in its iteration order. *)
Record TopLevelItem : Type := {
  name : string;
  kind : item_kind;
  node : nat;
  source : string;
  deps : list string
}.

Record Component : Type := {
  names : list string;
  items : list TopLevelItem;
  module_name : string
}.

#[global] Instance item_kind_eq_dec : EqDecision item_kind.
Proof. solve_decision. Defined.
#[global] Instance TopLevelItem_eq_dec : EqDecision TopLevelItem.
Proof. solve_decision. Defined.
#[global] Instance Component_eq_dec : EqDecision Component.
Proof. solve_decision. Defined.

(** ** The syntax tree, as far as the program inspects it *)

Inductive expr_context : Set := Load | Store | Del.

#[local] Set Warnings "-register-all".

(** [Node] stands for every node class the program does not single out; its
    children are the child nodes in field order, as [generic_visit] meets
    them. [annotations] of a function are those of [posonlyargs], [args],
    [kwonlyargs], [vararg] and [kwarg], in this order; [defaults] are the
    default values of the parameters. *)
Inductive ast : Type :=
  | Name (id : string) (ctx : expr_context)
  | Import
  | ImportFrom
  | If (test : ast) (body orelse : list ast)
  | Compare (lhs : ast) (comparators : list ast)
  | ClassDef (cname : string) (bases keywords decorator_list body : list ast)
  | FunctionDef (is_async : bool) (fname : string) (decorator_list : list ast)
      (returns : option ast) (annotations defaults body : list ast)
  | Assign (targets : list ast) (value : ast)
  | AnnAssign (target annotation : ast) (value : option ast)
  | Node (children : list ast).

(** A statement of [tree.body] with [get_source_segment(source, node)]. *)
Record statement : Type := {
  stmt_node : ast;
  stmt_segment : string
}.

(** The parsed file: [tree.body] and [ast.get_docstring(tree)]. *)
Record module_tree : Type := {
  tree_body : list statement;
  tree_docstring : option string
}.

(** ** Dependency visitor *)

Definition is_load (c : expr_context) : bool :=
  match c with Load => true | _ => false end.

(** [DependencyVisitor.visit], threading the set [self.used]. The default
    values of parameters are not visited. This is the set a visit leaves
    when it comes to its end; on a tree nested deeper than the recursion
    limit allows the visitor raises [RecursionError] instead. *)
Fixpoint visit (top_level_names : gset string) (n : ast) (used : list string) : list string :=
  let visit_all := fun (ns : list ast) (used : list string) =>
    fold_left (fun used n => visit top_level_names n used) ns used in
  let visit_opt := fun (o : option ast) (used : list string) =>
    match o with Some n => visit top_level_names n used | None => used end in
  match n with
  | Name id ctx =>
      if is_load ctx && bool_decide (id ∈ top_level_names)
      then set_add id used else used
  | FunctionDef _ _ decorator_list returns annotations _ body =>
      visit_all body (visit_all annotations (visit_opt returns (visit_all decorator_list used)))
  | ClassDef _ bases keywords decorator_list body =>
      visit_all body (visit_all decorator_list (visit_all keywords (visit_all bases used)))
  | Import | ImportFrom => used
  | If test body orelse =>
      visit_all orelse (visit_all body (visit top_level_names test used))
  | Compare lhs comparators =>
      visit_all comparators (visit top_level_names lhs used)
  | Assign targets value =>
      visit top_level_names value (visit_all targets used)
  | AnnAssign target annotation value =>
      visit_opt value (visit top_level_names annotation (visit top_level_names target used))
  | Node children => visit_all children used
  end.

(** ** Extraction of the top-level items *)

Definition is_main_guard (n : ast) : bool :=
  match n with
  | If (Compare (Name id _) _) _ _ => String.eqb id "__name__"
  | _ => false
  end.

Definition name_target (t : ast) : option string :=
  match t with Name id _ => Some id | _ => None end.

Record extraction : Type := {
  ex_items : list TopLevelItem;
  ex_imports : list string;
  ex_main_block : option string;
  ex_module_doc : option string
}.

Definition new_item (nm : string) (k : item_kind) (pos : nat) (seg : string) : TopLevelItem :=
  {| name := nm; kind := k; node := pos; source := seg; deps := [] |}.

(** One turn of the loop [for node in tree.body] that fills [items],
    [imports] and [main_block]; [pos] is the position of the statement. *)
Definition extract_statement (pos : nat) (s : statement)
    (acc : list TopLevelItem * list string * option string)
  : list TopLevelItem * list string * option string :=
  let '(its, imports, main_block) := acc in
  let seg := stmt_segment s in
  match stmt_node s with
  | Import | ImportFrom => (its, imports ++ [Str.rstrip seg], main_block)
  | ClassDef nm _ _ _ _ => (its ++ [new_item nm KClass pos seg], imports, main_block)
  | FunctionDef _ nm _ _ _ _ _ => (its ++ [new_item nm KFunc pos seg], imports, main_block)
  | Assign targets _ =>
      (its ++ omap (fun t => (fun id => new_item id KAssign pos seg) <$> name_target t) targets,
       imports, main_block)
  | AnnAssign target _ _ =>
      match name_target target with
      | Some id => (its ++ [new_item id KAssign pos seg], imports, main_block)
      | None => acc
      end
  | n =>
      if is_main_guard n
      then (its, imports, if String.eqb seg "" then main_block else Some seg)
      else acc
  end.

Fixpoint extract_statements (pos : nat) (body : list statement)
    (acc : list TopLevelItem * list string * option string)
  : list TopLevelItem * list string * option string :=
  match body with
  | [] => acc
  | s :: body' => extract_statements (S pos) body' (extract_statement pos s acc)
  end.

(** [v.used.discard(it.name)] *)
Definition discard (x : string) (s : list string) : list string :=
  filter (fun y => y <> x) s.

(** The loop that fills [it.deps]. [set_iter] is the order in which the
    interpreter iterates over the resulting set. *)
Definition with_deps (set_iter : list string -> list string) (body : list statement)
    (name_set : gset string) (it : TopLevelItem) : TopLevelItem :=
  let used :=
    match body !! node it with
    | Some s => visit name_set (stmt_node s) []
    | None => []
    end in
  {| name := name it; kind := kind it; node := node it; source := source it;
     deps := set_iter (discard (name it) used) |}.

Definition extract_top_level_items (set_iter : list string -> list string)
    (tree : module_tree) : extraction :=
  let '(its, imports, main_block) := extract_statements 0 (tree_body tree) ([], [], None) in
  let name_set : gset string := list_to_set (map name its) in
  {| ex_items := map (with_deps set_iter (tree_body tree) name_set) its;
     ex_imports := imports;
     ex_main_block := main_block;
     ex_module_doc := tree_docstring tree |}.

(** ** Strongly connected components *)

(** The variables shared by [strongly_connected_components] and its inner
    function. The head of [stack] is the top (the end of the Python list). *)
Record tarjan_state : Type := {
  index : nat;
  indices : gmap string nat;
  lowlink : gmap string nat;
  stack : list string;
  onstack : gset string;
  components : list (list string)
}.

Definition graph_get (graph : dict (list string)) (v : string) : list string :=
  default [] (dict_get graph v).

(** [d[k]] on a [gmap] *)
Definition map_item (m : gmap string nat) (k : string) : result nat :=
  match m !! k with Some x => Ok x | None => Err KeyError end.

Definition set_lowlink (v : string) (x : nat) (st : tarjan_state) : tarjan_state :=
  {| index := index st; indices := indices st; lowlink := <[v := x]> (lowlink st);
     stack := stack st; onstack := onstack st; components := components st |}.

(** The first lines of [strongconnect]. *)
Definition enter (v : string) (st : tarjan_state) : tarjan_state :=
  {| index := S (index st);
     indices := <[v := index st]> (indices st);
     lowlink := <[v := index st]> (lowlink st);
     stack := v :: stack st;
     onstack := {[v]} ∪ onstack st;
     components := components st |}.

(** The loop [for w in graph.get(v, set())]; [rec] is the recursive call. *)
Fixpoint visit_successors (rec : string -> tarjan_state -> result tarjan_state)
    (v : string) (ws : list string) (st : tarjan_state) : result tarjan_state :=
  match ws with
  | [] => Ok st
  | w :: ws' =>
      match indices st !! w with
      | None =>
          st ← rec w st;
          lv ← map_item (lowlink st) v;
          lw ← map_item (lowlink st) w;
          visit_successors rec v ws' (set_lowlink v (lv `min` lw) st)
      | Some iw =>
          if bool_decide (w ∈ onstack st) then
            lv ← map_item (lowlink st) v;
            visit_successors rec v ws' (set_lowlink v (lv `min` iw) st)
          else visit_successors rec v ws' st
      end
  end.

(** The loop [while True: w = stack.pop(); ...; if w == v: break]: returns
    [comp], the stack and [onstack] that remain. *)
Fixpoint pop_component (v : string) (stk : list string) (ons : gset string)
    (comp : list string) : result (list string * list string * gset string) :=
  match stk with
  | [] => Err IndexError
  | w :: stk' =>
      if bool_decide (w ∈ ons) then
        if String.eqb w v then Ok (comp ++ [w], stk', ons ∖ {[w]})
        else pop_component v stk' (ons ∖ {[w]}) (comp ++ [w])
      else Err KeyError
  end.

(** When [lowlink[v] == indices[v]]. *)
Definition close_component (v : string) (st : tarjan_state) : result tarjan_state :=
  lv ← map_item (lowlink st) v;
  iv ← map_item (indices st) v;
  if lv =? iv then
    '(comp, stk, ons) ← pop_component v (stack st) (onstack st) [];
    Ok {| index := index st; indices := indices st; lowlink := lowlink st;
          stack := stk; onstack := ons; components := components st ++ [comp] |}
  else Ok st.

(** [strongconnect]. [depth] is the number of nested calls the interpreter
    still allows; a call beyond it raises [RecursionError]. *)
Fixpoint strongconnect (graph : dict (list string)) (depth : nat) (v : string)
    (st : tarjan_state) : result tarjan_state :=
  match depth with
  | 0 => Err RecursionError
  | S depth' =>
      st ← visit_successors (strongconnect graph depth') v (graph_get graph v) (enter v st);
      close_component v st
  end.

(** The loop [for v in graph]. *)
Fixpoint visit_roots (graph : dict (list string)) (depth : nat) (vs : list string)
    (st : tarjan_state) : result tarjan_state :=
  match vs with
  | [] => Ok st
  | v :: vs' =>
      match indices st !! v with
      | None => st ← strongconnect graph depth v st; visit_roots graph depth vs' st
      | Some _ => visit_roots graph depth vs' st
      end
  end.

Definition tarjan_init : tarjan_state :=
  {| index := 0; indices := ∅; lowlink := ∅; stack := []; onstack := ∅; components := [] |}.

(** [depth] is what the recursion limit, raised to at least 10000 by
    [sys.setrecursionlimit], leaves for the calls of [strongconnect]. *)
Definition strongly_connected_components (depth : nat) (graph : dict (list string))
  : result (list (list string)) :=
  st ← visit_roots graph depth (dict_keys graph) tarjan_init;
  Ok (components st).

(** ** Component construction *)

(** [mapM] over [result]. *)
Fixpoint traverse {A B} (f : A -> result B) (l : list A) : result (list B) :=
  match l with
  | [] => Ok []
  | x :: l' => y ← f x; ys ← traverse f l'; Ok (y :: ys)
  end.

Definition external_dep_count (graph : dict (list string)) (c : Component) : nat :=
  let all_deps := remove_dups (concat (map (graph_get graph) (names c))) in
  length (filter (fun d => d ∉ names c) all_deps).

Definition component_of (item_by_name : dict TopLevelItem) (comp_names : list string)
  : result Component :=
  comp_items ← traverse (dict_item item_by_name) comp_names;
  let comp_items := sort_by Str.leb (fun x => Str.lower (name x)) comp_items in
  let module := module_name_for_component (map name comp_items) in
  Ok {| names := map name comp_items; items := comp_items; module_name := module |}.

(** [name_to_module] as filled by the loops over the components. *)
Definition assign_modules (names_of : Component -> list string) (comps : list Component)
  : gmap string string :=
  fold_left
    (fun m c => fold_left (fun m n => <[n := module_name c]> m) (names_of c) m)
    comps ∅.

(** [item_by_name] and [graph] of [build_components]. *)
Definition item_by_name_of (its : list TopLevelItem) : dict TopLevelItem :=
  dict_of name (fun it => it) its.

Definition graph_of (its : list TopLevelItem) : dict (list string) :=
  dict_of name deps its.

Definition build_components (depth : nat) (its : list TopLevelItem)
  : result (list Component * gmap string string) :=
  let item_by_name := item_by_name_of its in
  let graph := graph_of its in
  sccs ← strongly_connected_components depth graph;
  comps ← traverse (component_of item_by_name) sccs;
  let name_to_module := assign_modules names comps in
  Ok (sort_by Nat.leb (external_dep_count graph) comps, name_to_module).

(** ** Re-packing *)

(** [len(text.splitlines())]. A line ends at a line feed, a carriage return
    (with the line feed that follows it), a vertical tab, a form feed, a
    separator 28..30, or the UTF-8 bytes of U+0085, U+2028 and U+2029; a last
    line without line end counts too. [pending] says that characters of an
    unfinished line have been read. *)
Fixpoint count_lines (pending : bool) (l : list ascii) : nat :=
  match l with
  | [] => if pending then 1 else 0
  | c :: r =>
      let n := Str.code c in
      if n =? 13 then
        match r with
        | d :: r' => if Str.code d =? 10 then S (count_lines false r') else S (count_lines false r)
        | [] => 1
        end
      else if (n =? 10) || (n =? 11) || (n =? 12) || (n =? 28) || (n =? 29) || (n =? 30)
      then S (count_lines false r)
      else if n =? 194 then
        match r with
        | d :: r' => if Str.code d =? 133 then S (count_lines false r') else count_lines true r
        | [] => 1
        end
      else if n =? 226 then
        match r with
        | d :: e :: r' =>
            if (Str.code d =? 128) && ((Str.code e =? 168) || (Str.code e =? 169))
            then S (count_lines false r') else count_lines true r
        | _ => count_lines true r
        end
      else count_lines true r
  end.

Definition _item_lines (it : TopLevelItem) : nat :=
  count_lines false (Str.to_list (source it)).

Definition _comp_lines (c : Component) : nat :=
  sum_list (map _item_lines (items c)).

Definition is_assign (it : TopLevelItem) : bool :=
  match kind it with KAssign => true | _ => false end.

Definition _assign_only (c : Component) : bool := forallb is_assign (items c).

Definition merge_components (a b : Component) (new_name : option string) : Component :=
  let nms := names a ++ names b in
  let mod_name :=
    match new_name with
    | Some n => if String.eqb n "" then module_name_for_component nms else n
    | None => module_name_for_component nms
    end in
  {| names := nms; items := items a ++ items b; module_name := mod_name |}.

Definition rename (c : Component) (m : string) : Component :=
  {| names := names c; items := items c; module_name := m |}.

Definition rebuild_name_to_module (comps : list Component) : gmap string string :=
  assign_modules (fun c => map name (items c)) comps.

Record packing : Type := {
  group_assignments : bool;
  pack_small_lines : Z;
  max_modules : Z;
  min_module_lines : Z;
  target_modules : option Z
}.

(** The components of [chosen] become one component called [new_name] at the
    end of the list: steps 1 and 2 of [repack_components].

    [c not in chosen] compares components with [==], field by field, and
    [c is not s] compares references. The components of a list never share a
    name, so that both comparisons hold of a component and itself only; they
    are rendered by equality. *)
Definition merge_all_into (new_name : string) (chosen comps : list Component) : list Component :=
  match chosen with
  | first :: ((_ :: _) as rest) =>
      let merged := fold_left (fun m c => merge_components m c None) rest first in
      filter (fun c => c ∉ chosen) comps ++ [rename merged new_name]
  | _ => comps
  end.

Definition group_constants (comps : list Component) : list Component :=
  merge_all_into "constants" (filter (fun c => _assign_only c = true) comps) comps.

Definition is_small (threshold : Z) (c : Component) : bool :=
  (Z.of_nat (_comp_lines c) <? threshold)%Z && negb (_assign_only c).

Definition pack_core (threshold : Z) (comps : list Component) : list Component :=
  merge_all_into "core" (filter (fun c => is_small threshold c = true) comps) comps.

Definition pinned (c : Component) : bool :=
  String.eqb (module_name c) "constants" || String.eqb (module_name c) "core".

(** [merge_smallest_once]: [None] when it returns [False]. *)
Definition merge_smallest_once (comps : list Component) : option (list Component) :=
  match sort_by Nat.leb _comp_lines (filter (fun c => pinned c = false) comps) with
  | a :: b :: _ =>
      Some (filter (fun c => c ∉ [a; b]) comps ++ [merge_components a b None])
  | _ => None
  end.

(** [while len(comps) > bound: if not merge_smallest_once(): break]. Every
    turn shortens [comps], so [length comps] turns suffice. *)
Fixpoint merge_while_above (turns : nat) (bound : Z) (comps : list Component) : list Component :=
  match turns with
  | 0 => comps
  | S turns' =>
      if (bound <? Z.of_nat (length comps))%Z then
        match merge_smallest_once comps with
        | Some comps' => merge_while_above turns' bound comps'
        | None => comps
        end
      else comps
  end.

Definition merge_down_to (bound : Z) (comps : list Component) : list Component :=
  merge_while_above (length comps) bound comps.

(** One turn of the loop [while changed] of step 3.5: [None] when [changed]
    stays [False]. *)
Definition merge_small_once (min_lines : Z) (comps : list Component) : option (list Component) :=
  let smallers :=
    sort_by Nat.leb _comp_lines
      (filter (fun c => (Z.of_nat (_comp_lines c) <? min_lines)%Z && negb (pinned c) = true) comps) in
  match smallers with
  | [] => None
  | s :: _ =>
      let others :=
        sort_by Nat.leb _comp_lines
          (filter (fun c => c <> s /\ pinned c = false) comps) in
      match others with
      | [] => None
      | o :: _ => Some (filter (fun c => c ∉ [s; o]) comps ++ [merge_components s o None])
      end
  end.

Fixpoint merge_small_loop (turns : nat) (min_lines : Z) (comps : list Component) : list Component :=
  match turns with
  | 0 => comps
  | S turns' =>
      match merge_small_once min_lines comps with
      | Some comps' => merge_small_loop turns' min_lines comps'
      | None => comps
      end
  end.

Definition enforce_min_lines (min_lines : Z) (comps : list Component) : list Component :=
  merge_small_loop (length comps) min_lines comps.

Definition repack_components (cfg : packing) (comps : list Component)
  : list Component * gmap string string :=
  let comps := if group_assignments cfg then group_constants comps else comps in
  let comps := if (0 <? pack_small_lines cfg)%Z then pack_core (pack_small_lines cfg) comps else comps in
  let comps := if (max_modules cfg =? 0)%Z then comps else merge_down_to (max_modules cfg) comps in
  let comps := if (0 <? min_module_lines cfg)%Z then enforce_min_lines (min_module_lines cfg) comps else comps in
  let comps :=
    match target_modules cfg with
    | Some t => if (0 <? t)%Z then merge_down_to t comps else comps
    | None => comps
    end in
  (comps, rebuild_name_to_module comps).

(** ** Renderers *)

Definition HEADER : string :=
  "# Generated by autoparts.py — DO NOT EDIT BY HAND" +:+ String (ascii_of_nat 10) "".

Definition newline : string := String (ascii_of_nat 10) "".

(** Three double quotes. *)
Definition triple_quote : string :=
  let q := ascii_of_nat 34 in String q (String q (String q "")).

Fixpoint _dedup_from (seen : list string) (imports : list string) : list string :=
  match imports with
  | [] => []
  | line :: rest =>
      let key := Str.strip line in
      if negb (String.eqb key "") && bool_decide (key ∉ seen)
      then key :: _dedup_from (key :: seen) rest
      else _dedup_from seen rest
  end.

Definition _dedup_imports (imports : list string) : list string := _dedup_from [] imports.

(** [external_deps.setdefault(mod, []).append(dep)] *)
Fixpoint dict_append (k : string) (x : string) (d : dict (list string)) : dict (list string) :=
  match d with
  | [] => [(k, [x])]
  | (k', xs) :: d' =>
      if String.eqb k k' then (k', xs ++ [x]) :: d' else (k', xs) :: dict_append k x d'
  end.

(** The dictionary [external_deps] of [render_module]. *)
Definition external_deps (component : Component) (name_to_module : gmap string string)
  : dict (list string) :=
  fold_left
    (fun ext it =>
       fold_left
         (fun ext dep =>
            if bool_decide (dep ∉ names component) then
              match name_to_module !! dep with
              | Some md => if String.eqb md "" then ext else dict_append md dep ext
              | None => ext
              end
            else ext)
         (deps it) ext)
    (items component) [].

(** [sorted(set(names))] *)
Definition sorted_set (l : list string) : list string :=
  sort_by Str.leb (fun x => x) (remove_dups l).

Definition import_line (md : string) (nms : list string) : string :=
  "from ." +:+ md +:+ " import " +:+ Str.join ", " nms.

Definition package_import_lines (ext : dict (list string)) : list string :=
  map (fun '(md, nms) => import_line md (sorted_set nms)) (sort_by Str.leb fst ext).

(** The blocks of original source: each item's text, then an empty line. *)
Definition source_blocks (component : Component) : list string :=
  concat (map (fun it => [Str.rstrip (source it); ""]) (items component)).

Definition all_line (nms : list string) : string :=
  "__all__ = [" +:+ Str.join ", " (map Str.repr nms) +:+ "]".

(** The list [lines] of [render_module]. *)
Definition module_lines (component : Component) (all_imports : list string)
    (name_to_module : gmap string string) : list string :=
  let dedup_imps := _dedup_imports all_imports in
  let ext := external_deps component name_to_module in
  [HEADER]
  ++ (match dedup_imps with [] => [] | _ => dedup_imps ++ [""] end)
  ++ package_import_lines ext
  ++ (match ext with [] => [] | _ => [""] end)
  ++ source_blocks component
  ++ [all_line (names component); ""].

Definition render_module (component : Component) (all_imports : list string)
    (name_to_module : gmap string string) : string :=
  Str.join newline (module_lines component all_imports name_to_module).

(** [all_names] of [render_init]: the names of the components that get an
    import line. *)
Definition init_all_names (comps : list Component) : list string :=
  concat (map names
    (filter (fun c => String.eqb (Str.join ", " (names c)) "" = false) comps)).

(** The names listed in [__all__] of [__init__.py]. *)
Definition init_exports (comps : list Component) : list string :=
  sorted_set (init_all_names comps).

Definition init_lines (comps : list Component) (pkg_doc : option string) : list string :=
  [HEADER]
  ++ (match pkg_doc with
      | Some doc =>
          if String.eqb doc "" then []
          else [triple_quote; Str.strip doc; triple_quote; ""]
      | None => []
      end)
  ++ omap (fun c =>
             let joined := Str.join ", " (names c) in
             if String.eqb joined "" then None
             else Some ("from ." +:+ module_name c +:+ " import " +:+ joined))
          comps
  ++ [""; all_line (init_exports comps); ""].

Definition render_init (comps : list Component) (pkg_doc : option string) : string :=
  Str.join newline (init_lines comps pkg_doc).

(** ** Processing one file *)

(** The loop that makes the module names unique, right before rendering. *)
Fixpoint uniquify (comps : list Component) (used : gset string) : list Component :=
  match comps with
  | [] => []
  | c :: comps' =>
      let '(m, used') := ensure_unique_module_name (module_name c) used in
      rename c m :: uniquify comps' used'
  end.

(** The final components with the mapping the renderer is given. *)
Record plan : Type := {
  plan_components : list Component;
  plan_name_to_module : gmap string string;
  plan_imports : list string;
  plan_doc : option string
}.

(** [plan_and_write_single] up to the module-name collision guard: [None]
    when there is nothing to split. *)
Definition plan_single (set_iter : list string -> list string) (depth : nat)
    (cfg : packing) (tree : module_tree) : result (option plan) :=
  let ex := extract_top_level_items set_iter tree in
  match ex_items ex with
  | [] => Ok None
  | its =>
      '(comps, _) ← build_components depth its;
      let '(comps, name_to_module) := repack_components cfg comps in
      Ok (Some {| plan_components := uniquify comps ∅;
                  plan_name_to_module := name_to_module;
                  plan_imports := ex_imports ex;
                  plan_doc := ex_module_doc ex |})
  end.

(** The files written: the modules as pairs of module name and text, and
    the text of [__init__.py]. The choice of the package name and the file
    [__main__.py], which do not bear on the modules, are left out. *)
Record package : Type := {
  pkg_modules : list (string * string);
  pkg_init : string
}.

Definition write_package (p : plan) : package :=
  {| pkg_modules :=
       map (fun c => (module_name c,
                      render_module c (plan_imports p) (plan_name_to_module p)))
           (plan_components p);
     pkg_init := render_init (plan_components p) (plan_doc p) |}.

Definition plan_and_write_single (set_iter : list string -> list string) (depth : nat)
    (cfg : packing) (tree : module_tree) : result (option package) :=
  match plan_single set_iter depth cfg tree with
  | Ok (Some p) => Ok (Some (write_package p))
  | Ok None => Ok None
  | Err e => Err e
  end.

(** The default options of the command line. *)
Definition default_packing : packing :=
  {| group_assignments := true; pack_small_lines := 40; max_modules := 12;
     min_module_lines := 0; target_modules := None |}.

(** ** Example files *)

(** A call [f()] and a function whose body calls the given functions. *)
Definition call (f : string) : ast := Node [Name f Load; Node []].

Definition def_stmt (nm : string) (calls : list string) (seg : string) : statement :=
  {| stmt_node := FunctionDef false nm [] None [] [] [Node (map call calls)];
     stmt_segment := seg |}.

(** An assignment of a constant to the given targets. *)
Definition assign_stmt (targets : list ast) (seg : string) : statement :=
  {| stmt_node := Assign targets (Node []); stmt_segment := seg |}.

(** [pass] *)
Definition pass_stmt : statement := {| stmt_node := Node []; stmt_segment := "pass" |}.

Fixpoint body_lines (n : nat) (line : string) : string :=
  match n with
  | 0 => ""
  | S n' => newline +:+ line +:+ body_lines n' line
  end.

Definition file (body : list statement) : module_tree :=
  {| tree_body := body; tree_docstring := None |}.

(** The iteration order of a set, taken as the order of insertion. *)
Definition insertion_order (l : list string) : list string := l.

(** [a] calls [b], the forty lines of [b] call [c]. *)
Definition chain_file : module_tree :=
  file [def_stmt "a" ["b"] "def a(): return b()";
        def_stmt "b" ["c"] ("def b():" +:+ body_lines 39 "    c()");
        def_stmt "c" [] "def c(): return 0"].

(** Two names that differ in case only, and a function that uses the second. *)
Definition collision_file : module_tree :=
  file [def_stmt "foo" [] "def foo(): return 0";
        def_stmt "Foo" [] "def Foo(): return 1";
        def_stmt "bar" ["Foo"] "def bar(): return Foo()"].

Definition no_small_packing : packing :=
  {| group_assignments := true; pack_small_lines := 0; max_modules := 12;
     min_module_lines := 0; target_modules := None |}.

(** [a = b = 1] *)
Definition compound_file : module_tree :=
  file [assign_stmt [Name "a" Store; Name "b" Store] "a = b = 1"].

(** Two functions that call each other, [g] first. *)
Definition mutual_file : module_tree :=
  file [def_stmt "g" ["f"] "def g(): return f()";
        def_stmt "f" ["g"] "def f(): return g()"].

(** A constant and two small functions. *)
Definition constant_file : module_tree :=
  file [assign_stmt [Name "x" Store] "x = 1";
        def_stmt "f" [] "def f(): return 0";
        def_stmt "g" [] "def g(): return 1"].

(** [a = 1] and then [a, b = 1, 2]. *)
Definition unpacking_file : module_tree :=
  file [assign_stmt [Name "a" Store] "a = 1";
        assign_stmt [Node [Name "a" Store; Name "b" Store]] "a, b = 1, 2"].

(** ** Reading the rendered text *)

(** The lines of a text, split at the line feeds. *)
Fixpoint lines_from (cur : list ascii) (l : list ascii) : list string :=
  match l with
  | [] => [Str.of_list cur]
  | c :: r =>
      if Str.code c =? 10 then Str.of_list cur :: lines_from [] r
      else lines_from (cur ++ [c]) r
  end.

Definition lines_of (text : string) : list string := lines_from [] (Str.to_list text).

(** The text has a line [from .N import ...]. *)
Definition imports_from (text N : string) : bool :=
  existsb (String.prefix ("from ." +:+ N +:+ " import ")) (lines_of text).

(** Module [M] of the package imports from module [N] of the package. *)
Definition import_edge (pkg : package) (M N : string) : Prop :=
  exists text, (M, text) ∈ pkg_modules pkg /\ imports_from text N = true.

(** The source blocks of all modules: one per item of each component. *)
Definition emitted_blocks (comps : list Component) : list string :=
  concat (map (fun c => map (fun it => Str.rstrip (source it)) (items c)) comps).

(** The names a target binds: the names in store context, also inside a
    tuple, list or starred target. *)
Fixpoint stored_names (t : ast) : list string :=
  match t with
  | Name id Store => [id]
  | Node children => concat (map stored_names children)
  | _ => []
  end.

(** An assignment none of whose targets is a plain name. *)
Definition no_name_target (n : ast) : Prop :=
  match n with
  | Assign targets _ => Forall (fun t => name_target t = None) targets
  | AnnAssign target _ _ => name_target target = None
  | _ => False
  end.

(** A file of [n] functions, each calling the next: the dependency graph
    [{f0: {f1}, f1: {f2}, ...}]. *)
Definition chain_node (k : nat) : string := "f" +:+ pretty k.

Definition chain (n : nat) : dict (list string) :=
  map (fun k => (chain_node k, if S k <? n then [chain_node (S k)] else [])) (seq 0 n).

(** The components [build_components] makes of [constant_file]. *)
Definition constant_components : list Component :=
  match build_components 10 (ex_items (extract_top_level_items insertion_order constant_file)) with
  | Ok (comps, _) => comps
  | Err _ => []
  end.

(** * Specifications *)

(** ** Name normalisation *)

(** The characters a normalised name is made of. *)
Definition snake_char (c : ascii) : bool :=
  Str.is_lower c || Str.is_digit c || Str.is_underscore c.

(** A normalised name: what [to_snake] leaves as it is. *)
Record normalised (y : list ascii) : Prop := {
  norm_chars : Forall (fun c => snake_char c = true) y;
  norm_lead : Str.lstrip_l Str.is_underscore y = y;
  norm_trail : Str.rstrip_l Str.is_underscore y = y;
  norm_nonempty : y <> [];
  norm_digit : starts_with_digit y = false;
  norm_keyword : iskeyword (Str.of_list y) = false
}.

(** ** Tarjan's algorithm *)

(** The names that are in a component already. *)
Definition done (st : tarjan_state) : list string := concat (components st).

Section TarjanSpec.

Variable graph : dict (list string).

(** [x] depends on [y]: an edge of the graph. *)
Definition edge (x y : string) : Prop := y ∈ graph_get graph x.

(** Every name the traversal can meet. *)
Definition nodes : gset string :=
  list_to_set (dict_keys graph ++ concat (map (graph_get graph) (dict_keys graph))).

Definition closed (l : list string) : Prop :=
  forall x y, x ∈ l -> edge x y -> y ∈ l.

Definition unvisited (st : tarjan_state) : nat := size (nodes ∖ dom (indices st)).

Record tarjan_inv (st : tarjan_state) : Prop := {
  inv_nodup : NoDup (stack st ++ done st);
  inv_visited : forall x, x ∈ dom (indices st) <-> x ∈ stack st \/ x ∈ done st;
  inv_onstack : forall x, x ∈ onstack st <-> x ∈ stack st;
  inv_index : forall x i, indices st !! x = Some i -> i < index st;
  inv_sorted :
    forall pre x post i j, stack st = pre ++ x :: post -> forall y, y ∈ post ->
      indices st !! x = Some i -> indices st !! y = Some j -> j < i;
  inv_lowlink : forall x, x ∈ stack st -> is_Some (lowlink st !! x);
  inv_closed : forall k, closed (concat (take k (components st)));
  inv_nonempty : Forall (fun c => c <> []) (components st);
  inv_nodes : dom (indices st) ⊆ nodes
}.

(** What a call [strongconnect(v)] from state [st] has done in [st']. *)
Record strongconnect_post (st : tarjan_state) (v : string) (st' : tarjan_state) : Prop := {
  post_inv : tarjan_inv st';
  post_indices : indices st ⊆ indices st';
  post_v : indices st' !! v = Some (index st);
  post_lowlink : forall x, x ∈ dom (indices st) -> lowlink st' !! x = lowlink st !! x;
  post_components : exists new, components st' = components st ++ new;
  post_stack :
    (stack st' = stack st /\ lowlink st' !! v = Some (index st)) \/
    (exists seg y i,
        stack st' = seg ++ stack st /\ y ∈ stack st /\
        indices st !! y = Some i /\ lowlink st' !! v = Some i /\
        forall x z, x ∈ seg -> edge x z ->
          z ∈ done st' \/ (z ∈ stack st' /\ exists j, indices st' !! z = Some j /\ i <= j))
}.

(** The state inside the loop over the successors of [v], entered from
    [st0]; [seen] are the successors already handled. *)
Record loop_inv (st0 : tarjan_state) (v : string) (seen : list string)
    (st : tarjan_state) : Prop := {
  li_inv : tarjan_inv st;
  li_indices : <[v := index st0]> (indices st0) ⊆ indices st;
  li_lowlink : forall x, x ∈ dom (indices st0) -> lowlink st !! x = lowlink st0 !! x;
  li_components : exists new, components st = components st0 ++ new;
  li_stack :
    exists seg lv,
      stack st = seg ++ v :: stack st0 /\
      lowlink st !! v = Some lv /\
      (lv = index st0 \/ exists y, y ∈ stack st0 /\ indices st0 !! y = Some lv) /\
      forall x z, (x ∈ seg \/ (x = v /\ z ∈ seen)) -> edge x z ->
        z ∈ done st \/ (z ∈ stack st /\ exists j, indices st !! z = Some j /\ lv <= j)
}.

(** Between two calls from the loop over the keys the stack is empty. *)
Record roots_post (st : tarjan_state) (vs : list string) (st' : tarjan_state) : Prop := {
  rp_inv : tarjan_inv st';
  rp_stack : stack st' = [];
  rp_indices : indices st ⊆ indices st';
  rp_visited : forall v, v ∈ vs -> v ∈ dom (indices st')
}.

(** The result of [strongly_connected_components]: a partition of the nodes
    into non-empty lists, each initial part of which is closed under the
    edges of the graph. *)
Record scc_partition (sccs : list (list string)) : Prop := {
  scc_nodup : NoDup (concat sccs);
  scc_cover : forall x, x ∈ concat sccs <-> x ∈ nodes;
  scc_closed : forall k, closed (concat (take k sccs));
  scc_nonempty : Forall (fun c => c <> []) sccs
}.

End TarjanSpec.

(** ** Sorting *)

(** [x] comes before [y] in a list sorted by [key]. *)
Definition key_le {A K} (le : K -> K -> bool) (key : A -> K) (x y : A) : Prop :=
  le (key x) (key y) = true.

(** ** Components *)

(** The items the components are made of: for each name the last item
    that carries it, in the order of first occurrence of the names. *)
Definition kept (its : list TopLevelItem) : list TopLevelItem :=
  map snd (item_by_name_of its).

(** [a] depends on [b] in the extracted dependency graph. *)
Definition depends (its : list TopLevelItem) (a b : string) : Prop :=
  edge (graph_of its) a b.

(** Ascending by lower-cased name. *)
Definition by_lower_name (x y : TopLevelItem) : Prop :=
  Str.leb (Str.lower (name x)) (Str.lower (name y)) = true.

(** A name written in ASCII: on such names [Str.lower] is [str.lower]. *)
Definition ascii_only (s : string) : Prop :=
  Forall (fun c => Str.code c < 128) (Str.to_list s).

(** What [build_components] returns. *)
Record initial_components (its : list TopLevelItem) (comps : list Component) : Prop := {
  ic_items : concat (map items comps) ≡ₚ kept its;
  ic_names : forall c, c ∈ comps -> names c = map name (items c) /\ names c <> [];
  ic_sorted : forall c, c ∈ comps -> Sorted by_lower_name (items c);
  ic_mutual :
    forall a b, a ∈ map name its ->
      rtc (depends its) a b -> rtc (depends its) b a ->
      exists c, c ∈ comps /\ a ∈ names c /\ b ∈ names c
}.

(** The names an item depends on are names of items. *)
Definition deps_closed (its : list TopLevelItem) : Prop :=
  forall it d, it ∈ its -> d ∈ deps it -> d ∈ map name its.

(** Components as [build_components] makes them: the names are those of the
    items, no component is empty and no name occurs twice. *)
Record well_formed (comps : list Component) : Prop := {
  wf_nodup : NoDup (concat (map names comps));
  wf_names : forall c, c ∈ comps -> names c = map name (items c) /\ names c <> []
}.

(** [comps] arises from [comps0] by merging: the same items, every
    component the concatenation of components of [comps0], and every
    component of [comps0] contained in one of [comps]. *)
Record packed (comps0 comps : list Component) : Prop := {
  pk_items : concat (map items comps) ≡ₚ concat (map items comps0);
  pk_seeds :
    forall c, c ∈ comps ->
      exists seeds, seeds <> [] /\ Forall (fun s => s ∈ comps0) seeds /\
        items c = concat (map items seeds) /\ names c = concat (map names seeds);
  pk_cover :
    forall c0, c0 ∈ comps0 -> exists c, c ∈ comps /\ forall x, x ∈ names c0 -> x ∈ names c
}.

(** [c] holds what components that satisfy [B] hold, one after the other. *)
Definition built_from (B : Component -> Prop) (c : Component) : Prop :=
  exists seeds, seeds <> [] /\ Forall B seeds /\
    items c = concat (map items seeds) /\ names c = concat (map names seeds).

(** The options with the packing of small components switched off. *)
Definition without_small_packing (cfg : packing) : packing :=
  {| group_assignments := group_assignments cfg; pack_small_lines := 0;
     max_modules := max_modules cfg; min_module_lines := min_module_lines cfg;
     target_modules := target_modules cfg |}.

(** ** Extraction and plans *)

(** [P] holds of the node, if there is one. *)
Definition holds_opt (P : ast -> Prop) (o : option ast) : Prop :=
  match o with Some n => P n | None => True end.

(** The visitor records top-level names only. *)
Definition keeps_within (tops : gset string) (n : ast) : Prop :=
  forall used, (forall x, x ∈ used -> x ∈ tops) ->
    forall x, x ∈ visit tops n used -> x ∈ tops.

(** The items collected so far by the loop over [tree.body]. *)
Definition acc_items (acc : list TopLevelItem * list string * option string)
  : list TopLevelItem := acc.1.1.

(** ** Rendered text *)

(** The line [__all__ = ['n1', ..., 'nk']] for the names [n1], ..., [nk]. *)
Definition exports_line (nms : list string) : string :=
  "__all__ = [" +:+ Str.join ", " (map (fun n => "'" +:+ n +:+ "'") nms) +:+ "]".

(** * The entry-point file and the presets *)

(** ** The file [__main__.py] *)

Definition main_lines (init_reexport : bool) (main_body : string) : list string :=
  [HEADER]
  ++ (if init_reexport
      then ["from . import *  # re-exported names from package"; ""]
      else [])
  ++ [Str.rstrip main_body; ""].

Definition render_main (init_reexport : bool) (main_body : string) : string :=
  Str.join newline (main_lines init_reexport main_body).

(** ** The preset [--compact] *)

(** [target_modules or d] *)
Definition or_default (t : option Z) (d : Z) : Z :=
  match t with
  | Some x => if (x =? 0)%Z then d else x
  | None => d
  end.

(** The block of [main] that applies the preset: [compact] is the value of
    the option, [None] when it is not given. *)
Definition compact_preset (compact : option Z) (cfg : packing) : packing :=
  match compact with
  | Some level =>
      if (0 <? level)%Z then
        if (level =? 1)%Z then
          {| group_assignments := group_assignments cfg;
             pack_small_lines := Z.max (pack_small_lines cfg) 80;
             max_modules := Z.min (max_modules cfg) 10;
             min_module_lines := Z.max (min_module_lines cfg) 40;
             target_modules := target_modules cfg |}
        else if (level =? 2)%Z then
          {| group_assignments := group_assignments cfg;
             pack_small_lines := Z.max (pack_small_lines cfg) 120;
             max_modules := Z.min (max_modules cfg) 8;
             min_module_lines := Z.max (min_module_lines cfg) 80;
             target_modules := Some (Z.min (or_default (target_modules cfg) 8) 8) |}
        else if (level =? 3)%Z then
          {| group_assignments := group_assignments cfg;
             pack_small_lines := Z.max (pack_small_lines cfg) 160;
             max_modules := Z.min (max_modules cfg) 6;
             min_module_lines := Z.max (min_module_lines cfg) 120;
             target_modules := Some (Z.min (or_default (target_modules cfg) 6) 6) |}
        else cfg
      else cfg
  | None => cfg
  end.

(** ** More example files *)

(** [x = 1] and then [x = x + 1]. *)
Definition rebinding_file : module_tree :=
  file [assign_stmt [Name "x" Store] "x = 1";
        {| stmt_node := Assign [Name "x" Store] (Node [Name "x" Load; Node []]);
           stmt_segment := "x = x + 1" |}].

(** Two constants and a function. *)
Definition two_constants_file : module_tree :=
  file [assign_stmt [Name "x" Store] "x = 1";
        assign_stmt [Name "y" Store] "y = 2";
        def_stmt "f" [] "def f(): return 0"].

(** * Further specifications *)


(** The parts of a module name: made of [[a-z0-9_]], starting neither with
    a digit nor with an underscore, and not ending in an underscore. *)
Definition name_part (y : list ascii) : Prop :=
  y <> [] /\ Forall (fun c => snake_char c = true) y /\
  starts_with_digit y = false /\
  head y <> Some "_"%char /\ last y <> Some "_"%char.

(** The components that [merge_smallest_once] may merge: those not called
    [constants] or [core]. *)
Definition movable (comps : list Component) : list Component :=
  filter (fun c => pinned c = false) comps.

(** The components that [build_components] makes of a file, with the
    dependency sets in order of insertion. *)
Definition initial_components_of (tree : module_tree) : list Component :=
  match build_components 10 (ex_items (extract_top_level_items insertion_order tree)) with
  | Ok (comps, _) => comps
  | Err _ => []
  end.

(** ** Strong connection *)

Section ConnectedSpec.

Variable graph : dict (list string).

(** Any two names of [c] depend on each other, directly or through other
    names. *)
Definition strongly_connected (c : list string) : Prop :=
  forall x y, x ∈ c -> y ∈ c -> rtc (edge graph) x y.

(** Every component found so far is strongly connected. *)
Definition conn_inv (st : tarjan_state) : Prop :=
  Forall strongly_connected (components st).

(** Inside the loop over the successors of [v], entered from [st0]: every
    name on the stack reaches [v], [v] reaches the names pushed since, and
    the name whose index is [lowlink[v]]. *)
Record conn_loop (st0 : tarjan_state) (v : string) (st : tarjan_state) : Prop := {
  cl_inv : conn_inv st;
  cl_to_v : forall x, x ∈ stack st -> rtc (edge graph) x v;
  cl_from_v : forall x, x ∈ stack st -> x ∉ stack st0 -> rtc (edge graph) v x;
  cl_low :
    forall lv y, lowlink st !! v = Some lv -> y ∈ stack st0 ->
      indices st0 !! y = Some lv -> rtc (edge graph) v y
}.

(** After a call [strongconnect(v)] from [st]: the names it has left on
    the stack are connected with [v] both ways, and [v] reaches the name
    whose index is [lowlink[v]]. *)
Record conn_post (st : tarjan_state) (v : string) (st' : tarjan_state) : Prop := {
  cp_inv : conn_inv st';
  cp_new :
    forall x, x ∈ stack st' -> x ∉ stack st ->
      rtc (edge graph) v x /\ rtc (edge graph) x v;
  cp_low :
    forall i y, lowlink st' !! v = Some i -> y ∈ stack st ->
      indices st !! y = Some i -> rtc (edge graph) v y
}.

End ConnectedSpec.

(** ** Extraction *)

Definition is_import (n : ast) : bool :=
  match n with Import | ImportFrom => true | _ => false end.

(** The item [it] is made from the statement [s]: it carries the text of
    the statement, and its name and kind are those of the class, of the
    function or of a plain-name target of the assignment. *)
Definition made_from (it : TopLevelItem) (s : statement) : Prop :=
  source it = stmt_segment s /\
  match stmt_node s with
  | ClassDef nm _ _ _ _ => kind it = KClass /\ name it = nm
  | FunctionDef _ nm _ _ _ _ _ => kind it = KFunc /\ name it = nm
  | Assign targets _ =>
      kind it = KAssign /\ exists t, t ∈ targets /\ name_target t = Some (name it)
  | AnnAssign target _ _ => kind it = KAssign /\ name_target target = Some (name it)
  | _ => False
  end.

(** The names a statement defines for the splitter. *)
Definition defined_names (n : ast) : list string :=
  match n with
  | ClassDef nm _ _ _ _ => [nm]
  | FunctionDef _ nm _ _ _ _ _ => [nm]
  | Assign targets _ => omap name_target targets
  | AnnAssign target _ _ => match name_target target with Some id => [id] | None => [] end
  | _ => []
  end.

(** The items one statement adds. *)
Definition items_of_statement (pos : nat) (s : statement) : list TopLevelItem :=
  acc_items (extract_statement pos s ([], [], None)).

(** The items of the statements of [body], the first of which has
    position [pos]. *)
Fixpoint items_from (pos : nat) (body : list statement) : list TopLevelItem :=
  match body with
  | [] => []
  | s :: body' => items_of_statement pos s ++ items_from (S pos) body'
  end.

(** The visitor only adds names, and only top-level names, to the ones it
    has; it adds no name twice. *)
Definition adds_top_level_names (tops : gset string) (n : ast) : Prop :=
  forall used,
    (forall x, x ∈ used -> x ∈ visit tops n used) /\
    (forall x, x ∈ visit tops n used -> x ∈ used \/ x ∈ tops) /\
    (NoDup used -> NoDup (visit tops n used)).

(** ** Imports between the modules *)


Section ExternalDepsSpec.

Variable component : Component.
Variable name_to_module : gmap string string.

(** One turn of the inner loop of [render_module] that fills
    [external_deps]. *)
Definition note_dep (ext : dict (list string)) (dep : string) : dict (list string) :=
  if bool_decide (dep ∉ names component) then
    match name_to_module !! dep with
    | Some md => if String.eqb md "" then ext else dict_append md dep ext
    | None => ext
    end
  else ext.

(** [dep] is imported from [md]: it is not a name of the component, and
    the mapping sends it to the module [md]. *)
Definition imported (md dep : string) : Prop :=
  dep ∉ names component /\ name_to_module !! dep = Some md /\ md <> "".

(** The entries of [external_deps] are sound. *)
Definition sound_deps (its : list TopLevelItem) (ext : dict (list string)) : Prop :=
  NoDup (dict_keys ext) /\
  forall md nms, (md, nms) ∈ ext ->
    nms <> [] /\
    forall n, n ∈ nms -> imported md n /\ exists it, it ∈ its /\ n ∈ deps it.

End ExternalDepsSpec.

(** ** The least size of a module *)

(** Every movable component has at least [min_lines] lines. *)
Definition large_enough (min_lines : Z) (comps : list Component) : Prop :=
  forall c, c ∈ comps -> pinned c = false -> (min_lines <= Z.of_nat (_comp_lines c))%Z.

(** ** Imports among the modules *)

(** The module of [c] has a line [from .M import ...] for the module [M]
    of [c']. *)
Definition module_imports (comps : list Component) (name_to_module : gmap string string)
    (c c' : Component) : Prop :=
  c ∈ comps /\ c' ∈ comps /\
  exists nms, (module_name c', nms) ∈ external_deps c name_to_module.

(** The place, in a list of lists, of the first list that holds [x]. *)
Fixpoint position (x : string) (sccs : list (list string)) : nat :=
  match sccs with
  | [] => 0
  | s :: rest => if bool_decide (x ∈ s) then 0 else S (position x rest)
  end.

(** The place of the list that holds the names of [c]. *)
Definition rank (sccs : list (list string)) (c : Component) : nat :=
  match names c with
  | x :: _ => position x sccs
  | [] => 0
  end.

(** ** Generated texts *)

(** A text ends with a line feed. *)
Definition ends_with_newline (text : string) : Prop :=
  exists pre, text = pre +:+ newline.

(** * Properties *)

(** ** Name normalisation is idempotent *)

Section ToSnake.

Import Str.

Lemma snake_char_lower_ident c : is_ident c = true -> snake_char (lower_char c) = true.
Proof.
  destruct c as [[] [] [] [] [] [] [] []]; vm_compute; intros H; congruence.
Qed.

Lemma snake_char_classes c :
  snake_char c = true ->
  is_space c = false /\ is_upper c = false /\ is_ident c = true /\
  (code c =? 45) = false.
Proof.
  destruct c as [[] [] [] [] [] [] [] []]; vm_compute; intros H;
    repeat split; congruence.
Qed.

Lemma lstrip_l_Forall (P : ascii -> Prop) p l : Forall P l -> Forall P (lstrip_l p l).
Proof.
  induction 1 as [|c r Hc Hr IH]; simpl; [constructor|].
  destruct (p c); [exact IH | by constructor].
Qed.

Lemma rstrip_l_Forall (P : ascii -> Prop) p l : Forall P l -> Forall P (rstrip_l p l).
Proof.
  induction 1 as [|c r Hc Hr IH]; simpl; [constructor|].
  destruct (rstrip_l p r) as [|d r'].
  - destruct (p c); repeat constructor; done.
  - by constructor.
Qed.

Lemma lstrip_l_none p l : Forall (fun c => p c = false) l -> lstrip_l p l = l.
Proof. destruct 1 as [|c r Hc Hr]; simpl; [done | by rewrite Hc]. Qed.

Lemma rstrip_l_none p l : Forall (fun c => p c = false) l -> rstrip_l p l = l.
Proof.
  induction 1 as [|c r Hc Hr IH]; simpl; [done|].
  rewrite IH, Hc. by destruct r.
Qed.

Lemma lstrip_l_idemp p l : lstrip_l p (lstrip_l p l) = lstrip_l p l.
Proof.
  induction l as [|c r IH]; simpl; [done|].
  destruct (p c) eqn:E; [done | simpl; by rewrite E].
Qed.

Lemma rstrip_l_idemp p l : rstrip_l p (rstrip_l p l) = rstrip_l p l.
Proof.
  induction l as [|c r IH]; simpl; [done|].
  destruct (rstrip_l p r) as [|d r'] eqn:E.
  - destruct (p c) eqn:Ec; simpl; [done | by rewrite Ec].
  - change (rstrip_l p (c :: d :: r')) with
      (match rstrip_l p (d :: r') with [] => if p c then [] else [c] | x => c :: x end).
    by rewrite IH.
Qed.

(** Stripping on the right keeps a list free of leading [p]. *)
Lemma rstrip_l_keeps_lstrip p l : lstrip_l p l = l -> lstrip_l p (rstrip_l p l) = rstrip_l p l.
Proof.
  destruct l as [|c r]; simpl; [done|].
  destruct (p c) eqn:Ec.
  - intros H. exfalso.
    assert (Hlen : length (lstrip_l p r) <= length r).
    { clear. induction r as [|d r IH]; simpl; [lia|]. destruct (p d); simpl; lia. }
    rewrite H in Hlen. simpl in Hlen. lia.
  - intros _. destruct (rstrip_l p r); simpl; by rewrite Ec.
Qed.

Lemma strip_l_idemp p l : strip_l p (strip_l p l) = strip_l p l.
Proof.
  unfold strip_l.
  rewrite (rstrip_l_keeps_lstrip p (lstrip_l p l)) by apply lstrip_l_idemp.
  apply rstrip_l_idemp.
Qed.

Lemma strip_l_lstrip p l : lstrip_l p (strip_l p l) = strip_l p l.
Proof. unfold strip_l. apply rstrip_l_keeps_lstrip, lstrip_l_idemp. Qed.

Lemma strip_l_rstrip p l : rstrip_l p (strip_l p l) = strip_l p l.
Proof. unfold strip_l. apply rstrip_l_idemp. Qed.

Lemma rstrip_l_app_nonempty p a b :
  rstrip_l p b <> [] -> rstrip_l p (a ++ b) = a ++ rstrip_l p b.
Proof.
  intros Hb. induction a as [|c a IH]; simpl; [done|].
  rewrite IH. destruct (a ++ rstrip_l p b) eqn:E; [|done].
  by apply app_eq_nil in E as [_ ?].
Qed.

Lemma ident_sub_from_snake b l : Forall (fun c => snake_char c = true) (lower_l (ident_sub_from b l)).
Proof.
  revert b. induction l as [|c r IH]; intros b; simpl; [constructor|].
  destruct (is_ident c) eqn:E; simpl.
  - constructor; [by apply snake_char_lower_ident | apply IH].
  - destruct b; [apply IH|]. simpl. constructor; [done | apply IH].
Qed.

Lemma camel_sub_no_upper l : Forall (fun c => is_upper c = false) l -> camel_sub l = l.
Proof.
  induction 1 as [|a r Ha Hr IH]; [done|].
  destruct Hr as [|b r' Hb Hr']; [done|].
  change (camel_sub (a :: b :: r')) with
    (if (is_lower a || is_digit a) && is_upper b
     then a :: "_"%char :: b :: camel_sub r' else a :: camel_sub (b :: r')).
  rewrite Hb, andb_false_r. by rewrite IH.
Qed.

Lemma ident_sub_all_ident l : Forall (fun c => is_ident c = true) l -> ident_sub l = l.
Proof.
  unfold ident_sub. induction 1 as [|c r Hc Hr IH]; simpl; [done|].
  by rewrite Hc, IH.
Qed.

Lemma lower_l_no_upper l : Forall (fun c => is_upper c = false) l -> lower_l l = l.
Proof.
  unfold lower_l, lower_char. induction 1 as [|c r Hc Hr IH]; simpl; [done|].
  by rewrite Hc, IH.
Qed.

Lemma dash_to_underscore_none l :
  Forall (fun c => (code c =? 45) = false) l -> dash_to_underscore l = l.
Proof.
  unfold dash_to_underscore. induction 1 as [|c r Hc Hr IH]; simpl; [done|].
  by rewrite Hc, IH.
Qed.

Lemma snake_core_normalised y :
  Forall (fun c => snake_char c = true) y ->
  lstrip_l is_underscore y = y -> rstrip_l is_underscore y = y ->
  strip_l is_underscore
    (lower_l (ident_sub (camel_sub (dash_to_underscore (strip_l is_space y))))) = y.
Proof.
  intros Hch Hl Ht.
  assert (Hsp : Forall (fun c => is_space c = false) y)
    by (eapply Forall_impl; [exact Hch | intros c Hc; by apply snake_char_classes in Hc as (? & _)]).
  assert (Hup : Forall (fun c => is_upper c = false) y)
    by (eapply Forall_impl; [exact Hch | intros c Hc; by apply snake_char_classes in Hc as (_ & ? & _)]).
  assert (Hid : Forall (fun c => is_ident c = true) y)
    by (eapply Forall_impl; [exact Hch | intros c Hc; by apply snake_char_classes in Hc as (_ & _ & ? & _)]).
  assert (Hda : Forall (fun c => (code c =? 45) = false) y)
    by (eapply Forall_impl; [exact Hch | intros c Hc; by apply snake_char_classes in Hc as (_ & _ & _ & ?)]).
  unfold strip_l. rewrite (lstrip_l_none _ _ Hsp), (rstrip_l_none _ _ Hsp).
  rewrite (dash_to_underscore_none _ Hda), (camel_sub_no_upper _ Hup).
  rewrite (ident_sub_all_ident _ Hid), (lower_l_no_upper _ Hup).
  by rewrite Hl, Ht.
Qed.

Lemma to_snake_l_normalised y : normalised y -> to_snake_l y = y.
Proof.
  intros [Hch Hl Ht Hne Hd Hk]. unfold to_snake_l. cbv zeta.
  rewrite !(snake_core_normalised y Hch Hl Ht).
  destruct y as [|c r]; [done|].
  by rewrite Hd, Hk.
Qed.

Lemma iskeyword_m_prefix l : iskeyword (of_list ("m"%char :: l)) = false.
Proof. reflexivity. Qed.

Lemma to_snake_l_is_normalised s : normalised (to_snake_l s).
Proof.
  unfold to_snake_l. cbv zeta.
  set (n := strip_l is_underscore _).
  assert (Hch : Forall (fun c => snake_char c = true) n).
  { unfold n, strip_l. apply rstrip_l_Forall, lstrip_l_Forall, ident_sub_from_snake. }
  assert (Hl : lstrip_l is_underscore n = n) by apply strip_l_lstrip.
  assert (Ht : rstrip_l is_underscore n = n) by apply strip_l_rstrip.
  clearbody n.
  set (n1 := match n with [] => to_list "module" | _ => n end).
  assert (H1 : Forall (fun c => snake_char c = true) n1 /\
               lstrip_l is_underscore n1 = n1 /\ rstrip_l is_underscore n1 = n1 /\ n1 <> []).
  { unfold n1. destruct n; [|done]. split_and!; [|done..]. repeat constructor. }
  clearbody n1. clear n Hch Hl Ht. destruct H1 as (Hch & Hl & Ht & Hne).
  set (n2 := if starts_with_digit n1 then to_list "m_" ++ n1 else n1).
  assert (H2 : Forall (fun c => snake_char c = true) n2 /\
               lstrip_l is_underscore n2 = n2 /\ rstrip_l is_underscore n2 = n2 /\
               n2 <> [] /\ starts_with_digit n2 = false).
  { unfold n2. destruct (starts_with_digit n1) eqn:E; [|done].
    split_and!; [| done | | done | done].
    - apply Forall_app; split; [repeat constructor | done].
    - rewrite rstrip_l_app_nonempty; by rewrite Ht. }
  clearbody n2. destruct H2 as (Hch2 & Hl2 & Ht2 & Hne2 & Hd2).
  destruct (iskeyword (of_list n2)) eqn:Ek; [|by split].
  split; [| done | | done | done | reflexivity].
  - apply Forall_app; split; [repeat constructor | done].
  - rewrite rstrip_l_app_nonempty; by rewrite Ht2.
Qed.

Lemma to_snake_l_idempotent s : to_snake_l (to_snake_l s) = to_snake_l s.
Proof. apply to_snake_l_normalised, to_snake_l_is_normalised. Qed.

(** C9: normalising an already-normalised name returns it unchanged:
    [to_snake (to_snake s) = to_snake s] for every string [s]. *)
Theorem to_snake_idempotent (s : string) : to_snake (to_snake s) = to_snake s.
Proof.
  unfold to_snake, to_list, of_list.
  rewrite list_ascii_of_string_of_list_ascii.
  f_equal. apply to_snake_l_idempotent.
Qed.

End ToSnake.

(** ** Lists *)

Lemma elem_of_concat {A} (ls : list (list A)) (x : A) :
  x ∈ concat ls <-> exists l, l ∈ ls /\ x ∈ l.
Proof.
  rewrite list_elem_of_In, in_concat.
  split; intros (l & H1 & H2); exists l; by rewrite ?list_elem_of_In in *.
Qed.

Lemma elem_of_map {A B} (f : A -> B) (l : list A) (y : B) :
  y ∈ map f l <-> exists x, y = f x /\ x ∈ l.
Proof.
  rewrite list_elem_of_In, in_map_iff.
  split; intros (x & H1 & H2); exists x; by rewrite ?list_elem_of_In in *.
Qed.

Lemma size_list_to_set_le (l : list string) :
  size (list_to_set l : gset string) <= length l.
Proof.
  induction l as [|x l IH].
  - rewrite list_to_set_nil, size_empty. lia.
  - rewrite list_to_set_cons. simpl.
    etrans; [apply PeanoNat.Nat.eq_le_incl, size_union_alt|]. rewrite size_singleton.
    assert (size (list_to_set l ∖ {[x]} : gset string) <= size (list_to_set l : gset string)).
    { apply subseteq_size. set_solver. }
    lia.
Qed.

(** ** Tarjan's algorithm *)

Lemma result_bind_ok {A B} (m : result A) (f : A -> result B) (b : B) :
  m ≫= f = Ok b -> exists a, m = Ok a /\ f a = Ok b.
Proof. destruct m as [a|e]; simpl; [eauto | discriminate]. Qed.

Lemma map_item_ok m k x : m !! k = Some x -> map_item m k = Ok x.
Proof. unfold map_item. by intros ->. Qed.

Lemma pop_component_ok v seg rest ons comp :
  v ∉ seg -> NoDup seg -> (forall x, x ∈ seg ++ [v] -> x ∈ ons) ->
  pop_component v (seg ++ v :: rest) ons comp
  = Ok (comp ++ seg ++ [v], rest, ons ∖ list_to_set (seg ++ [v])).
Proof.
  revert ons comp. induction seg as [|w seg IH]; intros ons comp Hv Hnd Hin; simpl.
  - rewrite bool_decide_eq_true_2 by (apply Hin; set_solver).
    rewrite String.eqb_refl. do 2 f_equal. set_solver.
  - rewrite bool_decide_eq_true_2 by (apply Hin; set_solver).
    destruct (String.eqb_spec w v) as [->|Hne]; [set_solver|].
    apply NoDup_cons in Hnd as [Hw Hnd].
    rewrite IH; [| set_solver | done |].
    + rewrite <- !app_assoc. simpl. do 2 f_equal. set_solver.
    + intros x Hx. apply elem_of_difference. split; [apply Hin; set_solver|].
      apply elem_of_app in Hx as [Hx|Hx]; set_solver.
Qed.

Section Tarjan.

Variable graph : dict (list string).

Local Notation edge := (edge graph).
Local Notation nodes := (nodes graph).
Local Notation closed := (closed graph).
Local Notation unvisited := (unvisited graph).
Local Notation tarjan_inv := (tarjan_inv graph).
Local Notation strongconnect_post := (strongconnect_post graph).
Local Notation loop_inv := (loop_inv graph).
Local Notation roots_post := (roots_post graph).
Local Notation scc_partition := (scc_partition graph).
Local Notation inv_nodup := (inv_nodup graph).
Local Notation inv_visited := (inv_visited graph).
Local Notation inv_onstack := (inv_onstack graph).
Local Notation inv_index := (inv_index graph).
Local Notation inv_sorted := (inv_sorted graph).
Local Notation inv_lowlink := (inv_lowlink graph).
Local Notation inv_closed := (inv_closed graph).
Local Notation inv_nonempty := (inv_nonempty graph).
Local Notation inv_nodes := (inv_nodes graph).
Local Notation post_inv := (post_inv graph).
Local Notation post_indices := (post_indices graph).
Local Notation post_v := (post_v graph).
Local Notation post_lowlink := (post_lowlink graph).
Local Notation post_components := (post_components graph).
Local Notation post_stack := (post_stack graph).
Local Notation li_inv := (li_inv graph).
Local Notation li_indices := (li_indices graph).
Local Notation li_lowlink := (li_lowlink graph).
Local Notation li_components := (li_components graph).
Local Notation li_stack := (li_stack graph).

Lemma dict_get_elem_of {V} (d : dict V) k v : dict_get d k = Some v -> (k, v) ∈ d.
Proof.
  induction d as [|[k' v'] d IH]; simpl; [done|].
  destruct (String.eqb_spec k k') as [->|Hne].
  - intros [= ->]. left.
  - intros H. right. by apply IH.
Qed.

Lemma dict_get_keys {V} (d : dict V) k : is_Some (dict_get d k) <-> k ∈ dict_keys d.
Proof.
  unfold dict_keys. induction d as [|[k' v'] d IH]; simpl.
  - split; [by intros [? ?] | by intros ?%elem_of_nil].
  - destruct (String.eqb_spec k k') as [->|Hne].
    + split; [intros _; left | eauto].
    + rewrite IH. split; [by right | by intros [?|?]%elem_of_cons].
Qed.

Lemma edge_nodes x y : edge x y -> y ∈ nodes.
Proof.
  unfold edge, nodes. intros Hy.
  apply elem_of_list_to_set, elem_of_app. right.
  apply elem_of_concat. exists (graph_get graph x). split; [|done].
  apply elem_of_map. exists x. split; [done|].
  apply dict_get_keys. unfold graph_get in Hy.
  destruct (dict_get graph x); [eauto | by apply elem_of_nil in Hy].
Qed.

Lemma set_lowlink_inv v x st :
  tarjan_inv st -> tarjan_inv (set_lowlink v x st).
Proof.
  intros [H1 H2 H3 H4 H5 H6 H7 H8 H9]. split; simpl; try done.
  intros y Hy. destruct (decide (v = y)) as [->|Hne].
  - rewrite lookup_insert_eq. eauto.
  - rewrite lookup_insert_ne by done. auto.
Qed.

Lemma enter_loop_inv st0 v :
  tarjan_inv st0 -> v ∉ dom (indices st0) -> v ∈ nodes ->
  loop_inv st0 v [] (enter v st0).
Proof.
  intros Hinv Hv Hn.
  assert (Hvs : v ∉ stack st0 /\ v ∉ done st0).
  { split; intros ?; apply Hv, (inv_visited _ Hinv); auto. }
  destruct Hvs as [Hvs Hvd].
  assert (Hnone : indices st0 !! v = None) by by apply not_elem_of_dom.
  split.
  - split; simpl.
    + apply NoDup_cons. split; [|apply (inv_nodup _ Hinv)].
      rewrite elem_of_app. tauto.
    + intros x. rewrite dom_insert_L, elem_of_union, elem_of_singleton, elem_of_cons.
      rewrite (inv_visited _ Hinv). unfold done. simpl. tauto.
    + intros x. rewrite elem_of_union, elem_of_singleton, elem_of_cons.
      rewrite (inv_onstack _ Hinv). tauto.
    + intros x i. destruct (decide (v = x)) as [->|Hne].
      * rewrite lookup_insert_eq. intros [= <-]. lia.
      * rewrite lookup_insert_ne by done. intros H%(inv_index _ Hinv). lia.
    + intros pre x post i j Hst y Hy Hx Hj.
      assert (Hys : y ∈ stack st0).
      { destruct pre as [|p pre]; simplify_eq/=; [done|].
        match goal with H : stack st0 = _ |- _ => rewrite H end.
        apply elem_of_app. right. by right. }
      assert (Hyv : y <> v) by (by intros ->).
      rewrite lookup_insert_ne in Hj by done.
      destruct pre as [|p pre]; simplify_eq/=.
      * rewrite lookup_insert_eq in Hx. simplify_eq. by apply (inv_index _ Hinv) in Hj.
      * assert (Hxs : x ∈ stack st0).
        { match goal with H : stack st0 = _ |- _ => rewrite H end.
          apply elem_of_app. right. by left. }
        rewrite lookup_insert_ne in Hx by (by intros ->).
        eapply (inv_sorted _ Hinv); eauto.
    + intros x [->|Hx]%elem_of_cons.
      * rewrite lookup_insert_eq. eauto.
      * destruct (decide (v = x)) as [->|Hne]; [done|].
        rewrite lookup_insert_ne by done. by apply (inv_lowlink _ Hinv).
    + apply (inv_closed _ Hinv).
    + apply (inv_nonempty _ Hinv).
    + rewrite dom_insert_L. pose proof (inv_nodes _ Hinv). set_solver.
  - done.
  - simpl. intros x Hx. rewrite lookup_insert_ne; [done|]. by intros ->.
  - exists []. simpl. by rewrite app_nil_r.
  - exists [], (index st0). simpl. split_and!; [done | by rewrite lookup_insert_eq | by left |].
    intros x z [Hx|[_ Hz]]; [by apply elem_of_nil in Hx | by apply elem_of_nil in Hz].
Qed.

(** Facts that hold all along the loop of [v]. *)
Lemma loop_inv_index_v st0 v seen st :
  loop_inv st0 v seen st -> indices st !! v = Some (index st0).
Proof.
  intros H. eapply lookup_weaken; [|apply (li_indices _ _ _ _ H)].
  apply lookup_insert_eq.
Qed.

Lemma loop_inv_indices st0 v seen st :
  v ∉ dom (indices st0) -> loop_inv st0 v seen st -> indices st0 ⊆ indices st.
Proof.
  intros Hv H. etrans; [|apply (li_indices _ _ _ _ H)].
  apply insert_subseteq. by apply not_elem_of_dom.
Qed.

Lemma stack_index_lt st x :
  tarjan_inv st -> x ∈ stack st -> exists i, indices st !! x = Some i /\ i < index st.
Proof.
  intros Hinv Hx.
  assert (Hd : x ∈ dom (indices st)) by (apply (inv_visited _ Hinv); auto).
  apply elem_of_dom in Hd as [i Hi]. exists i. split; [done|].
  by apply (inv_index _ Hinv) in Hi.
Qed.

(** Above [v] on the stack the indices are larger than that of [v]. *)
Lemma above_index_ge st0 v seen st seg rest x i :
  loop_inv st0 v seen st -> stack st = seg ++ v :: rest ->
  x ∈ seg ++ [v] -> indices st !! x = Some i -> index st0 <= i.
Proof.
  intros H Hst Hx Hi. pose proof (loop_inv_index_v _ _ _ _ H) as Hv.
  apply elem_of_app in Hx as [Hx|Hx%list_elem_of_singleton].
  - apply list_elem_of_split in Hx as (l1 & l2 & ->).
    assert (index st0 < i); [|lia].
    eapply (inv_sorted _ (li_inv _ _ _ _ H) l1 x (l2 ++ v :: rest)); eauto.
    + by rewrite Hst, <- app_assoc.
    + apply elem_of_app. right. by left.
  - subst x. rewrite Hv in Hi. injection Hi as <-. lia.
Qed.

Lemma low_le_index st0 lv :
  tarjan_inv st0 ->
  (lv = index st0 \/ exists y, y ∈ stack st0 /\ indices st0 !! y = Some lv) ->
  lv <= index st0.
Proof.
  intros Hinv [->|(y & Hy & Hi)]; [lia|].
  apply (inv_index _ Hinv) in Hi. lia.
Qed.

(** Taking the minimum with the index of a node on the stack keeps the
    description of [lowlink[v]]. *)
Lemma low_min_stack st0 v seen st seg lv z iz :
  tarjan_inv st0 -> v ∉ dom (indices st0) ->
  loop_inv st0 v seen st -> stack st = seg ++ v :: stack st0 ->
  (lv = index st0 \/ exists y, y ∈ stack st0 /\ indices st0 !! y = Some lv) ->
  z ∈ stack st -> indices st !! z = Some iz ->
  lv `min` iz = index st0 \/ exists y, y ∈ stack st0 /\ indices st0 !! y = Some (lv `min` iz).
Proof.
  intros Hinv0 Hv H Hst Hlv Hz Hiz.
  pose proof (low_le_index _ _ Hinv0 Hlv) as Hle.
  destruct (Nat.min_spec lv iz) as [[_ ->]|[Hlt ->]]; [done|].
  rewrite Hst in Hz.
  replace (seg ++ v :: stack st0) with ((seg ++ [v]) ++ stack st0) in Hz
    by by rewrite <- app_assoc.
  apply elem_of_app in Hz as [Hz|Hz].
  - pose proof (above_index_ge _ _ _ _ _ _ _ _ H Hst Hz Hiz). left. lia.
  - right. exists z. split; [done|].
    destruct (stack_index_lt _ _ Hinv0 Hz) as (i & Hi & _).
    pose proof (lookup_weaken _ _ _ _ Hi (loop_inv_indices _ _ _ _ Hv H)) as Hi'.
    congruence.
Qed.

Lemma loop_step_onstack st0 v seen st w iw :
  tarjan_inv st0 -> v ∉ dom (indices st0) ->
  loop_inv st0 v seen st -> indices st !! w = Some iw -> w ∈ onstack st ->
  exists lv, lowlink st !! v = Some lv /\
    loop_inv st0 v (seen ++ [w]) (set_lowlink v (lv `min` iw) st).
Proof.
  intros Hinv0 Hv H Hiw Hon.
  destruct (li_stack _ _ _ _ H) as (seg & lv & Hst & Hlv & Hdis & Hedges).
  assert (Hws : w ∈ stack st) by by apply (inv_onstack _ (li_inv _ _ _ _ H)).
  exists lv. split; [done|]. split.
  - apply set_lowlink_inv, H.
  - apply H.
  - simpl. intros x Hx. rewrite lookup_insert_ne; [by apply H|]. by intros ->.
  - apply H.
  - exists seg, (lv `min` iw). simpl. split_and!.
    + done.
    + by rewrite lookup_insert_eq.
    + eapply low_min_stack; eauto.
    + intros x z Hxz He.
      assert (Hold : (x ∈ seg \/ x = v /\ z ∈ seen) \/ (x = v /\ z = w)).
      { destruct Hxz as [?|[? Hz]]; [auto|].
        apply elem_of_app in Hz as [?|?%list_elem_of_singleton]; auto. }
      destruct Hold as [Hold|[-> ->]].
      * destruct (Hedges x z Hold He) as [?|(? & j & ? & ?)]; [by left|].
        right. split; [done|]. exists j. split; [done|lia].
      * right. split; [done|]. exists iw. split; [done|lia].
Qed.

Lemma loop_step_done st0 v seen st w iw :
  loop_inv st0 v seen st -> indices st !! w = Some iw -> w ∉ onstack st ->
  loop_inv st0 v (seen ++ [w]) st.
Proof.
  intros H Hiw Hon.
  destruct (li_stack _ _ _ _ H) as (seg & lv & Hst & Hlv & Hdis & Hedges).
  split; try apply H.
  exists seg, lv. split_and!; try done.
  intros x z Hxz He.
  assert (Hold : (x ∈ seg \/ x = v /\ z ∈ seen) \/ (x = v /\ z = w)).
  { destruct Hxz as [?|[? Hz]]; [auto|].
    apply elem_of_app in Hz as [?|?%list_elem_of_singleton]; auto. }
  destruct Hold as [Hold|[-> ->]]; [by apply (Hedges x z)|].
  left. assert (Hd : w ∈ dom (indices st)) by (apply elem_of_dom; eauto).
  apply (inv_visited _ (li_inv _ _ _ _ H)) in Hd as [Hs|?]; [|done].
  by apply (inv_onstack _ (li_inv _ _ _ _ H)) in Hs.
Qed.

Lemma done_mono st st' x :
  (exists new, components st' = components st ++ new) -> x ∈ done st -> x ∈ done st'.
Proof.
  intros [new E] Hx. unfold done in *. rewrite E, concat_app.
  apply elem_of_app. by left.
Qed.

Lemma loop_step_call st0 v seen st w st1 :
  tarjan_inv st0 -> v ∉ dom (indices st0) ->
  loop_inv st0 v seen st -> indices st !! w = None ->
  strongconnect_post st w st1 ->
  exists lv lw, lowlink st1 !! v = Some lv /\ lowlink st1 !! w = Some lw /\
    loop_inv st0 v (seen ++ [w]) (set_lowlink v (lv `min` lw) st1).
Proof.
  intros Hinv0 Hv H Hw P.
  destruct (li_stack _ _ _ _ H) as (seg & lv & Hst & Hlv & Hdis & Hedges).
  pose proof (loop_inv_index_v _ _ _ _ H) as Hiv.
  pose proof (li_inv _ _ _ _ H) as Hinv.
  pose proof (post_inv _ _ _ P) as Hinv1.
  pose proof (low_le_index _ _ Hinv0 Hdis) as Hle.
  assert (Hlt : index st0 < index st) by by apply (inv_index _ Hinv) in Hiv.
  assert (Hvd : v ∈ dom (indices st)) by (apply elem_of_dom; eauto).
  assert (Hlv1 : lowlink st1 !! v = Some lv) by by rewrite (post_lowlink _ _ _ P).
  assert (Hwv : w <> v) by (intros ->; congruence).
  assert (Hwin : w ∈ stack st1 \/ w ∈ done st1).
  { apply (inv_visited _ Hinv1), elem_of_dom. rewrite (post_v _ _ _ P). eauto. }
  assert (Hws : w ∉ stack st).
  { intros Hs. assert (w ∈ dom (indices st)) by (apply (inv_visited _ Hinv); auto).
    by apply not_elem_of_dom in Hw. }
  (* what the loop needs, whatever [lowlink[w]] is *)
  assert (Hgen : forall lw seg1,
    lowlink st1 !! w = Some lw -> stack st1 = seg1 ++ stack st ->
    (lv `min` lw = index st0 \/
       exists y, y ∈ stack st0 /\ indices st0 !! y = Some (lv `min` lw)) ->
    (forall x z, x ∈ seg1 -> edge x z ->
       z ∈ done st1 \/ (z ∈ stack st1 /\ exists j, indices st1 !! z = Some j /\ lw <= j)) ->
    loop_inv st0 v (seen ++ [w]) (set_lowlink v (lv `min` lw) st1)).
  { intros lw seg1 Hlw Hst1 Hdis1 Hedges1. split.
    - by apply set_lowlink_inv.
    - simpl. etrans; [apply H | apply P].
    - simpl. intros x Hx. rewrite lookup_insert_ne by (by intros ->).
      rewrite (post_lowlink _ _ _ P); [by apply H|].
      eapply subseteq_dom; [|exact Hx]. by eapply loop_inv_indices.
    - simpl. destruct (li_components _ _ _ _ H) as [n1 E1].
      destruct (post_components _ _ _ P) as [n2 E2].
      exists (n1 ++ n2). by rewrite E2, E1, app_assoc.
    - exists (seg1 ++ seg), (lv `min` lw). simpl. split_and!.
      + by rewrite Hst1, Hst, app_assoc.
      + by rewrite lookup_insert_eq.
      + done.
      + intros x z Hxz He.
        assert (Hcases : x ∈ seg1 \/ (x ∈ seg \/ x = v /\ z ∈ seen) \/ (x = v /\ z = w)).
        { destruct Hxz as [[?|?]%elem_of_app|[? Hz]]; [auto..|].
          apply elem_of_app in Hz as [?|?%list_elem_of_singleton]; auto. }
        destruct Hcases as [Hx|[Hold|[-> ->]]].
        * destruct (Hedges1 x z Hx He) as [?|(? & j & ? & ?)]; [by left|].
          right. split; [done|]. exists j. split; [done|lia].
        * destruct (Hedges x z Hold He) as [?|(Hz & j & Hj & ?)].
          { left. eapply done_mono; [apply P | done]. }
          right. split; [rewrite Hst1; apply elem_of_app; by right|].
          exists j. split; [|lia].
          eapply lookup_weaken; [exact Hj | apply P].
        * destruct Hwin as [Hs|?]; [|by left].
          right. split; [done|]. exists (index st). split; [apply P | lia]. }
  destruct (post_stack _ _ _ P) as [[Hst1 Hlw]|(segw & y & i & Hst1 & Hy & Hi & Hlw & Hedges1)].
  - exists lv, (index st). split_and!; [done..|].
    apply (Hgen (index st) []); [done | done | | by intros ? ? ?%elem_of_nil].
    by replace (lv `min` index st) with lv by lia.
  - exists lv, i. split_and!; [done..|].
    apply (Hgen i segw); [done | done | | done].
    eapply low_min_stack; eauto.
Qed.

Lemma take_snoc_cases {A} (l : list A) (c : A) k :
  take k (l ++ [c]) = take k l \/ take k (l ++ [c]) = l ++ [c].
Proof.
  destruct (decide (k <= length l)) as [Hle|Hgt].
  - left. by rewrite take_app_le.
  - right. apply take_ge. rewrite length_app. simpl. lia.
Qed.

Lemma close_component_post st0 v st :
  tarjan_inv st0 -> v ∉ dom (indices st0) ->
  loop_inv st0 v (graph_get graph v) st ->
  exists st', close_component v st = Ok st' /\ strongconnect_post st0 v st'.
Proof.
  intros Hinv0 Hv H.
  destruct (li_stack _ _ _ _ H) as (seg & lv & Hst & Hlv & Hdis & Hedges).
  pose proof (loop_inv_index_v _ _ _ _ H) as Hiv.
  pose proof (loop_inv_indices _ _ _ _ Hv H) as Hsub.
  pose proof (li_inv _ _ _ _ H) as Hinv.
  assert (Hedges' : forall x z, x ∈ seg ++ [v] -> edge x z ->
    z ∈ done st \/ (z ∈ stack st /\ exists j, indices st !! z = Some j /\ lv <= j)).
  { intros x z Hx He. apply (Hedges x z); [|done].
    apply elem_of_app in Hx as [?|Hx%list_elem_of_singleton]; [auto|].
    subst x. auto. }
  unfold close_component.
  rewrite (map_item_ok _ _ _ Hlv), (map_item_ok _ _ _ Hiv). simpl.
  destruct (Nat.eqb_spec lv (index st0)) as [->|Hne].
  - (* [v] is a root: the component is popped *)
    pose proof (inv_nodup _ Hinv) as Hnd. rewrite Hst in Hnd.
    apply NoDup_app in Hnd as (Hnds & Hdisj & Hndd).
    apply NoDup_app in Hnds as (Hndseg & Hsegv & Hndv).
    apply NoDup_cons in Hndv as [Hv0 Hnd0].
    rewrite Hst, pop_component_ok; [|by intros ?%Hsegv; set_solver | done |]; cycle 1.
    { intros x Hx. apply (inv_onstack _ Hinv). rewrite Hst.
      apply elem_of_app in Hx as [?|Hx%list_elem_of_singleton];
        apply elem_of_app; [by left | right; subst x; by left]. }
    simpl. eexists. split; [done|].
    assert (Hin_st : forall x, x ∈ stack st <-> x ∈ seg ++ [v] \/ x ∈ stack st0).
    { intros x. rewrite Hst, !elem_of_app, elem_of_cons, list_elem_of_singleton. tauto. }
    split; simpl.
    + split; simpl.
      * unfold done. simpl. rewrite concat_app. simpl. rewrite app_nil_r.
        apply NoDup_app. split_and!; [done | |].
        -- intros x Hx [Hd|Hs]%elem_of_app.
           ++ apply (Hdisj x); [|done]. apply elem_of_app. right. by right.
           ++ apply elem_of_app in Hs as [Hs|Hs%list_elem_of_singleton].
              ** by apply (Hsegv x); [|right].
              ** by subst x.
        -- apply NoDup_app. split_and!; [done | |].
           ++ intros x Hd Hs. apply (Hdisj x); [|done].
              apply elem_of_app in Hs as [?|Hs%list_elem_of_singleton];
                apply elem_of_app; [by left | right; subst x; by left].
           ++ apply NoDup_app. split_and!; [done | | apply NoDup_singleton].
              intros x Hx Hxv%list_elem_of_singleton. subst x.
              apply (Hsegv v); [done | by left].
      * intros x. rewrite (inv_visited _ Hinv), Hin_st. unfold done. simpl.
        rewrite concat_app. simpl. rewrite app_nil_r, !elem_of_app. tauto.
      * intros x. rewrite elem_of_difference, elem_of_list_to_set.
        rewrite (inv_onstack _ Hinv), Hin_st. split; [tauto|].
        intros Hx. split; [tauto|].
        intros Hs. apply elem_of_app in Hs as [Hs|Hs%list_elem_of_singleton].
        -- by apply (Hsegv x); [|right].
        -- by subst x.
      * apply Hinv.
      * intros pre x post i j E y Hy Hx Hj.
        eapply (inv_sorted _ Hinv (seg ++ v :: pre) x post); eauto.
        rewrite Hst, E. by rewrite <- app_assoc.
      * intros x Hx. apply (inv_lowlink _ Hinv), Hin_st. tauto.
      * intros k. destruct (take_snoc_cases (components st) (seg ++ [v]) k) as [-> | ->].
        { apply Hinv. }
        rewrite concat_app. simpl. rewrite app_nil_r.
        intros x z Hx He. apply elem_of_app.
        apply elem_of_app in Hx as [Hx|Hx].
        -- left. pose proof (inv_closed _ Hinv (length (components st))) as Hc.
           rewrite firstn_all in Hc. by apply (Hc x z).
        -- destruct (Hedges' x z Hx He) as [?|(Hz & j & Hj & Hle)]; [by left|].
           right. apply Hin_st in Hz as [?|Hz]; [done|]. exfalso.
           destruct (stack_index_lt _ _ Hinv0 Hz) as (i & Hi & Hlt).
           pose proof (lookup_weaken _ _ _ _ Hi Hsub). simplify_eq. lia.
      * apply Forall_app. split; [apply Hinv|].
        constructor; [|constructor]. by destruct seg.
      * apply Hinv.
    + done.
    + done.
    + apply H.
    + destruct (li_components _ _ _ _ H) as [n E]. exists (n ++ [seg ++ [v]]).
      by rewrite E, app_assoc.
    + by left.
  - (* [v] stays on the stack *)
    exists st. split; [done|].
    destruct Hdis as [?|(y & Hy & Hi)]; [done|].
    split; try apply H; try done.
    right. exists (seg ++ [v]), y, lv. split_and!; try done.
    by rewrite Hst, <- app_assoc.
Qed.

Lemma unvisited_mono st st' :
  indices st ⊆ indices st' -> unvisited st' <= unvisited st.
Proof.
  intros Hsub. unfold unvisited. apply subseteq_size.
  apply subseteq_dom in Hsub. set_solver.
Qed.

Lemma visit_successors_spec rec d st0 v :
  tarjan_inv st0 -> v ∉ dom (indices st0) ->
  (forall w st, tarjan_inv st -> w ∉ dom (indices st) -> w ∈ nodes -> unvisited st <= d ->
     exists st', rec w st = Ok st' /\ strongconnect_post st w st') ->
  forall ws seen st,
    (forall w, w ∈ ws -> w ∈ nodes) -> loop_inv st0 v seen st -> unvisited st <= d ->
    exists st', visit_successors rec v ws st = Ok st' /\ loop_inv st0 v (seen ++ ws) st'.
Proof.
  intros Hinv0 Hv Hrec ws.
  induction ws as [|w ws IH]; intros seen st Hn H Hd; simpl.
  - exists st. by rewrite app_nil_r.
  - replace (seen ++ w :: ws) with ((seen ++ [w]) ++ ws) by by rewrite <- app_assoc.
    assert (Hn' : forall w', w' ∈ ws -> w' ∈ nodes) by (intros; apply Hn; by right).
    destruct (indices st !! w) as [iw|] eqn:Hw.
    + case_bool_decide as Hon.
      * destruct (loop_step_onstack _ _ _ _ _ _ Hinv0 Hv H Hw Hon) as (lv & Hlv & H').
        rewrite (map_item_ok _ _ _ Hlv). simpl. by apply IH.
      * apply IH; [done | | done]. by eapply loop_step_done.
    + destruct (Hrec w st) as (st1 & -> & P); [apply H | by apply not_elem_of_dom | | done |].
      { apply Hn. by left. }
      destruct (loop_step_call _ _ _ _ _ _ Hinv0 Hv H Hw P) as (lv & lw & Hlv & Hlw & H').
      simpl. rewrite (map_item_ok _ _ _ Hlv), (map_item_ok _ _ _ Hlw). simpl.
      apply IH; [done | done |].
      etrans; [|exact Hd]. apply (unvisited_mono st st1), P.
Qed.

Lemma strongconnect_spec d :
  forall v st, tarjan_inv st -> v ∉ dom (indices st) -> v ∈ nodes -> unvisited st <= d ->
    exists st', strongconnect graph d v st = Ok st' /\ strongconnect_post st v st'.
Proof.
  induction d as [|d IH]; intros v st Hinv Hv Hn Hd.
  - exfalso. assert (Hz : unvisited st = 0) by lia.
    unfold unvisited in Hz. apply size_empty_inv in Hz.
    apply (not_elem_of_empty (C := gset string) v). rewrite <- Hz.
    by apply elem_of_difference.
  - simpl.
    destruct (visit_successors_spec (strongconnect graph d) d st v Hinv Hv IH
                (graph_get graph v) [] (enter v st)) as (st1 & -> & H).
    + intros w Hw. by apply (edge_nodes v).
    + by apply enter_loop_inv.
    + assert (unvisited (enter v st) < unvisited st); [|lia].
      unfold unvisited. apply subset_size. simpl. rewrite dom_insert_L.
      split; [set_solver|]. intros Hsub.
      assert (Hin : v ∈ nodes ∖ dom (indices st)) by by apply elem_of_difference.
      apply Hsub, elem_of_difference in Hin as [_ Hin].
      apply Hin, elem_of_union. left. by apply elem_of_singleton.
    + simpl. by apply close_component_post.
Qed.

(** A result obtained with some call depth is obtained with any larger one. *)
Lemma visit_successors_mono rec rec' v ws :
  (forall w st st', rec w st = Ok st' -> rec' w st = Ok st') ->
  forall st st', visit_successors rec v ws st = Ok st' ->
    visit_successors rec' v ws st = Ok st'.
Proof.
  intros Hrec. induction ws as [|w ws IH]; intros st st'; simpl; [done|].
  destruct (indices st !! w).
  - case_bool_decide; [|apply IH].
    destruct (map_item (lowlink st) v); simpl; [apply IH | done].
  - intros (st1 & H1 & H2)%result_bind_ok. rewrite (Hrec _ _ _ H1). simpl.
    destruct (map_item (lowlink st1) v); simpl in *; [|done].
    destruct (map_item (lowlink st1) w); simpl in *; [by apply IH | done].
Qed.

Lemma strongconnect_mono d d' v st st' :
  d <= d' -> strongconnect graph d v st = Ok st' -> strongconnect graph d' v st = Ok st'.
Proof.
  revert d' v st st'. induction d as [|d IH]; intros d' v st st' Hle; simpl; [done|].
  destruct d' as [|d']; [lia|]. simpl.
  intros (st1 & H1 & H2)%result_bind_ok.
  erewrite visit_successors_mono; [exact H2 | | exact H1].
  intros w s s'. apply IH. lia.
Qed.

Lemma strongconnect_ok_post d v st st' :
  tarjan_inv st -> v ∉ dom (indices st) -> v ∈ nodes ->
  strongconnect graph d v st = Ok st' -> strongconnect_post st v st'.
Proof.
  intros Hinv Hv Hn H.
  destruct (strongconnect_spec (d `max` unvisited st) v st Hinv Hv Hn) as (st2 & H2 & P); [lia|].
  apply (strongconnect_mono d (d `max` unvisited st)) in H; [|lia].
  congruence.
Qed.

Lemma tarjan_init_inv : tarjan_inv tarjan_init.
Proof.
  split; simpl.
  - constructor.
  - intros x. rewrite dom_empty_L. split; [by intros ?%elem_of_empty|].
    by intros [?%elem_of_nil|?%elem_of_nil].
  - intros x. split; [by intros ?%elem_of_empty | by intros ?%elem_of_nil].
  - by intros x i.
  - by intros [] ? ? ? ? ?.
  - by intros x ?%elem_of_nil.
  - intros k. rewrite take_nil. simpl. by intros x y ?%elem_of_nil.
  - constructor.
  - rewrite dom_empty_L. apply empty_subseteq.
Qed.

Lemma strongconnect_root v st st' :
  stack st = [] -> strongconnect_post st v st' -> stack st' = [].
Proof.
  intros Hs P. destruct (post_stack _ _ _ P) as [[-> _]|(seg & y & i & _ & Hy & _)]; [done|].
  rewrite Hs in Hy. by apply elem_of_nil in Hy.
Qed.

Lemma visit_roots_total d vs :
  forall st, tarjan_inv st -> stack st = [] -> (forall v, v ∈ vs -> v ∈ nodes) ->
    unvisited st <= d -> exists st', visit_roots graph d vs st = Ok st'.
Proof.
  induction vs as [|v vs IH]; intros st Hinv Hs Hn Hd; simpl; [eauto|].
  assert (Hn' : forall w, w ∈ vs -> w ∈ nodes) by (intros; apply Hn; by right).
  destruct (indices st !! v) eqn:Hv; [by apply IH|].
  destruct (strongconnect_spec d v st) as (st1 & -> & P);
    [done | by apply not_elem_of_dom | apply Hn; by left | done |].
  simpl. apply IH; [apply P | by eapply strongconnect_root | done |].
  etrans; [|exact Hd]. apply unvisited_mono, P.
Qed.

Lemma visit_roots_post d vs :
  forall st st', tarjan_inv st -> stack st = [] -> (forall v, v ∈ vs -> v ∈ nodes) ->
    visit_roots graph d vs st = Ok st' -> roots_post st vs st'.
Proof.
  induction vs as [|v vs IH]; intros st st' Hinv Hs Hn; simpl.
  - intros [= <-]. split; [done..|]. by intros v ?%elem_of_nil.
  - assert (Hn' : forall w, w ∈ vs -> w ∈ nodes) by (intros; apply Hn; by right).
    destruct (indices st !! v) eqn:Hv.
    + intros H. destruct (IH _ _ Hinv Hs Hn' H) as [R1 R2 R3 R4].
      split; [done..|]. intros w [->|Hw]%elem_of_cons; [|by apply R4].
      apply elem_of_dom. exists n. by eapply lookup_weaken.
    + intros (st1 & H1 & H2)%result_bind_ok.
      assert (P : strongconnect_post st v st1).
      { eapply strongconnect_ok_post; eauto; [by apply not_elem_of_dom | apply Hn; by left]. }
      destruct (IH _ _ (post_inv _ _ _ P) (strongconnect_root _ _ _ Hs P) Hn' H2)
        as [R1 R2 R3 R4].
      split; [done | done | etrans; [apply P | done] |].
      intros w [->|Hw]%elem_of_cons; [|by apply R4].
      apply elem_of_dom. exists (index st). eapply lookup_weaken; [apply P | done].
Qed.

Lemma keys_nodes v : v ∈ dict_keys graph -> v ∈ nodes.
Proof. intros H. apply elem_of_list_to_set, elem_of_app. by left. Qed.

Lemma nodes_size_keys :
  (forall x y, edge x y -> y ∈ dict_keys graph) -> size nodes <= length (dict_keys graph).
Proof.
  intros Hk. etrans; [|apply size_list_to_set_le].
  apply subseteq_size. intros x Hx.
  apply elem_of_list_to_set, elem_of_app in Hx as [Hx|Hx]; apply elem_of_list_to_set; [done|].
  apply elem_of_concat in Hx as (ws & Hws & Hx).
  apply elem_of_map in Hws as (k & -> & _). by apply (Hk k).
Qed.

Theorem strongly_connected_components_total d :
  size nodes <= d -> exists sccs, strongly_connected_components d graph = Ok sccs.
Proof.
  intros Hd. unfold strongly_connected_components.
  destruct (visit_roots_total d (dict_keys graph) tarjan_init) as [st ->].
  - apply tarjan_init_inv.
  - done.
  - apply keys_nodes.
  - etrans; [|exact Hd]. unfold unvisited. apply subseteq_size. set_solver.
  - simpl. eauto.
Qed.

Theorem strongly_connected_components_partition d sccs :
  strongly_connected_components d graph = Ok sccs -> scc_partition sccs.
Proof.
  unfold strongly_connected_components.
  intros (st & H & [= <-])%result_bind_ok.
  apply visit_roots_post in H as [Hinv Hs Hsub Hvis];
    [| apply tarjan_init_inv | done | apply keys_nodes].
  pose proof (inv_nodup _ Hinv) as Hnd. rewrite Hs in Hnd. simpl in Hnd.
  assert (Hdone : forall x, x ∈ dom (indices st) <-> x ∈ done st).
  { intros x. rewrite (inv_visited _ Hinv), Hs. split; [|auto].
    by intros [?%elem_of_nil|?]. }
  split.
  - done.
  - intros x. split.
    + intros Hx. apply (inv_nodes _ Hinv), Hdone, Hx.
    + intros Hx. apply elem_of_list_to_set, elem_of_app in Hx as [Hx|Hx].
      * by apply Hdone, Hvis.
      * apply elem_of_concat in Hx as (ws & Hws & Hx).
        apply elem_of_map in Hws as (k & -> & Hk).
        pose proof (inv_closed _ Hinv (length (components st))) as Hc.
        rewrite firstn_all in Hc. apply (Hc k x); [|done].
        by apply Hdone, Hvis.
  - apply Hinv.
  - apply Hinv.
Qed.

Lemma closed_rtc l x y : closed l -> rtc edge x y -> x ∈ l -> y ∈ l.
Proof. intros Hc. induction 1 as [|x y z Hxy _ IH]; [done|]. intros Hx. eauto. Qed.

End Tarjan.

Lemma concat_lookup_elem {A} (ls : list (list A)) (x : A) :
  x ∈ concat ls <-> exists i l, ls !! i = Some l /\ x ∈ l.
Proof.
  rewrite elem_of_concat. split.
  - intros (l & Hl & Hx). apply list_elem_of_lookup in Hl as [i Hi]. eauto.
  - intros (i & l & Hi & Hx). exists l. split; [|done].
    apply list_elem_of_lookup. eauto.
Qed.

Lemma NoDup_concat_unique {A} (ls : list (list A)) i j l k (x : A) :
  NoDup (concat ls) -> ls !! i = Some l -> ls !! j = Some k -> x ∈ l -> x ∈ k -> i = j.
Proof.
  revert i j. induction ls as [|c ls IH]; intros i j Hnd Hi Hj Hl Hk; [done|].
  simpl in Hnd. apply NoDup_app in Hnd as (_ & Hdisj & Hnd).
  destruct i as [|i], j as [|j]; simplify_eq/=; [done | | |].
  - exfalso. apply (Hdisj x Hl). apply concat_lookup_elem. eauto.
  - exfalso. apply (Hdisj x Hk). apply concat_lookup_elem. eauto.
  - f_equal. by apply IH.
Qed.

(** Names that depend on each other lie in one component. *)
Lemma scc_partition_mutual graph sccs A B :
  scc_partition graph sccs -> A ∈ concat sccs ->
  rtc (edge graph) A B -> rtc (edge graph) B A ->
  exists c, c ∈ sccs /\ A ∈ c /\ B ∈ c.
Proof.
  intros [Hnd _ Hcl _] HA HAB HBA.
  apply concat_lookup_elem in HA as (i & c & Hi & HAc).
  assert (HA1 : A ∈ concat (take (S i) sccs)).
  { apply concat_lookup_elem. exists i, c. split; [|done].
    rewrite lookup_take_lt; [done | lia]. }
  pose proof (closed_rtc _ _ _ _ (Hcl (S i)) HAB HA1) as HB1.
  apply concat_lookup_elem in HB1 as (j & c' & Hj & HBc).
  apply lookup_take_Some in Hj as [Hj Hji].
  assert (HB2 : B ∈ concat (take (S j) sccs)).
  { apply concat_lookup_elem. exists j, c'. split; [|done].
    rewrite lookup_take_lt; [done | lia]. }
  pose proof (closed_rtc _ _ _ _ (Hcl (S j)) HBA HB2) as HA2.
  apply concat_lookup_elem in HA2 as (i' & c'' & Hi' & HAc'').
  apply lookup_take_Some in Hi' as [Hi' Hij].
  assert (i = i') by (eapply NoDup_concat_unique; eauto). subst i'.
  assert (j = i) by lia. subst j. simplify_eq.
  exists c. split; [|done]. apply list_elem_of_lookup. eauto.
Qed.

(** ** The call depth of [strongconnect] *)

Lemma chain_node_inj j k : chain_node j = chain_node k -> j = k.
Proof. unfold chain_node. simpl. intros [= H]. by apply pretty_nat_inj in H. Qed.

#[local] Arguments chain_node : simpl never.

Lemma dict_get_cons {V} (d : dict V) k k' (v' : V) :
  dict_get ((k', v') :: d) k = if String.eqb k k' then Some v' else dict_get d k.
Proof. done. Qed.

Lemma dict_get_chain_from (f : nat -> list string) a m k :
  a <= k < a + m ->
  dict_get (map (fun k => (chain_node k, f k)) (seq a m)) (chain_node k) = Some (f k).
Proof.
  revert a. induction m as [|m IH]; intros a Hk; [lia|].
  change (seq a (S m)) with (a :: seq (S a) m). rewrite map_cons, dict_get_cons.
  destruct (String.eqb_spec (chain_node k) (chain_node a)) as [E|Hne].
  - apply chain_node_inj in E. by subst.
  - apply IH. assert (k <> a) by (by intros ->). lia.
Qed.

Lemma graph_get_chain n k :
  S k < n -> graph_get (chain n) (chain_node k) = [chain_node (S k)].
Proof.
  intros Hk. unfold graph_get, chain.
  rewrite (dict_get_chain_from (fun k => if S k <? n then [chain_node (S k)] else []))
    by lia.
  cbn [default]. by rewrite (proj2 (Nat.ltb_lt _ _) Hk).
Qed.

(** Along the chain every call nests in the previous one, and the call that
    would exceed the depth raises. *)
Lemma chain_overflow_from d :
  forall k st n, k + d < n ->
    (forall j, k <= j -> indices st !! chain_node j = None) ->
    strongconnect (chain n) d (chain_node k) st = Err RecursionError.
Proof.
  induction d as [|d IH]; intros k st n Hk Hfresh; [done|].
  simpl. rewrite graph_get_chain by lia. simpl.
  rewrite lookup_insert_ne by (intros ?%chain_node_inj; lia).
  rewrite Hfresh by lia.
  rewrite IH; [done | lia |].
  intros j Hj. simpl. rewrite lookup_insert_ne by (intros ?%chain_node_inj; lia).
  apply Hfresh. lia.
Qed.

Lemma chain_overflow d :
  strongly_connected_components d (chain (S d)) = Err RecursionError.
Proof.
  unfold strongly_connected_components.
  assert (Hkeys : exists rest, dict_keys (chain (S d)) = chain_node 0 :: rest)
    by (eexists; reflexivity).
  destruct Hkeys as [rest ->]. cbn [visit_roots tarjan_init indices].
  rewrite lookup_empty.
  rewrite (chain_overflow_from d 0 tarjan_init (S d)); [done | lia | done].
Qed.

(** C6, as the code has it: the computation is recursive, and it completes
    when the graph has no more names than the interpreter allows nested
    calls of [strongconnect]; the result is then a partition of the names
    whose initial parts are closed under the dependencies. *)
Theorem scc_completes_within_depth (depth : nat) (graph : dict (list string)) :
  size (nodes graph) <= depth ->
  exists sccs, strongly_connected_components depth graph = Ok sccs /\
    scc_partition graph sccs.
Proof.
  intros Hd. destruct (strongly_connected_components_total graph depth Hd) as [sccs H].
  exists sccs. split; [done|]. by eapply strongly_connected_components_partition.
Qed.

Lemma scc_completes_within_depth_witness :
  exists sccs, strongly_connected_components 3 (chain 3) = Ok sccs /\
    scc_partition (chain 3) sccs.
Proof. apply scc_completes_within_depth. vm_compute. lia. Defined.

(** C6, as stated, fails: a chain of 10001 functions, each calling the
    next, exhausts a call depth of 10000. *)
Lemma scc_recursion_overflow :
  strongly_connected_components 10000 (chain (S 10000)) = Err RecursionError.
Proof. apply chain_overflow. Qed.

(** ** Sorting *)

Section Sorting.

Context {A K : Type} (le : K -> K -> bool) (key : A -> K).

Lemma insert_by_perm x l : insert_by le key x l ≡ₚ x :: l.
Proof.
  induction l as [|y l IH]; simpl; [done|].
  destruct (le (key x) (key y)); [done|].
  rewrite IH. apply Permutation_swap.
Qed.

Lemma sort_by_perm l : sort_by le key l ≡ₚ l.
Proof.
  unfold sort_by. induction l as [|x l IH]; simpl; [done|].
  by rewrite insert_by_perm, IH.
Qed.

Lemma elem_of_sort_by l x : x ∈ sort_by le key l <-> x ∈ l.
Proof. by rewrite sort_by_perm. Qed.

Lemma length_sort_by l : length (sort_by le key l) = length l.
Proof. by rewrite sort_by_perm. Qed.

Local Notation key_le := (key_le le key).

Hypothesis le_total : forall a b, le a b = true \/ le b a = true.

Lemma insert_by_sorted x l : Sorted key_le l -> Sorted key_le (insert_by le key x l).
Proof.
  induction 1 as [|y l Hs IH Hhd]; simpl; [by repeat constructor|].
  destruct (le (key x) (key y)) eqn:E.
  - constructor; [by constructor | by constructor].
  - constructor; [done|].
    assert (Hyx : key_le y x) by (unfold key_le; destruct (le_total (key x) (key y)); congruence).
    destruct l as [|z l]; simpl; [by constructor|].
    destruct (le (key x) (key z)); constructor; [done|].
    by inversion Hhd.
Qed.

Lemma sort_by_sorted l : Sorted key_le (sort_by le key l).
Proof.
  unfold sort_by. induction l as [|x l IH]; simpl; [constructor|].
  by apply insert_by_sorted.
Qed.

End Sorting.

Lemma concat_Permutation {A} (l k : list (list A)) : l ≡ₚ k -> concat l ≡ₚ concat k.
Proof.
  induction 1 as [|x l k _ IH|x y l|l k m _ IH1 _ IH2]; simpl.
  - done.
  - by rewrite IH.
  - rewrite !app_assoc. f_equiv. apply Permutation_app_comm.
  - by rewrite IH1.
Qed.

Lemma map_Permutation {A B} (f : A -> B) (l k : list A) : l ≡ₚ k -> map f l ≡ₚ map f k.
Proof. apply Permutation_map. Qed.

Lemma omap_perm {A B} (f : A -> option B) (l k : list A) : l ≡ₚ k -> omap f l ≡ₚ omap f k.
Proof.
  induction 1 as [|x l k _ IH|x y l|l k m _ IH1 _ IH2]; simpl.
  - done.
  - destruct (f x); by rewrite IH.
  - destruct (f x), (f y); try done. apply Permutation_swap.
  - by rewrite IH1.
Qed.

Lemma omap_app_concat {A B} (f : A -> option B) (ls : list (list A)) :
  omap f (concat ls) = concat (map (omap f) ls).
Proof.
  induction ls as [|l ls IH]; simpl; [done|]. by rewrite omap_app, IH.
Qed.

(** ** Dictionaries *)

Section Dict.

Context {V : Type}.

Lemma dict_get_set (d : dict V) k v k' :
  dict_get (dict_set k v d) k' = if String.eqb k' k then Some v else dict_get d k'.
Proof.
  induction d as [|[k0 v0] d IH]; simpl; [done|].
  destruct (String.eqb_spec k k0) as [->|Hne]; simpl.
  - by destruct (String.eqb_spec k' k0).
  - rewrite IH. destruct (String.eqb_spec k' k0) as [->|?]; [|done].
    by destruct (String.eqb_spec k0 k) as [->|?].
Qed.

Lemma dict_keys_set (d : dict V) k v :
  dict_keys (dict_set k v d) =
  if decide (k ∈ dict_keys d) then dict_keys d else dict_keys d ++ [k].
Proof.
  unfold dict_keys. induction d as [|[k0 v0] d IH]; simpl; [done|].
  destruct (String.eqb_spec k k0) as [->|Hne]; simpl.
  - rewrite decide_True; [done | by left].
  - rewrite IH. destruct (decide (k ∈ map fst d)) as [Hin|Hnin].
    + rewrite decide_True; [done | by right].
    + rewrite decide_False; [done|]. by intros [?|?]%elem_of_cons.
Qed.

Lemma dict_set_NoDup (d : dict V) k v :
  NoDup (dict_keys d) -> NoDup (dict_keys (dict_set k v d)).
Proof.
  intros H. rewrite dict_keys_set. case_decide; [done|].
  apply NoDup_app. split_and!; [done | | apply NoDup_singleton].
  intros x Hx Hk%list_elem_of_singleton. by subst.
Qed.

Lemma dict_get_Some_elem (d : dict V) k v :
  NoDup (dict_keys d) -> (k, v) ∈ d -> dict_get d k = Some v.
Proof.
  unfold dict_keys. induction d as [|[k0 v0] d IH]; simpl.
  - by intros _ ?%elem_of_nil.
  - intros [Hk0 Hnd]%NoDup_cons [[= -> ->]|Hin]%elem_of_cons.
    + by rewrite String.eqb_refl.
    + destruct (String.eqb_spec k k0) as [->|?]; [|by apply IH].
      exfalso. apply Hk0, elem_of_map. by exists (k0, v).
Qed.

(** The values, in the order of the keys. *)
Lemma dict_values_omap (d : dict V) :
  NoDup (dict_keys d) -> map snd d = omap (dict_get d) (dict_keys d).
Proof.
  intros Hnd.
  assert (H : forall l, (forall p, p ∈ l -> p ∈ d) ->
    map snd l = omap (dict_get d) (map fst l)).
  { induction l as [|[k v] l IH]; intros Hl; simpl; [done|].
    rewrite (dict_get_Some_elem d k v); [|done | apply Hl; by left].
    f_equal. apply IH. intros p Hp. apply Hl. by right. }
  by apply H.
Qed.

End Dict.

Section DictOf.

Context {A V : Type} (key : A -> string) (val : A -> V).

Local Notation dict_of_from := (dict_of_from key val).

Lemma dict_of_from_keys_NoDup xs d :
  NoDup (dict_keys d) -> NoDup (dict_keys (dict_of_from xs d)).
Proof.
  revert d. induction xs as [|x xs IH]; intros d Hd; simpl; [done|].
  by apply IH, dict_set_NoDup.
Qed.

Lemma dict_of_from_keys xs d k :
  k ∈ dict_keys (dict_of_from xs d) <-> k ∈ dict_keys d \/ exists x, x ∈ xs /\ key x = k.
Proof.
  revert d. induction xs as [|x xs IH]; intros d; simpl.
  - split; [auto|]. intros [?|(x & ?%elem_of_nil & _)]; done.
  - rewrite IH, dict_keys_set. split.
    + intros [Hk|(y & Hy & <-)].
      * case_decide; [auto|]. apply elem_of_app in Hk as [?|Hk%list_elem_of_singleton]; [auto|].
        right. exists x. split; [by left | done].
      * right. exists y. split; [by right | done].
    + intros [Hk|(y & [->|Hy]%elem_of_cons & <-)].
      * left. case_decide; [done|]. apply elem_of_app. by left.
      * left. case_decide; [done|]. apply elem_of_app. right. by left.
      * right. eauto.
Qed.

Lemma dict_of_from_values xs d k v :
  dict_get (dict_of_from xs d) k = Some v ->
  dict_get d k = Some v \/ exists x, x ∈ xs /\ key x = k /\ v = val x.
Proof.
  revert d. induction xs as [|x xs IH]; intros d; simpl; [auto|].
  intros [H|(y & Hy & <- & ->)]%IH.
  - rewrite dict_get_set in H. destruct (String.eqb_spec k (key x)) as [->|?]; [|auto].
    injection H as <-. right. exists x. split; [by left | done].
  - right. exists y. split; [by right | done].
Qed.

End DictOf.

Lemma dict_of_NoDup {A V} (key : A -> string) (val : A -> V) xs :
  NoDup (dict_keys (dict_of key val xs)).
Proof. apply (dict_of_from_keys_NoDup key val xs []). constructor. Qed.

Lemma dict_of_keys {A V} (key : A -> string) (val : A -> V) xs k :
  k ∈ dict_keys (dict_of key val xs) <-> exists x, x ∈ xs /\ key x = k.
Proof.
  unfold dict_of. rewrite (dict_of_from_keys key val xs []).
  split; [|by right]. by intros [?%elem_of_nil|?].
Qed.

Lemma dict_of_values {A V} (key : A -> string) (val : A -> V) xs k v :
  dict_get (dict_of key val xs) k = Some v ->
  exists x, x ∈ xs /\ key x = k /\ v = val x.
Proof. by intros [?|?]%(dict_of_from_values key val xs []). Qed.

(** A dictionary of values [val x] is the dictionary of the [x] themselves
    with [val] applied to the values. *)
Lemma dict_of_map {A V} (key : A -> string) (val : A -> V) xs :
  dict_of key val xs = map (fun p => (p.1, val p.2)) (dict_of key (fun x => x) xs).
Proof.
  unfold dict_of.
  change (@nil (string * V)) with (map (fun p : string * A => (p.1, val p.2)) []).
  generalize (@nil (string * A)). induction xs as [|x xs IH]; intros d; simpl; [done|].
  rewrite <- IH. f_equal. clear.
  induction d as [|[k0 v0] d IH]; simpl; [done|].
  destruct (String.eqb (key x) k0); simpl; [done | by rewrite IH].
Qed.

Lemma dict_get_map {A V} (f : A -> V) (d : dict A) k :
  dict_get (map (fun p => (p.1, f p.2)) d) k = f <$> dict_get d k.
Proof.
  induction d as [|[k0 v0] d IH]; simpl; [done|].
  by destruct (String.eqb k k0).
Qed.

Lemma dict_keys_map {A V} (f : A -> V) (d : dict A) :
  dict_keys (map (fun p => (p.1, f p.2)) d) = dict_keys d.
Proof. unfold dict_keys. rewrite map_map. by apply map_ext. Qed.

(** ** [traverse] *)

Lemma traverse_ok {A B} (f : A -> result B) l ys :
  traverse f l = Ok ys -> Forall2 (fun x y => f x = Ok y) l ys.
Proof.
  revert ys. induction l as [|x l IH]; intros ys; simpl.
  - intros [= <-]. constructor.
  - intros (y & Hy & (ys' & Hys & [= <-])%result_bind_ok)%result_bind_ok.
    constructor; [done | by apply IH].
Qed.

Lemma traverse_total {A B} (f : A -> result B) l :
  (forall x, x ∈ l -> exists y, f x = Ok y) -> exists ys, traverse f l = Ok ys.
Proof.
  induction l as [|x l IH]; intros H; simpl; [eauto|].
  destruct (H x) as [y ->]; [by left|]. simpl.
  destruct IH as [ys ->]; [intros; apply H; by right|]. simpl. eauto.
Qed.

Lemma traverse_dict_item {V} (d : dict V) l ys :
  traverse (dict_item d) l = Ok ys ->
  ys = omap (dict_get d) l /\ Forall (fun k => k ∈ dict_keys d) l.
Proof.
  intros H%traverse_ok. induction H as [|k y l ys Hk _ [IH1 IH2]]; simpl; [done|].
  unfold dict_item in Hk. destruct (dict_get d k) as [v|] eqn:E; [|done].
  injection Hk as ->. split; [by rewrite IH1|].
  constructor; [|done]. apply dict_get_keys. eauto.
Qed.

(** ** Component construction *)

Lemma graph_of_item_by_name its :
  graph_of its = map (fun p => (p.1, deps p.2)) (item_by_name_of its).
Proof. apply dict_of_map. Qed.

Lemma item_by_name_name its k it :
  dict_get (item_by_name_of its) k = Some it -> name it = k /\ it ∈ its.
Proof. intros (x & Hx & <- & ->)%dict_of_values. done. Qed.

Lemma graph_of_keys its : dict_keys (graph_of its) = dict_keys (item_by_name_of its).
Proof. rewrite graph_of_item_by_name. apply dict_keys_map. Qed.

Lemma keys_names its k : k ∈ dict_keys (item_by_name_of its) <-> k ∈ map name its.
Proof.
  unfold item_by_name_of. rewrite dict_of_keys, elem_of_map.
  split; intros (x & ? & ?); exists x; done.
Qed.

Lemma kept_names its : map name (kept its) = dict_keys (item_by_name_of its).
Proof.
  unfold kept, dict_keys. rewrite map_map.
  assert (H : forall p, p ∈ item_by_name_of its -> name p.2 = p.1).
  { intros [k it] Hp. simpl.
    apply (dict_get_Some_elem _ _ _ (dict_of_NoDup _ _ _)) in Hp.
    by apply item_by_name_name in Hp as [? _]. }
  induction (item_by_name_of its) as [|p d IH]; simpl; [done|].
  rewrite H by (by left). f_equal. apply IH. intros q Hq. apply H. by right.
Qed.

Lemma kept_subset its it : it ∈ kept its -> it ∈ its.
Proof.
  unfold kept. intros ([k x] & -> & Hp)%elem_of_map. simpl.
  apply (dict_get_Some_elem _ _ _ (dict_of_NoDup _ _ _)) in Hp.
  by apply item_by_name_name in Hp as [_ ?].
Qed.

Lemma omap_names d (l : list string) :
  (forall k it, dict_get d k = Some it -> name it = k) ->
  Forall (fun k => k ∈ dict_keys d) l ->
  map name (omap (dict_get d) l) = l.
Proof.
  intros Hd. induction 1 as [|k l Hk _ IH]; simpl; [done|].
  apply dict_get_keys in Hk as [it Hit]. rewrite Hit. simpl.
  f_equal; [by apply Hd | exact IH].
Qed.

Lemma by_lower_name_total a b : Str.leb a b = true \/ Str.leb b a = true.
Proof. apply String.leb_total. Qed.

Lemma component_of_spec its s c :
  component_of (item_by_name_of its) s = Ok c ->
  items c ≡ₚ omap (dict_get (item_by_name_of its)) s /\
  names c = map name (items c) /\
  names c ≡ₚ s /\
  Sorted by_lower_name (items c) /\
  Forall (fun k => k ∈ dict_keys (item_by_name_of its)) s.
Proof.
  unfold component_of.
  intros (comp_items & (-> & Hkeys)%traverse_dict_item & [= <-])%result_bind_ok. simpl.
  split_and!; [apply sort_by_perm | done | | | done].
  - etrans; [apply Permutation_map, sort_by_perm|].
    rewrite omap_names; [done | | done].
    intros k it H. by apply item_by_name_name in H as [? _].
  - apply (sort_by_sorted Str.leb (fun x => Str.lower (name x))), by_lower_name_total.
Qed.

Lemma Forall2_concat_perm {A B C} (R : A -> B -> Prop) (f : A -> list C)
    (g : B -> list C) l k :
  Forall2 R l k -> (forall x y, R x y -> f x ≡ₚ g y) ->
  concat (map f l) ≡ₚ concat (map g k).
Proof.
  intros H Hfg. induction H as [|x y l k Hxy _ IH]; simpl; [done|].
  by rewrite (Hfg _ _ Hxy), IH.
Qed.

Lemma Forall2_elem_l {A B} (R : A -> B -> Prop) l k x :
  Forall2 R l k -> x ∈ l -> exists y, y ∈ k /\ R x y.
Proof.
  induction 1 as [|x' y l k Hxy _ IH]; [by intros ?%elem_of_nil|].
  intros [->|Hx]%elem_of_cons.
  - exists y. split; [by left | done].
  - destruct (IH Hx) as (y' & ? & ?). exists y'. split; [by right | done].
Qed.

Lemma Forall2_elem_r {A B} (R : A -> B -> Prop) l k y :
  Forall2 R l k -> y ∈ k -> exists x, x ∈ l /\ R x y.
Proof.
  induction 1 as [|x y' l k Hxy _ IH]; [by intros ?%elem_of_nil|].
  intros [->|Hy]%elem_of_cons.
  - exists x. split; [by left | done].
  - destruct (IH Hy) as (x' & ? & ?). exists x'. split; [by right | done].
Qed.

Lemma build_components_spec depth its comps ntm :
  build_components depth its = Ok (comps, ntm) -> initial_components its comps.
Proof.
  unfold build_components. fold (item_by_name_of its) (graph_of its).
  intros (sccs & Hscc & (pre & Hpre & [= <- _])%result_bind_ok)%result_bind_ok.
  apply strongly_connected_components_partition in Hscc.
  pose proof Hscc as [Hnd Hcover Hclosed Hne].
  apply traverse_ok in Hpre.
  assert (Hspec : Forall2 (fun s c =>
     items c ≡ₚ omap (dict_get (item_by_name_of its)) s /\
     names c = map name (items c) /\ names c ≡ₚ s /\
     Sorted by_lower_name (items c) /\
     Forall (fun k => k ∈ dict_keys (item_by_name_of its)) s) sccs pre).
  { eapply Forall2_impl; [exact Hpre|]. intros s c. apply component_of_spec. }
  clear Hpre.
  assert (Hperm : concat sccs ≡ₚ dict_keys (item_by_name_of its)).
  { apply NoDup_Permutation; [done | apply dict_of_NoDup |].
    intros x. split.
    - intros (s & Hs & Hx)%elem_of_concat.
      destruct (Forall2_elem_l _ _ _ _ Hspec Hs) as (c & _ & _ & _ & _ & _ & Hk).
      by apply (proj1 (Forall_forall _ _) Hk).
    - intros Hx. apply Hcover, keys_nodes. by rewrite graph_of_keys. }
  assert (Hin : forall c, c ∈ sort_by Nat.leb (external_dep_count (graph_of its)) pre ->
    exists s, s ∈ sccs /\ items c ≡ₚ omap (dict_get (item_by_name_of its)) s /\
      names c = map name (items c) /\ names c ≡ₚ s /\ Sorted by_lower_name (items c)).
  { intros c Hc%elem_of_sort_by.
    destruct (Forall2_elem_r _ _ _ _ Hspec Hc) as (s & ? & ? & ? & ? & ? & _). eauto 10. }
  split.
  - rewrite (concat_Permutation _ _ (Permutation_map items (sort_by_perm _ _ pre))).
    rewrite <- (Forall2_concat_perm _ (omap (dict_get (item_by_name_of its))) items _ _ Hspec)
      by (intros s c (H & _); by symmetry).
    rewrite <- omap_app_concat, (omap_perm _ _ _ Hperm).
    unfold kept. by rewrite dict_values_omap by apply dict_of_NoDup.
  - intros c (s & Hs & _ & Hn & Hp & _)%Hin. split; [done|].
    intros E. rewrite E in Hp. apply Permutation_nil in Hp. subst s.
    by apply (proj1 (Forall_forall _ _) Hne) in Hs.
  - by intros c (s & _ & _ & _ & _ & ?)%Hin.
  - intros a b Ha Hab Hba.
    destruct (scc_partition_mutual _ _ a b Hscc) as (s & Hs & Has & Hbs); [|done..|].
    { rewrite Hperm. by apply keys_names. }
    destruct (Forall2_elem_l _ _ _ _ Hspec Hs) as (c & Hc & _ & _ & Hp & _).
    exists c. split; [by apply elem_of_sort_by|]. by rewrite Hp.
Qed.

Lemma nodes_keys graph :
  (forall x y, edge graph x y -> y ∈ dict_keys graph) ->
  forall x, x ∈ nodes graph -> x ∈ dict_keys graph.
Proof.
  intros Hk x Hx. apply elem_of_list_to_set, elem_of_app in Hx as [Hx|Hx]; [done|].
  apply elem_of_concat in Hx as (ws & Hws & Hx).
  apply elem_of_map in Hws as (k & -> & _). by apply (Hk k).
Qed.

Lemma depends_keys its a b :
  deps_closed its -> depends its a b -> b ∈ dict_keys (graph_of its).
Proof.
  intros Hc. unfold depends, edge, graph_get.
  destruct (dict_get (graph_of its) a) as [ws|] eqn:E; simpl; [|by intros ?%elem_of_nil].
  apply dict_of_values in E as (it & Hit & _ & ->). intros Hb.
  rewrite graph_of_keys. apply keys_names. by apply (Hc it).
Qed.

Lemma NoDup_subset_length (l k : list string) :
  NoDup l -> (forall x, x ∈ l -> x ∈ k) -> length l <= length k.
Proof.
  intros Hnd Hsub. apply NoDup_incl_length.
  - by apply NoDup_ListNoDup.
  - intros x. rewrite <- !list_elem_of_In. apply Hsub.
Qed.

Lemma build_components_total depth its :
  deps_closed its -> length its <= depth ->
  exists comps ntm, build_components depth its = Ok (comps, ntm).
Proof.
  intros Hc Hd. unfold build_components. fold (item_by_name_of its) (graph_of its).
  assert (Hedge : forall x y, edge (graph_of its) x y -> y ∈ dict_keys (graph_of its))
    by (intros x y; by apply depends_keys).
  destruct (strongly_connected_components_total (graph_of its) depth) as [sccs Hscc].
  { etrans; [by apply nodes_size_keys|]. etrans; [|exact Hd].
    rewrite graph_of_keys, <- (length_map name its). apply NoDup_subset_length.
    - apply dict_of_NoDup.
    - intros x. apply keys_names. }
  rewrite Hscc. simpl.
  apply strongly_connected_components_partition in Hscc as [_ Hcover _ _].
  destruct (traverse_total (component_of (item_by_name_of its)) sccs) as [pre ->].
  - intros s Hs. unfold component_of.
    destruct (traverse_total (dict_item (item_by_name_of its)) s) as [ys ->].
    + intros n Hn. unfold dict_item.
      assert (Hk : n ∈ dict_keys (item_by_name_of its)).
      { rewrite <- graph_of_keys. apply nodes_keys; [done|].
        apply Hcover, elem_of_concat. eauto. }
      apply dict_get_keys in Hk as [it ->]. eauto.
    + simpl. eauto.
  - simpl. eauto.
Qed.

(** ** Re-packing *)

Lemma packed_refl comps : packed comps comps.
Proof.
  split; [done | |].
  - intros c Hc. exists [c]. simpl. rewrite !app_nil_r.
    split_and!; [done | by constructor | done | done].
  - intros c Hc. exists c. done.
Qed.

Lemma concat_map_names (comps : list Component) :
  (forall c, c ∈ comps -> names c = map name (items c)) ->
  concat (map names comps) = map name (concat (map items comps)).
Proof.
  induction comps as [|c comps IH]; intros H; simpl; [done|].
  rewrite map_app, <- IH, H; [done | by left |].
  intros c' Hc'. apply H. by right.
Qed.

Lemma concat_nonempty {A} (f : A -> list string) (l : list A) :
  l <> [] -> (forall x, x ∈ l -> f x <> []) -> concat (map f l) <> [].
Proof.
  destruct l as [|x l]; [done|]. intros _ H. simpl.
  intros [E _]%app_eq_nil. by apply (H x); [left|].
Qed.

Lemma packed_well_formed comps0 comps :
  well_formed comps0 -> packed comps0 comps -> well_formed comps.
Proof.
  intros [Hnd0 Hn0] [Hit Hseeds _].
  assert (Hnames : forall c, c ∈ comps -> names c = map name (items c) /\ names c <> []).
  { intros c (seeds & Hne & Hall & Hi & Hn)%Hseeds. rewrite Hn, Hi.
    assert (Hall' : forall s, s ∈ seeds -> names s = map name (items s) /\ names s <> []).
    { intros s Hs. apply Hn0. by apply (proj1 (Forall_forall _ _) Hall). }
    split.
    - apply concat_map_names. intros s Hs. by apply Hall'.
    - apply concat_nonempty; [done|]. intros s Hs. by apply Hall'. }
  split; [|done].
  rewrite concat_map_names by (intros c Hc; by apply Hnames).
  rewrite Hit, <- concat_map_names by (intros c Hc; by apply Hn0). done.
Qed.

Lemma NoDup_concat_nonempty {A} (f : A -> list string) (l : list A) :
  NoDup (concat (map f l)) -> (forall x, x ∈ l -> f x <> []) -> NoDup l.
Proof.
  induction l as [|x l IH]; simpl; [constructor|].
  intros (_ & Hdisj & Hnd)%NoDup_app Hne.
  constructor; [|apply IH; [done | intros; apply Hne; by right]].
  intros Hx. destruct (f x) as [|y ys] eqn:E; [by apply (Hne x); [left|]|].
  apply (Hdisj y); [by left|]. apply elem_of_concat. exists (f x).
  split; [apply elem_of_map; eauto | rewrite E; by left].
Qed.

Lemma well_formed_NoDup comps : well_formed comps -> NoDup comps.
Proof.
  intros [Hnd Hn]. apply (NoDup_concat_nonempty names); [done|].
  intros c Hc. by apply Hn.
Qed.

(** Taking [chosen] out of [comps] and putting back one component [m]
    that holds what [chosen] held. *)
Lemma packed_merge comps0 comps chosen m :
  well_formed comps0 -> packed comps0 comps ->
  chosen <> [] -> NoDup chosen -> (forall c, c ∈ chosen -> c ∈ comps) ->
  items m = concat (map items chosen) -> names m = concat (map names chosen) ->
  packed comps0 (filter (fun c => c ∉ chosen) comps ++ [m]).
Proof.
  intros Hwf0 Hp Hne Hndc Hsub Hi Hn.
  pose proof (well_formed_NoDup _ (packed_well_formed _ _ Hwf0 Hp)) as Hnd.
  destruct Hp as [Hit Hseeds Hcover].
  assert (Hsplit : filter (fun c => c ∉ chosen) comps ++ chosen ≡ₚ comps).
  { apply NoDup_Permutation; [|done|].
    - apply NoDup_app. split_and!; [by apply NoDup_filter | | done].
      by intros c [? _]%list_elem_of_filter.
    - intros c. rewrite elem_of_app, list_elem_of_filter.
      destruct (decide (c ∈ chosen)); naive_solver. }
  split.
  - rewrite map_app, concat_app. simpl. rewrite app_nil_r, Hi, <- concat_app, <- map_app.
    by rewrite Hsplit.
  - intros c [[_ Hc]%list_elem_of_filter|Hc%list_elem_of_singleton]%elem_of_app; [by apply Hseeds|].
    subst c. rewrite Hi, Hn. clear Hi Hn Hsplit Hndc.
    induction chosen as [|c chosen IH]; [done|].
    destruct (Hseeds c) as (sc & Hsc & Hall & Hic & Hnc); [apply Hsub; by left|].
    destruct chosen as [|c' chosen'].
    + exists sc. simpl. rewrite !app_nil_r. done.
    + destruct IH as (sr & Hsr & Hallr & Hir & Hnr); [done | intros; apply Hsub; by right|].
      exists (sc ++ sr). split_and!.
      * by destruct sc.
      * by apply Forall_app.
      * change (concat (map items (c :: c' :: chosen')))
          with (items c ++ concat (map items (c' :: chosen'))).
        by rewrite Hic, Hir, map_app, concat_app.
      * change (concat (map names (c :: c' :: chosen')))
          with (names c ++ concat (map names (c' :: chosen'))).
        by rewrite Hnc, Hnr, map_app, concat_app.
  - intros c0 (c & Hc & Hincl)%Hcover.
    destruct (decide (c ∈ chosen)) as [Hin|Hnin].
    + exists m. split; [apply elem_of_app; right; by left|].
      intros x Hx%Hincl. rewrite Hn. apply elem_of_concat. exists (names c).
      split; [apply elem_of_map; eauto | done].
    + exists c. split; [|done]. apply elem_of_app. left. by apply list_elem_of_filter.
Qed.

Lemma fold_merge_items rest first :
  items (fold_left (fun m c => merge_components m c None) rest first)
  = items first ++ concat (map items rest).
Proof.
  revert first. induction rest as [|c rest IH]; intros first; simpl.
  - by rewrite app_nil_r.
  - rewrite IH. simpl. by rewrite <- app_assoc.
Qed.

Lemma fold_merge_names rest first :
  names (fold_left (fun m c => merge_components m c None) rest first)
  = names first ++ concat (map names rest).
Proof.
  revert first. induction rest as [|c rest IH]; intros first; simpl.
  - by rewrite app_nil_r.
  - rewrite IH. simpl. by rewrite <- app_assoc.
Qed.

Lemma packed_merge_all_into comps0 comps (P : Component -> Prop)
    `{forall c, Decision (P c)} new_name :
  well_formed comps0 -> packed comps0 comps ->
  packed comps0 (merge_all_into new_name (filter P comps) comps).
Proof.
  intros Hwf0 Hp. unfold merge_all_into.
  destruct (filter P comps) as [|first [|second rest]] eqn:E; [done..|].
  rewrite <- E. apply packed_merge; try done.
  - by rewrite E.
  - apply NoDup_filter, well_formed_NoDup. by eapply packed_well_formed.
  - by intros c [_ ?]%list_elem_of_filter.
  - cbn [items rename]. by rewrite fold_merge_items, E.
  - cbn [names rename]. by rewrite fold_merge_names, E.
Qed.

Lemma packed_merge_pair comps0 comps a b :
  well_formed comps0 -> packed comps0 comps ->
  a ∈ comps -> b ∈ comps -> a <> b ->
  packed comps0 (filter (fun c => c ∉ [a; b]) comps ++ [merge_components a b None]).
Proof.
  intros Hwf0 Hp Ha Hb Hab. apply packed_merge; try done.
  - apply NoDup_cons. split; [by intros ?%list_elem_of_singleton|]. apply NoDup_singleton.
  - intros c [->|Hc%list_elem_of_singleton]%elem_of_cons; by subst.
  - simpl. by rewrite app_nil_r.
  - simpl. by rewrite app_nil_r.
Qed.

(** The two components [merge_smallest_once] merges. *)
Lemma merge_smallest_once_inv comps comps' :
  merge_smallest_once comps = Some comps' ->
  exists a b, a ∈ comps /\ b ∈ comps /\ pinned a = false /\ pinned b = false /\
    (NoDup comps -> a <> b) /\
    comps' = filter (fun c => c ∉ [a; b]) comps ++ [merge_components a b None].
Proof.
  unfold merge_smallest_once.
  destruct (sort_by _ _ _) as [|a [|b rest]] eqn:E; [done..|]. intros [= <-].
  pose proof (sort_by_perm Nat.leb _comp_lines
                (filter (fun c => pinned c = false) comps)) as Hperm.
  rewrite E in Hperm.
  assert (Ha : a ∈ filter (fun c => pinned c = false) comps) by (rewrite <- Hperm; by left).
  assert (Hb : b ∈ filter (fun c => pinned c = false) comps)
    by (rewrite <- Hperm; right; by left).
  apply list_elem_of_filter in Ha as [? ?], Hb as [? ?].
  exists a, b. split_and!; try done.
  intros Hnd. assert (Hnd' : NoDup (a :: b :: rest)).
  { rewrite Hperm. by apply NoDup_filter. }
  apply NoDup_cons in Hnd' as [Hab _]. intros ->. apply Hab. by left.
Qed.

Lemma merge_small_once_inv min_lines comps comps' :
  merge_small_once min_lines comps = Some comps' ->
  exists a b, a ∈ comps /\ b ∈ comps /\ pinned a = false /\ pinned b = false /\ a <> b /\
    comps' = filter (fun c => c ∉ [a; b]) comps ++ [merge_components a b None].
Proof.
  unfold merge_small_once. cbv zeta.
  set (smallers := sort_by Nat.leb _comp_lines
     (filter (fun c => (Z.of_nat (_comp_lines c) <? min_lines)%Z && negb (pinned c) = true) comps)).
  assert (Hsm : forall s, s ∈ smallers -> s ∈ comps /\ pinned s = false).
  { intros s [Hs1 Hs2]%elem_of_sort_by%list_elem_of_filter. split; [done|].
    apply andb_true_iff in Hs1 as [_ Hs1]. by destruct (pinned s). }
  destruct smallers as [|s rest]; [done|].
  set (others := sort_by Nat.leb _comp_lines
     (filter (fun c => c <> s /\ pinned c = false) comps)).
  assert (Hot : forall o, o ∈ others -> o ∈ comps /\ pinned o = false /\ o <> s).
  { by intros o [[? ?] ?]%elem_of_sort_by%list_elem_of_filter. }
  destruct others as [|o rest']; [done|]. intros [= <-].
  destruct (Hsm s) as [? ?]; [by left|].
  destruct (Hot o) as (? & ? & ?); [by left|].
  exists s, o. split_and!; done.
Qed.

Lemma packed_merge_while_above comps0 turns bound :
  well_formed comps0 ->
  forall comps, packed comps0 comps -> packed comps0 (merge_while_above turns bound comps).
Proof.
  intros Hwf0. induction turns as [|turns IH]; intros comps Hp; simpl; [done|].
  destruct (bound <? _)%Z; [|done].
  destruct (merge_smallest_once comps) as [comps'|] eqn:E; [|done].
  apply merge_smallest_once_inv in E as (a & b & Ha & Hb & _ & _ & Hab & ->).
  apply IH, packed_merge_pair; try done.
  apply Hab, well_formed_NoDup. by eapply packed_well_formed.
Qed.

Lemma packed_merge_small_loop comps0 turns min_lines :
  well_formed comps0 ->
  forall comps, packed comps0 comps -> packed comps0 (merge_small_loop turns min_lines comps).
Proof.
  intros Hwf0. induction turns as [|turns IH]; intros comps Hp; simpl; [done|].
  destruct (merge_small_once min_lines comps) as [comps'|] eqn:E; [|done].
  apply merge_small_once_inv in E as (a & b & Ha & Hb & _ & _ & Hab & ->).
  by apply IH, packed_merge_pair.
Qed.

Lemma packed_repack cfg comps0 :
  well_formed comps0 -> packed comps0 (repack_components cfg comps0).1.
Proof.
  intros Hwf0. unfold repack_components. simpl.
  set (c1 := if group_assignments cfg then group_constants comps0 else comps0).
  assert (H1 : packed comps0 c1).
  { unfold c1. destruct (group_assignments cfg); [|apply packed_refl].
    apply packed_merge_all_into; [done | apply packed_refl]. }
  clearbody c1.
  set (c2 := if (0 <? pack_small_lines cfg)%Z then pack_core (pack_small_lines cfg) c1 else c1).
  assert (H2 : packed comps0 c2).
  { unfold c2. destruct (0 <? _)%Z; [|done]. by apply packed_merge_all_into. }
  clearbody c2. clear c1 H1.
  set (c3 := if (max_modules cfg =? 0)%Z then c2 else merge_down_to (max_modules cfg) c2).
  assert (H3 : packed comps0 c3).
  { unfold c3. destruct (_ =? 0)%Z; [done|]. by apply packed_merge_while_above. }
  clearbody c3. clear c2 H2.
  set (c4 := if (0 <? min_module_lines cfg)%Z
             then enforce_min_lines (min_module_lines cfg) c3 else c3).
  assert (H4 : packed comps0 c4).
  { unfold c4. destruct (0 <? _)%Z; [|done]. by apply packed_merge_small_loop. }
  clearbody c4. clear c3 H3.
  destruct (target_modules cfg) as [t|]; [|done].
  destruct (0 <? t)%Z; [|done]. by apply packed_merge_while_above.
Qed.

(** *** The loops end

    Every successful merge shortens the list, so the number of turns given
    to the loops is never used up: the functions satisfy the equations of
    the [while] loops they stand for. *)

Lemma filter_pair_length (comps rest : list Component) a b :
  a :: b :: rest ⊆+ comps ->
  S (length (filter (fun c => c ∉ [a; b]) comps ++ [merge_components a b None]))
  <= length comps.
Proof.
  intros Hsub. rewrite length_app. simpl.
  apply submseteq_Permutation in Hsub as [others Hperm].
  rewrite Hperm. simpl.
  rewrite filter_cons_False by (intros Hn; apply Hn; by left).
  rewrite filter_cons_False by (intros Hn; apply Hn; right; by left).
  pose proof (length_filter (fun c => c ∉ [a; b]) (rest ++ others)). lia.
Qed.

Lemma submseteq_sorted_filter (P : Component -> Prop) `{forall c, Decision (P c)}
    (key : Component -> nat) comps :
  sort_by Nat.leb key (filter P comps) ⊆+ comps.
Proof.
  rewrite sort_by_perm. apply sublist_submseteq, sublist_filter.
Qed.

Lemma merge_smallest_once_shorter comps comps' :
  merge_smallest_once comps = Some comps' -> S (length comps') <= length comps.
Proof.
  unfold merge_smallest_once.
  pose proof (submseteq_sorted_filter (fun c => pinned c = false) _comp_lines comps) as Hsub.
  destruct (sort_by _ _ _) as [|a [|b rest]]; [done..|]. intros [= <-].
  by eapply filter_pair_length.
Qed.

Lemma pair_submseteq {A} (l : list A) a b :
  a ∈ l -> b ∈ l -> a <> b -> [a; b] ⊆+ l.
Proof.
  intros [l' Hl']%elem_of_Permutation Hb Hab.
  rewrite Hl' in Hb. apply elem_of_cons in Hb as [?|Hb]; [by subst|].
  apply elem_of_Permutation in Hb as [l'' Hl''].
  rewrite Hl', Hl''. do 2 apply submseteq_skip. apply submseteq_nil_l.
Qed.

Lemma merge_small_once_shorter min_lines comps comps' :
  merge_small_once min_lines comps = Some comps' -> S (length comps') <= length comps.
Proof.
  intros (a & b & Ha & Hb & _ & _ & Hab & ->)%merge_small_once_inv.
  apply (filter_pair_length comps []). by apply pair_submseteq.
Qed.

Lemma merge_while_above_more_turns bound turns :
  forall comps, length comps <= turns ->
    merge_while_above (S turns) bound comps = merge_while_above turns bound comps.
Proof.
  induction turns as [|turns IH]; intros comps Hlen.
  - destruct comps; [|simpl in Hlen; lia].
    change (merge_while_above 1 bound []) with
      (if (bound <? Z.of_nat 0)%Z then @nil Component else []).
    by destruct (bound <? _)%Z.
  - change (merge_while_above (S (S turns)) bound comps) with
      (if (bound <? Z.of_nat (length comps))%Z then
         match merge_smallest_once comps with
         | Some comps' => merge_while_above (S turns) bound comps'
         | None => comps
         end
       else comps).
    change (merge_while_above (S turns) bound comps) with
      (if (bound <? Z.of_nat (length comps))%Z then
         match merge_smallest_once comps with
         | Some comps' => merge_while_above turns bound comps'
         | None => comps
         end
       else comps).
    destruct (bound <? _)%Z; [|done].
    destruct (merge_smallest_once comps) as [comps'|] eqn:E; [|done].
    apply IH. apply merge_smallest_once_shorter in E. lia.
Qed.

Lemma merge_while_above_enough bound comps k :
  merge_while_above (length comps + k) bound comps = merge_down_to bound comps.
Proof.
  unfold merge_down_to. induction k as [|k IH]; [by rewrite Nat.add_0_r|].
  rewrite Nat.add_succ_r, merge_while_above_more_turns; [done | lia].
Qed.

(** [while len(comps) > bound: if not merge_smallest_once(): break] *)
Lemma merge_down_to_unfold bound comps :
  merge_down_to bound comps =
  if (bound <? Z.of_nat (length comps))%Z then
    match merge_smallest_once comps with
    | Some comps' => merge_down_to bound comps'
    | None => comps
    end
  else comps.
Proof.
  destruct comps as [|c comps].
  - change (merge_smallest_once []) with (@None (list Component)).
    by destruct (bound <? _)%Z.
  - unfold merge_down_to at 1.
    change (merge_while_above (length (c :: comps)) bound (c :: comps)) with
      (if (bound <? Z.of_nat (length (c :: comps)))%Z then
         match merge_smallest_once (c :: comps) with
         | Some comps' => merge_while_above (length comps) bound comps'
         | None => c :: comps
         end
       else c :: comps).
    destruct (bound <? _)%Z; [|done].
    destruct (merge_smallest_once (c :: comps)) as [comps'|] eqn:E; [|done].
    apply merge_smallest_once_shorter in E. simpl in E.
    replace (length comps) with (length comps' + (length comps - length comps')) by lia.
    apply merge_while_above_enough.
Qed.

Lemma merge_small_loop_more_turns min_lines turns :
  forall comps, length comps <= turns ->
    merge_small_loop (S turns) min_lines comps = merge_small_loop turns min_lines comps.
Proof.
  induction turns as [|turns IH]; intros comps Hlen.
  - destruct comps; [|simpl in Hlen; lia]. done.
  - change (merge_small_loop (S (S turns)) min_lines comps) with
      (match merge_small_once min_lines comps with
       | Some comps' => merge_small_loop (S turns) min_lines comps'
       | None => comps
       end).
    change (merge_small_loop (S turns) min_lines comps) with
      (match merge_small_once min_lines comps with
       | Some comps' => merge_small_loop turns min_lines comps'
       | None => comps
       end).
    destruct (merge_small_once min_lines comps) as [comps'|] eqn:E; [|done].
    apply IH. apply merge_small_once_shorter in E. lia.
Qed.

Lemma merge_small_loop_enough min_lines comps k :
  merge_small_loop (length comps + k) min_lines comps = enforce_min_lines min_lines comps.
Proof.
  unfold enforce_min_lines. induction k as [|k IH]; [by rewrite Nat.add_0_r|].
  rewrite Nat.add_succ_r, merge_small_loop_more_turns; [done | lia].
Qed.

(** [while changed: ...] of step 3.5 *)
Lemma enforce_min_lines_unfold min_lines comps :
  enforce_min_lines min_lines comps =
  match merge_small_once min_lines comps with
  | Some comps' => enforce_min_lines min_lines comps'
  | None => comps
  end.
Proof.
  destruct comps as [|c comps]; [done|].
  unfold enforce_min_lines at 1.
  change (merge_small_loop (length (c :: comps)) min_lines (c :: comps)) with
    (match merge_small_once min_lines (c :: comps) with
     | Some comps' => merge_small_loop (length comps) min_lines comps'
     | None => c :: comps
     end).
  destruct (merge_small_once min_lines (c :: comps)) as [comps'|] eqn:E; [|done].
  apply merge_small_once_shorter in E. simpl in E.
  replace (length comps) with (length comps' + (length comps - length comps')) by lia.
  apply merge_small_loop_enough.
Qed.

(** ** Extraction *)

(** Induction on the syntax tree, with the hypotheses for the children
    that sit in lists and options. *)
Lemma ast_nested_ind (P : ast -> Prop) :
  (forall id ctx, P (Name id ctx)) ->
  P Import ->
  P ImportFrom ->
  (forall test body orelse,
     P test -> Forall P body -> Forall P orelse -> P (If test body orelse)) ->
  (forall lhs comparators,
     P lhs -> Forall P comparators -> P (Compare lhs comparators)) ->
  (forall cname bases keywords decorator_list body,
     Forall P bases -> Forall P keywords -> Forall P decorator_list -> Forall P body ->
     P (ClassDef cname bases keywords decorator_list body)) ->
  (forall is_async fname decorator_list returns annotations defaults body,
     Forall P decorator_list -> holds_opt P returns -> Forall P annotations ->
     Forall P body ->
     P (FunctionDef is_async fname decorator_list returns annotations defaults body)) ->
  (forall targets value, Forall P targets -> P value -> P (Assign targets value)) ->
  (forall target annotation value,
     P target -> P annotation -> holds_opt P value ->
     P (AnnAssign target annotation value)) ->
  (forall children, Forall P children -> P (Node children)) ->
  forall n, P n.
Proof.
  intros HName HImport HImportFrom HIf HCompare HClassDef HFunctionDef HAssign
    HAnnAssign HNode.
  fix IH 1. intros n.
  destruct n as
    [id ctx| | |test body orelse|lhs cs|cname bases kws decs body
    |a fname decs returns anns defs body|targets value|target ann value|children].
  - apply HName.
  - apply HImport.
  - apply HImportFrom.
  - apply HIf; [apply IH | |].
    + induction body; constructor; [apply IH | assumption].
    + induction orelse; constructor; [apply IH | assumption].
  - apply HCompare; [apply IH|].
    induction cs; constructor; [apply IH | assumption].
  - apply HClassDef.
    + induction bases; constructor; [apply IH | assumption].
    + induction kws; constructor; [apply IH | assumption].
    + induction decs; constructor; [apply IH | assumption].
    + induction body; constructor; [apply IH | assumption].
  - apply HFunctionDef.
    + induction decs; constructor; [apply IH | assumption].
    + destruct returns as [r|]; simpl; [apply IH | exact I].
    + induction anns; constructor; [apply IH | assumption].
    + induction body; constructor; [apply IH | assumption].
  - apply HAssign; [|apply IH].
    induction targets; constructor; [apply IH | assumption].
  - apply HAnnAssign; [apply IH | apply IH |].
    destruct value as [r|]; simpl; [apply IH | exact I].
  - apply HNode. induction children; constructor; [apply IH | assumption].
Qed.

Lemma visit_all_within tops ns :
  Forall (keeps_within tops) ns ->
  forall used, (forall x, x ∈ used -> x ∈ tops) ->
    forall x, x ∈ fold_left (fun used n => visit tops n used) ns used -> x ∈ tops.
Proof.
  induction 1 as [|n ns Hn _ IH]; intros used Hu; simpl; [done|].
  apply IH. by apply Hn.
Qed.

Ltac within_tops tops :=
  repeat first
    [ assumption
    | match goal with
      | H : Forall _ ?ns |- forall x, x ∈ fold_left _ ?ns _ -> _ =>
          apply (visit_all_within tops ns H)
      | H : keeps_within _ ?n |- forall x, x ∈ visit _ ?n _ -> _ => apply H
      end ].

Lemma visit_within tops n : keeps_within tops n.
Proof.
  induction n as
    [id ctx| | |test body orelse IHt IHb IHo|lhs cs IHl IHc
    |cname bases kws decs body IH1 IH2 IH3 IH4
    |a fname decs returns anns defs body IH1 IH2 IH3 IH4
    |targets value IH1 IH2|target ann value IH1 IH2 IH3|children IH]
    using ast_nested_ind; intros used Hu; simpl.
  - destruct (is_load ctx && bool_decide (id ∈ tops)) eqn:E; [|done].
    apply andb_true_iff in E as [_ E%bool_decide_eq_true].
    unfold set_add. case_bool_decide; [done|].
    intros x [?|Hx%list_elem_of_singleton]%elem_of_app; [auto | by subst].
  - done.
  - done.
  - within_tops tops.
  - within_tops tops.
  - within_tops tops.
  - destruct returns; simpl in *; within_tops tops.
  - within_tops tops.
  - destruct value; simpl in *; within_tops tops.
  - within_tops tops.
Qed.

Section Extraction.

Variable set_iter : list string -> list string.
Hypothesis set_iter_perm : forall l, set_iter l ≡ₚ l.

Lemma with_deps_name body tops it : name (with_deps set_iter body tops it) = name it.
Proof. done. Qed.

Lemma with_deps_source body tops it : source (with_deps set_iter body tops it) = source it.
Proof. done. Qed.

Lemma extract_items_deps_closed tree :
  deps_closed (ex_items (extract_top_level_items set_iter tree)).
Proof.
  unfold extract_top_level_items.
  destruct (extract_statements 0 (tree_body tree) ([], [], None)) as [[its imports] main].
  simpl. intros it d (it0 & -> & Hit0)%elem_of_map Hd.
  rewrite map_map. simpl. simpl in Hd.
  rewrite set_iter_perm in Hd. apply list_elem_of_filter in Hd as [_ Hd].
  assert (Hin : d ∈ (list_to_set (map name its) : gset string)).
  { destruct (tree_body tree !! node it0) as [s|]; [|by apply elem_of_nil in Hd].
    eapply visit_within; [|exact Hd]. by intros x ?%elem_of_nil. }
  by apply elem_of_list_to_set in Hin.
Qed.

End Extraction.

(** ** The module-name collision guard keeps names and items *)

Lemma uniquify_same comps :
  forall used, Forall2 (fun c c' => names c' = names c /\ items c' = items c)
                 comps (uniquify comps used).
Proof.
  induction comps as [|c comps IH]; intros used; simpl; [constructor|].
  destruct (ensure_unique_module_name (module_name c) used) as [m used'].
  constructor; [done | apply IH].
Qed.

Lemma uniquify_items comps used : map items (uniquify comps used) = map items comps.
Proof.
  pose proof (uniquify_same comps used) as H.
  induction H as [|c c' l l' [_ Hi] _ IH]; simpl; [done|]. by rewrite Hi, IH.
Qed.

Lemma uniquify_names comps used : map names (uniquify comps used) = map names comps.
Proof.
  pose proof (uniquify_same comps used) as H.
  induction H as [|c c' l l' [Hn _] _ IH]; simpl; [done|]. by rewrite Hn, IH.
Qed.

Lemma packed_uniquify comps0 comps used :
  packed comps0 comps -> packed comps0 (uniquify comps used).
Proof.
  intros [Hit Hseeds Hcover]. pose proof (uniquify_same comps used) as Hsame. split.
  - by rewrite uniquify_items.
  - intros c' Hc'. destruct (Forall2_elem_r _ _ _ _ Hsame Hc') as (c & Hc & Hn & Hi).
    rewrite Hn, Hi. by apply Hseeds.
  - intros c0 (c & Hc & Hincl)%Hcover.
    destruct (Forall2_elem_l _ _ _ _ Hsame Hc) as (c' & Hc' & Hn & _).
    exists c'. split; [done|]. by rewrite Hn.
Qed.

(** ** The plan of one file *)

Lemma initial_well_formed its comps : initial_components its comps -> well_formed comps.
Proof.
  intros [Hit Hn _ _]. split; [|done].
  rewrite concat_map_names by (intros c Hc; by apply Hn).
  rewrite Hit, kept_names. apply dict_of_NoDup.
Qed.

(** The final components are merged from the components of
    [build_components]. *)
Lemma plan_single_packed set_iter depth cfg tree p :
  plan_single set_iter depth cfg tree = Ok (Some p) ->
  exists comps0 ntm0,
    build_components depth (ex_items (extract_top_level_items set_iter tree))
      = Ok (comps0, ntm0) /\
    initial_components (ex_items (extract_top_level_items set_iter tree)) comps0 /\
    packed comps0 (plan_components p) /\
    plan_imports p = ex_imports (extract_top_level_items set_iter tree).
Proof.
  unfold plan_single.
  destruct (ex_items (extract_top_level_items set_iter tree)) as [|it its] eqn:E; [done|].
  rewrite <- E.
  intros ([comps0 ntm] & Hb & H)%result_bind_ok.
  pose proof (packed_repack cfg comps0) as Hp.
  destruct (repack_components cfg comps0) as [comps ntm'].
  injection H as <-. simpl.
  pose proof (build_components_spec _ _ _ _ Hb) as Hinit.
  exists comps0, ntm. split_and!; [done | done | | done].
  apply packed_uniquify, Hp. by eapply initial_well_formed.
Qed.

(** ** The module-name collision guard *)

Lemma string_app_inj (s a b : string) : s +:+ a = s +:+ b -> a = b.
Proof. induction s as [|c s IH]; simpl; [done|]. intros [= H]. by apply IH. Qed.

Lemma suffixed_inj base i j : suffixed base i = suffixed base j -> i = j.
Proof.
  unfold suffixed. intros H%string_app_inj. simpl in H. injection H as H.
  by apply pretty_nat_inj in H.
Qed.

Lemma first_free_suffix_spec base used tries :
  forall i,
    let j := first_free_suffix base used tries i in
    i <= j <= i + tries /\
    (forall k, i <= k < j -> suffixed base k ∈ used) /\
    (j < i + tries -> suffixed base j ∉ used).
Proof.
  induction tries as [|tries IH]; intros i; simpl.
  - split; [lia|]. split; [intros; lia | lia].
  - fold (suffixed base i). case_bool_decide as Hin.
    + destruct (IH (S i)) as (Hj & Hused & Hfree). split; [lia|]. split.
      * intros k Hk. destruct (decide (k = i)) as [->|]; [done|]. apply Hused. lia.
      * intros Hlt. apply Hfree. lia.
    + split; [lia|]. split; [intros; lia | done].
Qed.

Lemma NoDup_suffixed base i n : NoDup (map (suffixed base) (seq i n)).
Proof.
  revert i. induction n as [|n IH]; intros i; simpl; [constructor|].
  constructor; [|apply IH].
  intros (k & Hk%suffixed_inj & Hin)%elem_of_map. subst k.
  apply list_elem_of_In, in_seq in Hin. lia.
Qed.

(** The search of [ensure_unique_module_name] finds a free name. *)
Lemma first_free_suffix_fresh base used :
  suffixed base (first_free_suffix base used (S (size used)) 2) ∉ used.
Proof.
  destruct (first_free_suffix_spec base used (S (size used)) 2) as (Hj & Hused & Hfree).
  destruct (decide (first_free_suffix base used (S (size used)) 2 < 2 + S (size used)))
    as [Hlt|Hge]; [by apply Hfree|].
  exfalso.
  assert (Hsub : (list_to_set (map (suffixed base) (seq 2 (S (size used)))) : gset string)
                 ⊆ used).
  { intros x (k & -> & Hk)%elem_of_list_to_set%elem_of_map.
    apply list_elem_of_In, in_seq in Hk. apply Hused. lia. }
  apply subseteq_size in Hsub.
  rewrite size_list_to_set in Hsub by apply NoDup_suffixed.
  rewrite length_map, length_seq in Hsub. lia.
Qed.

Lemma ensure_unique_module_name_spec base used :
  (ensure_unique_module_name base used).1 ∉ used /\
  (ensure_unique_module_name base used).2
  = {[(ensure_unique_module_name base used).1]} ∪ used.
Proof.
  unfold ensure_unique_module_name. case_bool_decide; simpl; [done|].
  split; [apply first_free_suffix_fresh | done].
Qed.

(** After the guard no two components share a module name. *)
Lemma uniquify_distinct comps :
  forall used,
    NoDup (map module_name (uniquify comps used)) /\
    forall m, m ∈ map module_name (uniquify comps used) -> m ∉ used.
Proof.
  induction comps as [|c comps IH]; intros used; simpl.
  - split; [constructor | by intros m ?%elem_of_nil].
  - destruct (ensure_unique_module_name_spec (module_name c) used) as [Hfresh Hused].
    destruct (ensure_unique_module_name (module_name c) used) as [m used']. simpl in *.
    destruct (IH used') as [Hnd Hnot]. subst used'. split.
    + constructor; [|done]. intros Hm%Hnot. set_solver.
    + intros m' [->|Hm'%Hnot]%elem_of_cons; [done | set_solver].
Qed.

Lemma plan_module_names_distinct set_iter depth cfg tree p :
  plan_single set_iter depth cfg tree = Ok (Some p) ->
  NoDup (map module_name (plan_components p)).
Proof.
  unfold plan_single.
  destruct (ex_items (extract_top_level_items set_iter tree)); [done|].
  intros ([comps0 ntm] & _ & H)%result_bind_ok.
  destruct (repack_components cfg comps0) as [comps ntm'].
  injection H as <-. simpl. apply uniquify_distinct.
Qed.

(** ** The items that are kept *)

Lemma dict_of_from_get {A} (key : A -> string) (xs : list A) :
  forall (d : dict A) k,
    dict_get (dict_of_from key (fun x => x) xs d) k =
    match last (filter (fun x => key x = k) xs) with
    | Some x => Some x
    | None => dict_get d k
    end.
Proof.
  induction xs as [|x xs IH]; intros d k; simpl; [done|].
  rewrite IH, dict_get_set.
  destruct (decide (key x = k)) as [E|Hne].
  - rewrite filter_cons_True by done. subst k. rewrite String.eqb_refl.
    destruct (filter _ xs) as [|y ys] eqn:Ef; [done|].
    change (last (x :: y :: ys)) with (last (y :: ys)).
    by destruct (last (y :: ys)) eqn:El; [|apply last_None in El].
  - rewrite filter_cons_False by done.
    destruct (String.eqb_spec k (key x)); [by subst|]. done.
Qed.

(** An item is kept exactly when it is the last one of its name. *)
Lemma kept_last its it :
  it ∈ kept its <-> last (filter (fun x => name x = name it) its) = Some it.
Proof.
  unfold kept, item_by_name_of, dict_of.
  pose proof (dict_of_from_get name its [] (name it)) as Hget. simpl in Hget.
  pose proof (dict_of_NoDup name (fun x : TopLevelItem => x) its) as Hnd.
  unfold dict_of in Hnd.
  split.
  - intros ([k x] & -> & Hin)%elem_of_map. simpl in *.
    pose proof (dict_get_Some_elem _ _ _ Hnd Hin) as Hk.
    assert (k = name x).
    { apply (dict_of_from_values name (fun x => x)) in Hk as [?|(? & ? & ? & ->)]; done. }
    subst k. rewrite Hk in Hget. destruct (last _); [congruence | done].
  - intros Hlast. rewrite Hlast in Hget.
    apply dict_get_elem_of in Hget. apply elem_of_map. by exists (name it, it).
Qed.

(** ** Cyclic and unresolved imports *)

(** C1 fails on the code: with the default options the small functions [a]
    and [c] of [chain_file] are packed into [core], which then imports [b]
    while [b] imports [core]. *)
Theorem merged_modules_import_each_other :
  exists pkg,
    plan_and_write_single insertion_order 100 default_packing chain_file = Ok (Some pkg) /\
    map fst (pkg_modules pkg) = ["b"; "core"] /\
    import_edge pkg "b" "core" /\ import_edge pkg "core" "b".
Proof.
  eexists. split; [vm_compute; reflexivity|]. split; [reflexivity|].
  split.
  - eexists. split; [left|]. vm_compute. reflexivity.
  - eexists. split; [right; left|]. vm_compute. reflexivity.
Qed.

(** C3 fails on the code: in [collision_file] the component of [Foo] is
    renamed to [foo_2] by the collision guard, and the module of [bar] still
    imports [Foo] from [foo], the module of the other component. *)
Theorem renamed_module_import_is_stale :
  exists p pkg,
    plan_single insertion_order 100 no_small_packing collision_file = Ok (Some p) /\
    pkg = write_package p /\
    (forall c, c ∈ plan_components p -> "Foo" ∈ names c -> module_name c = "foo_2") /\
    (exists c, c ∈ plan_components p /\ module_name c = "foo" /\ names c = ["foo"]) /\
    (exists text, ("bar", text) ∈ pkg_modules pkg /\
       "from .foo import Foo" ∈ lines_of text /\ imports_from text "foo_2" = false).
Proof.
  eexists. eexists. split; [vm_compute; reflexivity|]. split; [reflexivity|].
  split_and!.
  - intros c Hc HFoo. cbn [plan_components] in Hc.
    repeat (apply elem_of_cons in Hc as [->|Hc]); cbn [names] in HFoo.
    + apply list_elem_of_singleton in HFoo. discriminate.
    + reflexivity.
    + apply list_elem_of_singleton in HFoo. discriminate.
    + by apply elem_of_nil in Hc.
  - eexists. split; [left|]. split; reflexivity.
  - eexists. split; [cbn; right; right; left|].
    split; [|vm_compute; reflexivity].
    vm_compute. right. right. left.
Qed.

(** ** Properties of every plan *)

Lemma tc_depends_name its a b : tc (depends its) a b -> a ∈ map name its.
Proof.
  intros H. assert (Hex : exists x, depends its a x) by (destruct H; eauto).
  destruct Hex as [x Hx]. unfold depends, edge, graph_get in Hx.
  destruct (dict_get (graph_of its) a) as [ws|] eqn:E; [|by apply elem_of_nil in Hx].
  apply keys_names. rewrite <- graph_of_keys. apply dict_get_keys. eauto.
Qed.

(** C2: symbols that depend on each other transitively are members of the
    same final component, whatever the packing options are. *)
Theorem mutually_dependent_symbols_share_component
    (set_iter : list string -> list string) (depth : nat) (cfg : packing)
    (tree : module_tree) (p : plan) :
  plan_single set_iter depth cfg tree = Ok (Some p) ->
  let its := ex_items (extract_top_level_items set_iter tree) in
  forall a b, tc (depends its) a b -> tc (depends its) b a ->
    exists c, c ∈ plan_components p /\ a ∈ names c /\ b ∈ names c.
Proof.
  intros (comps0 & ntm0 & _ & Hinit & Hpacked & _)%plan_single_packed its a b Hab Hba.
  destruct (ic_mutual _ _ Hinit a b) as (c0 & Hc0 & Ha & Hb).
  - by eapply tc_depends_name.
  - by apply tc_rtc.
  - by apply tc_rtc.
  - destruct (pk_cover _ _ Hpacked c0 Hc0) as (c & Hc & Hincl).
    exists c. auto.
Qed.

Lemma mutually_dependent_symbols_share_component_witness :
  exists p c,
    plan_single insertion_order 10 default_packing mutual_file = Ok (Some p) /\
    c ∈ plan_components p /\ "f" ∈ names c /\ "g" ∈ names c.
Proof.
  destruct (plan_single insertion_order 10 default_packing mutual_file)
    as [[p|]|e] eqn:E; [|vm_compute in E; discriminate..].
  destruct (mutually_dependent_symbols_share_component
              insertion_order 10 default_packing mutual_file p E "f" "g")
    as (c & Hc & Hf & Hg).
  - apply tc_once. unfold depends, edge. vm_compute. constructor.
  - apply tc_once. unfold depends, edge. vm_compute. constructor.
  - exists p, c. auto.
Defined.

(** *** Exported names *)

Lemma plan_names_items its comps0 comps :
  initial_components its comps0 -> packed comps0 comps ->
  concat (map names comps) ≡ₚ map name (kept its).
Proof.
  intros Hinit Hpacked.
  pose proof (initial_well_formed _ _ Hinit) as Hwf0.
  pose proof (packed_well_formed _ _ Hwf0 Hpacked) as Hwf.
  rewrite concat_map_names by (intros c Hc; by apply (wf_names _ Hwf)).
  by rewrite (pk_items _ _ Hpacked), (ic_items _ _ Hinit).
Qed.

Lemma join_comma_empty (l : list string) :
  Str.join ", " l = "" -> l = [] \/ l = [""].
Proof.
  destruct l as [|p [|q r]]; [auto | simpl; intros ->; auto |].
  change (Str.join ", " (p :: q :: r)) with (p +:+ ", " +:+ Str.join ", " (q :: r)).
  destruct p; simpl; discriminate.
Qed.

Lemma all_line_exports (nms : list string) : all_line nms = exports_line nms.
Proof. done. Qed.

Lemma render_module_exports c imports ntm :
  exists pre,
    render_module c imports ntm = Str.join newline (pre ++ [exports_line (names c); ""]).
Proof.
  unfold render_module, module_lines. rewrite all_line_exports.
  eexists. by rewrite !app_assoc.
Qed.

Lemma render_init_exports comps doc :
  exists pre,
    render_init comps doc
    = Str.join newline (pre ++ [""; exports_line (init_exports comps); ""]).
Proof.
  unfold render_init, init_lines. rewrite all_line_exports.
  eexists. by rewrite !app_assoc.
Qed.

Lemma plan_and_write_single_plan set_iter depth cfg tree pkg :
  plan_and_write_single set_iter depth cfg tree = Ok (Some pkg) ->
  exists p, plan_single set_iter depth cfg tree = Ok (Some p) /\ pkg = write_package p.
Proof.
  unfold plan_and_write_single.
  destruct (plan_single set_iter depth cfg tree) as [[p|]|e]; [|done..].
  intros [= <-]. eauto.
Qed.

Lemma sorted_set_spec (l : list string) :
  Sorted (fun a b => Str.leb a b = true) (sorted_set l) /\
  NoDup (sorted_set l) /\ forall x, x ∈ sorted_set l <-> x ∈ l.
Proof.
  unfold sorted_set. split_and!.
  - apply (sort_by_sorted Str.leb (fun x : string => x)), by_lower_name_total.
  - rewrite sort_by_perm. apply NoDup_remove_dups.
  - intros x. by rewrite elem_of_sort_by, elem_of_remove_dups.
Qed.

Lemma filter_all {A} (P : A -> Prop) `{forall x, Decision (P x)} (l : list A) :
  (forall x, x ∈ l -> P x) -> filter P l = l.
Proof.
  induction l as [|x l IH]; intros Hl; [done|].
  rewrite filter_cons_True by (apply Hl; by left).
  f_equal. apply IH. intros y Hy. apply Hl. by right.
Qed.

(** C5: the names exported by the modules of the package - the lists in
    the line [__all__] that ends each module - are exactly the top-level
    symbols, none twice and none dropped; the [__all__] that ends
    [__init__.py] is their sorted list without repetition. *)
Theorem exported_names_are_the_symbols
    (set_iter : list string -> list string) (depth : nat) (cfg : packing)
    (tree : module_tree) (pkg : package) :
  (forall it, it ∈ ex_items (extract_top_level_items set_iter tree) -> name it <> "") ->
  plan_and_write_single set_iter depth cfg tree = Ok (Some pkg) ->
  let its := ex_items (extract_top_level_items set_iter tree) in
  exists (exported : list (list string)) (package_exports : list string),
    Forall2 (fun module nms =>
               exists pre,
                 module.2 = Str.join newline (pre ++ [exports_line nms; ""]))
            (pkg_modules pkg) exported /\
    NoDup (concat exported) /\
    (forall x, x ∈ concat exported <-> x ∈ map name its) /\
    (exists pre,
       pkg_init pkg = Str.join newline (pre ++ [""; exports_line package_exports; ""])) /\
    Sorted (fun a b => Str.leb a b = true) package_exports /\
    NoDup package_exports /\
    (forall x, x ∈ package_exports <-> x ∈ map name its).
Proof.
  intros Hnonempty (p & Hp & ->)%plan_and_write_single_plan. cbv zeta.
  apply plan_single_packed in Hp as (comps0 & ntm0 & _ & Hinit & Hpacked & _).
  set (its := ex_items (extract_top_level_items set_iter tree)) in *.
  pose proof (packed_well_formed _ _ (initial_well_formed _ _ Hinit) Hpacked) as Hwf.
  assert (Hin : forall x, x ∈ concat (map names (plan_components p)) <-> x ∈ map name its).
  { intros x. rewrite (plan_names_items _ _ _ Hinit Hpacked), kept_names. apply keys_names. }
  assert (Hall : init_all_names (plan_components p) = concat (map names (plan_components p))).
  { unfold init_all_names. rewrite filter_all; [done|].
    intros c Hc. destruct (String.eqb_spec (Str.join ", " (names c)) "") as [E|]; [|done].
    exfalso. apply join_comma_empty in E as [E|E].
    - by apply (wf_names _ Hwf c Hc).
    - assert (Hx : "" ∈ map name its).
      { apply Hin, elem_of_concat. exists (names c).
        split; [apply elem_of_map; eauto | rewrite E; by left]. }
      apply elem_of_map in Hx as (it & Hname & Hit). by apply (Hnonempty it). }
  destruct (sorted_set_spec (init_all_names (plan_components p))) as (Hs & Hnd & Hel).
  exists (map names (plan_components p)), (init_exports (plan_components p)).
  split_and!.
  - unfold write_package. cbn [pkg_modules].
    apply Forall2_fmap. apply Forall_Forall2_diag, Forall_forall.
    intros c _. cbn [snd]. apply render_module_exports.
  - apply Hwf.
  - done.
  - apply render_init_exports.
  - done.
  - done.
  - intros x. unfold init_exports. by rewrite Hel, Hall.
Qed.

Lemma exported_names_are_the_symbols_witness :
  exists pkg exported,
    plan_and_write_single insertion_order 10 default_packing constant_file = Ok (Some pkg) /\
    Forall2 (fun module nms =>
               exists pre,
                 module.2 = Str.join newline (pre ++ [exports_line nms; ""]))
            (pkg_modules pkg) exported /\
    NoDup (concat exported).
Proof.
  destruct (plan_and_write_single insertion_order 10 default_packing constant_file)
    as [[pkg|]|e] eqn:E; [|vm_compute in E; discriminate..].
  destruct (exported_names_are_the_symbols
              insertion_order 10 default_packing constant_file pkg)
    as (exported & package_exports & Hmods & Hnd & _).
  - apply Forall_forall. vm_compute. repeat (constructor; [discriminate|]). constructor.
  - done.
  - exists pkg, exported. auto.
Defined.

(** *** Source blocks *)

Lemma dict_set_fresh {V} (d : dict V) k v :
  k ∉ dict_keys d -> dict_set k v d = d ++ [(k, v)].
Proof.
  unfold dict_keys. induction d as [|[k0 v0] d IH]; simpl; [done|].
  intros [Hne Hk]%not_elem_of_cons.
  destruct (String.eqb_spec k k0); [done|]. by rewrite IH.
Qed.

(** When no name is bound twice, every item is kept. *)
Lemma kept_all its : NoDup (map name its) -> kept its = its.
Proof.
  unfold kept, item_by_name_of, dict_of, dict_of_from.
  assert (H : forall d : dict TopLevelItem,
    NoDup (dict_keys d ++ map name its) ->
    map snd (fold_left (fun d x => dict_set (name x) x d) its d) = map snd d ++ its).
  { induction its as [|x its IH]; intros d Hnd; simpl.
    - by rewrite app_nil_r.
    - simpl in Hnd. rewrite dict_set_fresh.
      + rewrite IH.
        * by rewrite map_app, <- app_assoc.
        * unfold dict_keys. rewrite map_app, <- app_assoc. done.
      + apply NoDup_app in Hnd as (_ & Hd & _). intros Hx. apply (Hd _ Hx). by left. }
  intros Hnd. by rewrite H.
Qed.

Lemma dict_set_values {V} (k : string) (v : V) (d : dict V) :
  map snd (dict_set k v d) ⊆+ v :: map snd d.
Proof.
  induction d as [|[k' v'] d IH]; simpl; [done|].
  destruct (String.eqb k k'); simpl.
  - apply submseteq_skip, submseteq_cons. done.
  - etrans; [apply submseteq_skip, IH|]. apply Permutation_submseteq, Permutation_swap.
Qed.

(** Every item that is kept is an item of the file, and no item is kept
    twice. *)
Lemma kept_submseteq its : kept its ⊆+ its.
Proof.
  unfold kept, item_by_name_of, dict_of, dict_of_from.
  assert (H : forall d : dict TopLevelItem,
    map snd (fold_left (fun d x => dict_set (name x) x d) its d) ⊆+ map snd d ++ its).
  { induction its as [|x its IH]; intros d; simpl.
    - by rewrite app_nil_r.
    - etrans; [apply IH|]. rewrite <- Permutation_middle.
      change (x :: map snd d ++ its) with ((x :: map snd d) ++ its).
      apply submseteq_app; [apply dict_set_values | done]. }
  apply (H []).
Qed.

Lemma prefix_app (a b : string) : String.prefix a (a +:+ b) = true.
Proof.
  induction a as [|x a IH]; [by destruct b|].
  change (String.prefix (String x a) (String x (a +:+ b)) = true). simpl.
  destruct (ascii_dec x x); [done|congruence].
Qed.

Lemma package_import_lines_prefix ext :
  Forall (fun line => String.prefix "from ." line = true) (package_import_lines ext).
Proof.
  unfold package_import_lines. apply Forall_forall.
  intros line ([md nms] & -> & _)%elem_of_map. apply prefix_app.
Qed.

(** The lines of a module: the header, the imports, one block per item
    and the export list. *)
Lemma render_module_lines c imports ntm :
  exists imports_part,
    Forall (fun line => line = "" \/ line ∈ _dedup_imports imports \/
                        String.prefix "from ." line = true) imports_part /\
    render_module c imports ntm
    = Str.join newline
        ([HEADER] ++ imports_part
         ++ concat (map (fun it => [Str.rstrip (source it); ""]) (items c))
         ++ [exports_line (names c); ""]).
Proof.
  unfold render_module, module_lines, source_blocks. rewrite all_line_exports.
  exists ((match _dedup_imports imports with [] => [] | _ => _dedup_imports imports ++ [""] end)
          ++ package_import_lines (external_deps c ntm)
          ++ (match external_deps c ntm with [] => [] | _ => [""] end)).
  split; [|by rewrite <- !app_assoc].
  repeat apply Forall_app_2.
  - destruct (_dedup_imports imports) as [|i l] eqn:E; [constructor|].
    apply Forall_app_2; [|constructor; [by left | constructor]].
    apply Forall_forall. intros line Hline. right. by left.
  - eapply Forall_impl; [apply package_import_lines_prefix|]. intros line H. right. by right.
  - destruct (external_deps c ntm); [constructor|]. constructor; [by left | constructor].
Qed.

(** C4, as the code has it: every module holds one source block per item
    of its component, with that item's source span stripped on the right,
    between the imports and the export list; no extracted item is in two
    components or twice in one, and when no name is bound twice every
    extracted item is in a component. A span shared by the targets of a
    compound assignment is thus emitted once per target. *)
Theorem one_source_block_per_item
    (set_iter : list string -> list string) (depth : nat) (cfg : packing)
    (tree : module_tree) (p : plan) :
  plan_single set_iter depth cfg tree = Ok (Some p) ->
  let its := ex_items (extract_top_level_items set_iter tree) in
  let comps := plan_components p in
  concat (map items comps) ⊆+ its /\
  (NoDup (map name its) -> concat (map items comps) ≡ₚ its) /\
  forall c, c ∈ comps ->
    exists imports_part,
      Forall (fun line => line = "" \/ line ∈ _dedup_imports (plan_imports p) \/
                          String.prefix "from ." line = true) imports_part /\
      render_module c (plan_imports p) (plan_name_to_module p)
      = Str.join newline
          ([HEADER] ++ imports_part
           ++ concat (map (fun it => [Str.rstrip (source it); ""]) (items c))
           ++ [exports_line (names c); ""]).
Proof.
  intros (comps0 & ntm0 & _ & Hinit & Hpacked & _)%plan_single_packed. cbv zeta.
  assert (H : concat (map items (plan_components p))
              ≡ₚ kept (ex_items (extract_top_level_items set_iter tree))).
  { by rewrite (pk_items _ _ Hpacked), (ic_items _ _ Hinit). }
  split_and!.
  - rewrite H. apply kept_submseteq.
  - intros Hnd. by rewrite H, kept_all.
  - intros c _. apply render_module_lines.
Qed.

Lemma one_source_block_per_item_witness :
  exists p,
    plan_single insertion_order 10 default_packing constant_file = Ok (Some p) /\
    concat (map items (plan_components p))
    ≡ₚ ex_items (extract_top_level_items insertion_order constant_file).
Proof.
  destruct (plan_single insertion_order 10 default_packing constant_file)
    as [[p|]|e] eqn:E; [|vm_compute in E; discriminate..].
  destruct (one_source_block_per_item
              insertion_order 10 default_packing constant_file p E) as (_ & Hall & _).
  exists p. split; [done|]. apply Hall.
  vm_compute. repeat (constructor; [set_solver|]). constructor.
Defined.

(** C4, as stated, fails in two ways. The span of [a = b = 1] is emitted
    twice, once for [a] and once for [b]. And of [x = 1] followed by
    [x = x + 1] the dictionary [item_by_name] holds the second item only: the
    span [x = 1] is emitted nowhere, which is why one block per extracted
    item needs the names to be distinct. *)
Lemma source_span_emitted_twice_or_never :
  (exists p it c,
     plan_single insertion_order 10 default_packing compound_file = Ok (Some p) /\
     it ∈ ex_items (extract_top_level_items insertion_order compound_file) /\
     source it = "a = b = 1" /\
     length (filter (fun b => b = Str.rstrip (source it))
               (emitted_blocks (plan_components p))) = 2 /\
     plan_components p = [c] /\
     render_module c (plan_imports p) (plan_name_to_module p)
     = Str.join newline
         [HEADER; "a = b = 1"; ""; "a = b = 1"; ""; "__all__ = ['a', 'b']"; ""]) /\
  (exists p it c,
     plan_single insertion_order 10 default_packing rebinding_file = Ok (Some p) /\
     it ∈ ex_items (extract_top_level_items insertion_order rebinding_file) /\
     source it = "x = 1" /\
     length (filter (fun b => b = Str.rstrip (source it))
               (emitted_blocks (plan_components p))) = 0 /\
     plan_components p = [c] /\
     render_module c (plan_imports p) (plan_name_to_module p)
     = Str.join newline [HEADER; "x = x + 1"; ""; "__all__ = ['x']"; ""]).
Proof.
  split.
  - eexists. eexists. eexists. split; [vm_compute; reflexivity|].
    split; [vm_compute; left|]. split; [reflexivity|].
    split; [vm_compute; reflexivity|]. split; [reflexivity|]. vm_compute. reflexivity.
  - eexists. eexists. eexists. split; [vm_compute; reflexivity|].
    split; [vm_compute; left|]. split; [reflexivity|].
    split; [vm_compute; reflexivity|]. split; [reflexivity|]. vm_compute. reflexivity.
Qed.

(** *** Order of the source blocks *)

(** C7, as the code has it: a module holds the source blocks of its
    component in the order of the component's item list, followed by
    [__all__] with the names in that same order. A final component is the
    concatenation of components of [build_components], each of which lists
    its items by ascending lower-cased name (shown for names in ASCII). *)
Theorem sources_follow_component_order
    (set_iter : list string -> list string) (depth : nat) (cfg : packing)
    (tree : module_tree) (p : plan) :
  plan_single set_iter depth cfg tree = Ok (Some p) ->
  let its := ex_items (extract_top_level_items set_iter tree) in
  exists comps0 ntm0,
    build_components depth its = Ok (comps0, ntm0) /\
    (forall c0, c0 ∈ comps0 ->
       Forall (fun it => ascii_only (name it)) (items c0) ->
       Sorted by_lower_name (items c0)) /\
    forall c, c ∈ plan_components p ->
      names c = map name (items c) /\
      (exists seeds, seeds <> [] /\ Forall (fun s => s ∈ comps0) seeds /\
         items c = concat (map items seeds)) /\
      exists pre,
        render_module c (plan_imports p) (plan_name_to_module p)
        = Str.join newline
            (pre ++ concat (map (fun it => [Str.rstrip (source it); ""]) (items c))
                 ++ [exports_line (names c); ""]).
Proof.
  intros (comps0 & ntm0 & Hb & Hinit & Hpacked & _)%plan_single_packed. cbv zeta.
  exists comps0, ntm0. split; [done|]. split; [intros c0 Hc0 _; by apply Hinit|].
  intros c Hc.
  pose proof (packed_well_formed _ _ (initial_well_formed _ _ Hinit) Hpacked) as Hwf.
  split_and!.
  - by apply (wf_names _ Hwf).
  - destruct (pk_seeds _ _ Hpacked c Hc) as (seeds & ? & ? & ? & _). eauto.
  - destruct (render_module_lines c (plan_imports p) (plan_name_to_module p))
      as (imports_part & _ & ->).
    exists ([HEADER] ++ imports_part). by rewrite <- !app_assoc.
Qed.

Lemma sources_follow_component_order_witness :
  exists p c,
    plan_single insertion_order 10 default_packing mutual_file = Ok (Some p) /\
    c ∈ plan_components p /\ Sorted by_lower_name (items c).
Proof.
  destruct (plan_single insertion_order 10 default_packing mutual_file)
    as [[p|]|e] eqn:E; [|vm_compute in E; discriminate..].
  destruct (sources_follow_component_order
              insertion_order 10 default_packing mutual_file p E)
    as (comps0 & ntm0 & Hb & Hsorted & Hcomps).
  vm_compute in Hb. injection Hb as <- _.
  pose proof E as Hp'. vm_compute in Hp'. injection Hp' as Hp'.
  eexists p, _. split; [done|]. split.
  - rewrite <- Hp'. left.
  - apply Hsorted; [left|].
    repeat constructor; vm_compute; lia.
Defined.

(** C7, as stated, fails: [g] is defined before [f] in [mutual_file], and
    the module holds the source of [f] before that of [g]. *)
Lemma mutual_functions_emitted_in_name_order :
  exists p c,
    plan_single insertion_order 10 default_packing mutual_file = Ok (Some p) /\
    plan_components p = [c] /\
    map name (ex_items (extract_top_level_items insertion_order mutual_file)) = ["g"; "f"] /\
    map name (items c) = ["f"; "g"] /\
    map node (items c) = [1; 0] /\
    source_blocks c = ["def f(): return g()"; ""; "def g(): return f()"; ""].
Proof.
  eexists. eexists. split; [vm_compute; reflexivity|].
  split; [reflexivity|]. split; [vm_compute; reflexivity|].
  split; [reflexivity|]. split; [reflexivity|]. vm_compute. reflexivity.
Qed.

(** *** Packing of small components *)

Lemma merge_while_above_keeps_pinned turns bound c :
  pinned c = true ->
  forall comps, c ∈ comps -> c ∈ merge_while_above turns bound comps.
Proof.
  intros Hpin. induction turns as [|turns IH]; intros comps Hc; simpl; [done|].
  destruct (bound <? _)%Z; [|done].
  destruct (merge_smallest_once comps) as [comps'|] eqn:E; [|done].
  apply merge_smallest_once_inv in E as (a & b & _ & _ & Ha & Hb & _ & ->).
  apply IH, elem_of_app. left. apply list_elem_of_filter. split; [|done].
  intros [->|Hin%list_elem_of_singleton]%elem_of_cons; [|subst]; congruence.
Qed.

Lemma merge_small_loop_keeps_pinned turns min_lines c :
  pinned c = true ->
  forall comps, c ∈ comps -> c ∈ merge_small_loop turns min_lines comps.
Proof.
  intros Hpin. induction turns as [|turns IH]; intros comps Hc; simpl; [done|].
  destruct (merge_small_once min_lines comps) as [comps'|] eqn:E; [|done].
  apply merge_small_once_inv in E as (a & b & _ & _ & Ha & Hb & _ & ->).
  apply IH, elem_of_app. left. apply list_elem_of_filter. split; [|done].
  intros [->|Hin%list_elem_of_singleton]%elem_of_cons; [|subst]; congruence.
Qed.

(** *** What the other components are made of *)

Lemma built_from_one (B : Component -> Prop) c : B c -> built_from B c.
Proof.
  intros H. exists [c]. simpl. rewrite !app_nil_r.
  split_and!; [done | by constructor | done | done].
Qed.

Lemma built_from_app (B : Component -> Prop) a b m :
  built_from B a -> built_from B b ->
  items m = items a ++ items b -> names m = names a ++ names b ->
  built_from B m.
Proof.
  intros (sa & Ha & Hfa & Hia & Hna) (sb & Hb & Hfb & Hib & Hnb) Hi Hn.
  exists (sa ++ sb). split_and!.
  - by destruct sa.
  - by apply Forall_app.
  - by rewrite Hi, Hia, Hib, map_app, concat_app.
  - by rewrite Hn, Hna, Hnb, map_app, concat_app.
Qed.

Lemma built_from_fold_merge (B : Component -> Prop) rest :
  forall first, built_from B first -> Forall (built_from B) rest ->
    built_from B (fold_left (fun m c => merge_components m c None) rest first).
Proof.
  induction rest as [|c rest IH]; intros first Hf Hr; simpl; [done|].
  apply Forall_cons in Hr as [Hc Hr]. apply IH; [|done].
  by apply (built_from_app B first c).
Qed.

(** Merging two components other than [k] leaves [k] apart. *)
Lemma merge_pair_apart (B : Component -> Prop) k comps a b :
  a ∈ comps -> b ∈ comps -> a <> k -> b <> k ->
  (forall c, c ∈ comps -> c = k \/ built_from B c) ->
  forall c, c ∈ filter (fun c => c ∉ [a; b]) comps ++ [merge_components a b None] ->
    c = k \/ built_from B c.
Proof.
  intros Ha Hb Hak Hbk H c [[_ Hc]%list_elem_of_filter | Hc%list_elem_of_singleton]%elem_of_app;
    [by apply H|].
  subst c. right.
  destruct (H a Ha) as [?|Hba]; [done|]. destruct (H b Hb) as [?|Hbb]; [done|].
  by apply (built_from_app B a b).
Qed.

Lemma merge_while_above_apart (B : Component -> Prop) k turns bound :
  pinned k = true ->
  forall comps, (forall c, c ∈ comps -> c = k \/ built_from B c) ->
    forall c, c ∈ merge_while_above turns bound comps -> c = k \/ built_from B c.
Proof.
  intros Hpin. induction turns as [|turns IH]; intros comps H; simpl; [done|].
  destruct (bound <? _)%Z; [|done].
  destruct (merge_smallest_once comps) as [comps'|] eqn:E; [|done].
  apply merge_smallest_once_inv in E as (a & b & Ha & Hb & Hpa & Hpb & _ & ->).
  apply IH. apply merge_pair_apart; try done; congruence.
Qed.

Lemma merge_small_loop_apart (B : Component -> Prop) k turns min_lines :
  pinned k = true ->
  forall comps, (forall c, c ∈ comps -> c = k \/ built_from B c) ->
    forall c, c ∈ merge_small_loop turns min_lines comps -> c = k \/ built_from B c.
Proof.
  intros Hpin. induction turns as [|turns IH]; intros comps H; simpl; [done|].
  destruct (merge_small_once min_lines comps) as [comps'|] eqn:E; [|done].
  apply merge_small_once_inv in E as (a & b & Ha & Hb & Hpa & Hpb & _ & ->).
  apply IH. apply merge_pair_apart; try done; congruence.
Qed.

Lemma merge_all_into_apart (B : Component -> Prop) k new_name chosen comps :
  (forall c, c ∈ chosen -> c ∈ comps /\ c <> k) ->
  (forall c, c ∈ comps -> c = k \/ built_from B c) ->
  forall c, c ∈ merge_all_into new_name chosen comps -> c = k \/ built_from B c.
Proof.
  intros Hchosen H. unfold merge_all_into.
  destruct chosen as [|first [|second rest]]; [done..|].
  intros c [[_ Hc]%list_elem_of_filter | Hc%list_elem_of_singleton]%elem_of_app;
    [by apply H|].
  subst c. right.
  assert (Hall : Forall (built_from B) (first :: second :: rest)).
  { apply Forall_forall. intros c Hc. destruct (Hchosen c Hc) as [Hin Hne].
    by destruct (H c Hin). }
  apply Forall_cons in Hall as [Hf Hr].
  destruct (built_from_fold_merge B (second :: rest) first Hf Hr)
    as (seeds & ? & ? & Hi & Hn).
  exists seeds. done.
Qed.

(** The steps that follow the packing of small components keep a reserved
    component and what holds of the others. *)
Lemma size_steps_keep (P : list Component -> Prop) (cfg : packing) (comps2 : list Component) :
  (forall turns bound comps, P comps -> P (merge_while_above turns bound comps)) ->
  (forall turns min_lines comps, P comps -> P (merge_small_loop turns min_lines comps)) ->
  P comps2 ->
  P (let comps := if (max_modules cfg =? 0)%Z then comps2
                  else merge_down_to (max_modules cfg) comps2 in
     let comps := if (0 <? min_module_lines cfg)%Z
                  then enforce_min_lines (min_module_lines cfg) comps else comps in
     match target_modules cfg with
     | Some t => if (0 <? t)%Z then merge_down_to t comps else comps
     | None => comps
     end).
Proof.
  intros Hw Hs H2. cbv zeta.
  assert (H3 : P (if (max_modules cfg =? 0)%Z then comps2
                  else merge_down_to (max_modules cfg) comps2)).
  { destruct (_ =? 0)%Z; [done|]. by apply Hw. }
  revert H3. generalize (if (max_modules cfg =? 0)%Z then comps2
                         else merge_down_to (max_modules cfg) comps2).
  intros comps3 H3.
  assert (H4 : P (if (0 <? min_module_lines cfg)%Z
                  then enforce_min_lines (min_module_lines cfg) comps3 else comps3)).
  { destruct (0 <? _)%Z; [|done]. by apply Hs. }
  revert H4. generalize (if (0 <? min_module_lines cfg)%Z
                         then enforce_min_lines (min_module_lines cfg) comps3 else comps3).
  intros comps4 H4.
  destruct (target_modules cfg) as [t|]; [|done].
  destruct (0 <? t)%Z; [|done]. by apply Hw.
Qed.

(** A reserved component [k] lasts through these steps, apart from the
    others. *)
Lemma size_steps_apart (B : Component -> Prop) k (cfg : packing) (comps2 : list Component) :
  pinned k = true -> k ∈ comps2 ->
  (forall c, c ∈ comps2 -> c = k \/ built_from B c) ->
  let final :=
    (let comps := if (max_modules cfg =? 0)%Z then comps2
                  else merge_down_to (max_modules cfg) comps2 in
     let comps := if (0 <? min_module_lines cfg)%Z
                  then enforce_min_lines (min_module_lines cfg) comps else comps in
     match target_modules cfg with
     | Some t => if (0 <? t)%Z then merge_down_to t comps else comps
     | None => comps
     end) in
  k ∈ final /\ forall c, c ∈ final -> c = k \/ built_from B c.
Proof.
  intros Hpin Hin H.
  apply (size_steps_keep
           (fun l => k ∈ l /\ forall c, c ∈ l -> c = k \/ built_from B c)); [| |done].
  - intros turns bound comps [? ?]. split.
    + by apply merge_while_above_keeps_pinned.
    + by apply merge_while_above_apart.
  - intros turns min_lines comps [? ?]. split.
    + by apply merge_small_loop_keeps_pinned.
    + by apply merge_small_loop_apart.
Qed.

(** Two components of a list without repeated names that share a name are
    the same. *)
Lemma shared_name_same (comps : list Component) c c' n :
  NoDup (concat (map names comps)) ->
  c ∈ comps -> c' ∈ comps -> n ∈ names c -> n ∈ names c' -> c = c'.
Proof.
  induction comps as [|c0 comps IH]; intros Hnd Hc Hc' Hn Hn'; [by apply elem_of_nil in Hc|].
  simpl in Hnd. apply NoDup_app in Hnd as (_ & Hdisj & Hnd).
  assert (Hrest : forall d, d ∈ comps -> n ∈ names d -> n ∈ concat (map names comps)).
  { intros d Hd Hnd'. apply elem_of_concat. exists (names d).
    split; [apply elem_of_map; eauto | done]. }
  apply elem_of_cons in Hc as [->|Hc], Hc' as [->|Hc'].
  - done.
  - exfalso. apply (Hdisj n Hn). by apply (Hrest c').
  - exfalso. apply (Hdisj n Hn'). by apply (Hrest c).
  - by apply IH.
Qed.

(** C8, as the code has it: with a positive threshold, the components
    (after the grouping of constants) that are below the threshold and do
    not consist of assignments only are merged into one component named
    [core] when there are at least two of them. [core] is among the final
    components, the later merge steps leave it as it is, and every other
    final component is made of components that are not small: among
    components that share no name, a name of a small component is held by
    [core] alone. A single small component is left as it is: the result is
    that of the packing without this step. *)
Theorem small_components_packed_into_core (cfg : packing) (comps : list Component) :
  (0 < pack_small_lines cfg)%Z ->
  let grouped := if group_assignments cfg then group_constants comps else comps in
  let small := filter (fun c => is_small (pack_small_lines cfg) c = true) grouped in
  let final := (repack_components cfg comps).1 in
  (forall c, c ∈ small <->
     c ∈ grouped /\ (Z.of_nat (_comp_lines c) < pack_small_lines cfg)%Z /\
     _assign_only c = false) /\
  (2 <= length small ->
   exists core,
     core ∈ final /\
     module_name core = "core" /\
     names core = concat (map names small) /\
     items core = concat (map items small) /\
     (forall c, c ∈ final ->
        c = core \/ built_from (fun s => s ∈ grouped /\ s ∉ small) c) /\
     (well_formed comps ->
        forall c n, c ∈ final -> n ∈ names c -> n ∈ names core -> c = core)) /\
  (length small < 2 ->
   repack_components cfg comps = repack_components (without_small_packing cfg) comps).
Proof.
  intros Hpos. cbv zeta.
  set (grouped := if group_assignments cfg then group_constants comps else comps) in *.
  split_and!.
  - intros c. rewrite list_elem_of_filter. unfold is_small.
    rewrite andb_true_iff, Z.ltb_lt, negb_true_iff. tauto.
  - intros Hlen.
    assert (Hfinal : (repack_components cfg comps).1 =
      (let comps2 := pack_core (pack_small_lines cfg) grouped in
       let comps := if (max_modules cfg =? 0)%Z then comps2
                    else merge_down_to (max_modules cfg) comps2 in
       let comps := if (0 <? min_module_lines cfg)%Z
                    then enforce_min_lines (min_module_lines cfg) comps else comps in
       match target_modules cfg with
       | Some t => if (0 <? t)%Z then merge_down_to t comps else comps
       | None => comps
       end)).
    { unfold repack_components. simpl. fold grouped.
      by rewrite (proj2 (Z.ltb_lt _ _) Hpos). }
    unfold pack_core, merge_all_into in Hfinal.
    remember (filter (fun c => is_small (pack_small_lines cfg) c = true) grouped)
      as small eqn:E.
    destruct small as [|first [|second rest]]; [simpl in Hlen; lia..|].
    set (core := rename (fold_left (fun m c => merge_components m c None)
                           (second :: rest) first) "core") in *.
    set (comps2 := filter (fun c => c ∉ first :: second :: rest) grouped ++ [core]) in *.
    assert (Hpin : pinned core = true) by done.
    assert (Hin : core ∈ comps2) by (apply elem_of_app; right; by left).
    assert (Hnames : names core = concat (map names (first :: second :: rest))).
    { unfold core. cbn [names rename]. by rewrite fold_merge_names. }
    assert (Hitems : items core = concat (map items (first :: second :: rest))).
    { unfold core. cbn [items rename]. by rewrite fold_merge_items. }
    assert (H2 : forall c, c ∈ comps2 ->
      c = core \/ built_from (fun s => s ∈ grouped /\ s ∉ first :: second :: rest) c).
    { intros c [[Hc Hcg]%list_elem_of_filter | Hc%list_elem_of_singleton]%elem_of_app;
        [right | by left].
      by apply built_from_one. }
    pose proof (size_steps_apart _ core cfg comps2 Hpin Hin H2) as Hsteps.
    cbv zeta in Hfinal, Hsteps. rewrite <- Hfinal in Hsteps.
    destruct Hsteps as [Hk Hothers].
    exists core. split_and!; [done | done | done | done | done |].
    intros Hwf c n Hc Hn Hn'.
    apply (shared_name_same (repack_components cfg comps).1 c core n); try done.
    apply (packed_well_formed comps); [done | by apply packed_repack].
  - intros Hlen. unfold repack_components. simpl. fold grouped.
    rewrite (proj2 (Z.ltb_lt _ _) Hpos).
    unfold pack_core, merge_all_into.
    destruct (filter (fun c => is_small (pack_small_lines cfg) c = true) grouped)
      as [|first [|second rest]]; [done | done | simpl in Hlen; lia].
Qed.

Lemma small_components_packed_into_core_witness :
  exists core,
    core ∈ (repack_components default_packing constant_components).1 /\
    module_name core = "core" /\ map name (items core) = ["f"; "g"].
Proof.
  destruct (small_components_packed_into_core default_packing constant_components)
    as (_ & Hcore & _).
  - reflexivity.
  - destruct Hcore as (core & Hin & Hname & _ & Hitems & _).
    + vm_compute. lia.
    + exists core. split; [done|]. split; [done|]. rewrite Hitems. vm_compute. reflexivity.
Defined.

(** C8, as stated, fails: the component of the constant [x] has one line,
    is not reserved, and stays outside [core]. *)
Lemma small_constant_component_not_packed :
  exists p c core,
    plan_single insertion_order 10 default_packing constant_file = Ok (Some p) /\
    plan_components p = [c; core] /\
    module_name c = "x" /\ names c = ["x"] /\ pinned c = false /\
    (Z.of_nat (_comp_lines c) < pack_small_lines default_packing)%Z /\
    module_name core = "core" /\ names core = ["f"; "g"].
Proof.
  eexists. eexists. eexists. split; [vm_compute; reflexivity|].
  split; [reflexivity|]. split; [reflexivity|]. split; [reflexivity|].
  split; [reflexivity|]. split; [vm_compute; reflexivity|]. split; reflexivity.
Qed.

(** *** Assignments without a plain-name target *)

Lemma extract_statement_no_target pos s acc :
  no_name_target (stmt_node s) -> extract_statement pos s acc = acc.
Proof.
  destruct acc as [[its imports] main]. unfold extract_statement.
  destruct (stmt_node s) as [| | | | | | |targets value|target ann value|]; simpl; try done.
  - intros Hall. assert (E : omap (fun t =>
        (fun id => new_item id KAssign pos (stmt_segment s)) <$> name_target t) targets = []).
    { induction Hall as [|t ts Ht _ IH]; simpl; [done|]. by rewrite Ht. }
    by rewrite E, app_nil_r.
  - by intros ->.
Qed.

Lemma extract_statement_pass pos acc : extract_statement pos pass_stmt acc = acc.
Proof. by destruct acc as [[its imports] main]. Qed.

#[local] Arguments is_main_guard : simpl never.

(** The items a statement adds carry its position. *)
Lemma extract_statement_items pos s acc it :
  it ∈ acc_items (extract_statement pos s acc) -> it ∈ acc_items acc \/ node it = pos.
Proof.
  destruct acc as [[its imports] main]. unfold extract_statement, acc_items.
  destruct (stmt_node s) as
    [| | |test body orelse| | | |targets value|target ann value|]; simpl; auto;
    try (destruct (is_main_guard _); simpl; auto; fail).
  - intros [?|?%list_elem_of_singleton]%elem_of_app; [auto | subst; auto].
  - intros [?|?%list_elem_of_singleton]%elem_of_app; [auto | subst; auto].
  - intros [?|(t & _ & Ht)%list_elem_of_omap]%elem_of_app; [auto|].
    destruct (name_target t); simplify_eq/=. auto.
  - destruct (name_target target); simpl; [|auto].
    intros [?|?%list_elem_of_singleton]%elem_of_app; [auto | subst; auto].
Qed.

(** The items a statement adds do not depend on what was collected. *)
Lemma extract_statement_new pos s its imports main it :
  it ∈ acc_items (extract_statement pos s (its, imports, main)) ->
  it ∈ its \/ it ∈ acc_items (extract_statement pos s ([], [], None)).
Proof.
  unfold extract_statement, acc_items.
  destruct (stmt_node s) as
    [| | |test body orelse| | | |targets value|target ann value|]; simpl; auto;
    try (destruct (is_main_guard _); simpl; auto; fail).
  - intros [?|?]%elem_of_app; auto.
  - intros [?|?]%elem_of_app; auto.
  - intros [?|?]%elem_of_app; auto.
  - destruct (name_target target); simpl; [|auto].
    intros [?|?]%elem_of_app; auto.
Qed.

Lemma extract_statements_items body :
  forall pos acc it,
    it ∈ acc_items (extract_statements pos body acc) ->
    it ∈ acc_items acc \/
    exists i s, body !! i = Some s /\ node it = pos + i /\
      it ∈ acc_items (extract_statement (pos + i) s ([], [], None)).
Proof.
  induction body as [|s body IH]; intros pos acc it; simpl; [auto|].
  intros [Hit|(i & s' & Hi & Hn & Hs)]%IH.
  - destruct acc as [[its imports] main].
    apply extract_statement_new in Hit as [?|Hnew]; [by left|]. right.
    exists 0, s. rewrite Nat.add_0_r. split; [done|]. split; [|done].
    by destruct (extract_statement_items pos s ([], [], None) it Hnew) as [?%elem_of_nil|?].
  - right. exists (S i), s'. replace (pos + S i) with (S pos + i) by lia. done.
Qed.

Lemma extract_statements_app l1 l2 :
  forall pos acc,
    extract_statements pos (l1 ++ l2) acc
    = extract_statements (pos + length l1) l2 (extract_statements pos l1 acc).
Proof.
  induction l1 as [|s l1 IH]; intros pos acc; simpl.
  - by rewrite Nat.add_0_r.
  - rewrite IH. f_equal. lia.
Qed.

(** C10, as the code has it: an assignment none of whose targets is a
    plain name makes no item, and the items, the plan and the package are
    those of the same file with [pass] in the place of the statement. *)
Theorem assignment_without_name_target_makes_no_item
    (set_iter : list string -> list string) (depth : nat) (cfg : packing)
    (pre post : list statement) (s : statement) (doc : option string) :
  no_name_target (stmt_node s) ->
  let tree := {| tree_body := pre ++ s :: post; tree_docstring := doc |} in
  let tree' := {| tree_body := pre ++ pass_stmt :: post; tree_docstring := doc |} in
  (forall it, it ∈ ex_items (extract_top_level_items set_iter tree) ->
     node it <> length pre) /\
  extract_top_level_items set_iter tree = extract_top_level_items set_iter tree' /\
  plan_and_write_single set_iter depth cfg tree
  = plan_and_write_single set_iter depth cfg tree'.
Proof.
  intros Hs tree tree'.
  assert (Hfirst : extract_statements 0 (pre ++ s :: post) ([], [], None)
                 = extract_statements 0 (pre ++ pass_stmt :: post) ([], [], None)).
  { rewrite !extract_statements_app. simpl.
    by rewrite extract_statement_no_target, extract_statement_pass. }
  assert (Hnodes : forall it,
    it ∈ acc_items (extract_statements 0 (pre ++ s :: post) ([], [], None)) ->
    node it <> length pre).
  { intros it [?%elem_of_nil|(i & s' & Hi & Hn & Hnew)]%extract_statements_items; [done|].
    simpl in Hn. subst i. intros E. rewrite E in Hi, Hnew.
    rewrite list_lookup_middle in Hi by done. injection Hi as <-.
    rewrite extract_statement_no_target in Hnew by done. by apply elem_of_nil in Hnew. }
  assert (Hextract : extract_top_level_items set_iter tree
                   = extract_top_level_items set_iter tree').
  { unfold extract_top_level_items, tree, tree'. cbn [tree_body tree_docstring].
    rewrite <- Hfirst.
    match goal with
    | |- context [extract_statements ?a ?b ?c] =>
        destruct (extract_statements a b c) as [p main] eqn:E
    end.
    destruct p as [its imports].
    f_equal. apply map_ext_in. intros it Hit%list_elem_of_In.
    unfold with_deps.
    assert (Hn : node it <> length pre) by (apply Hnodes; exact Hit).
    assert (Hlook : (pre ++ s :: post) !! node it = (pre ++ pass_stmt :: post) !! node it).
    { destruct (decide (node it < length pre)) as [Hlt|Hge].
      - by rewrite !lookup_app_l.
      - rewrite !lookup_app_r by lia.
        destruct (node it - length pre) as [|k] eqn:Ek; [lia | done]. }
    by rewrite Hlook. }
  split_and!.
  - intros it Hit.
    unfold extract_top_level_items, tree in Hit. cbn [tree_body tree_docstring] in Hit.
    match type of Hit with
    | context [extract_statements ?a ?b ?c] =>
        destruct (extract_statements a b c) as [[its imports] main]
    end.
    cbn [ex_items] in Hit.
    apply elem_of_map in Hit as (it0 & -> & Hit0). by apply (Hnodes it0).
  - done.
  - unfold plan_and_write_single, plan_single. by rewrite Hextract.
Qed.

Lemma assignment_without_name_target_makes_no_item_witness :
  map name (ex_items (extract_top_level_items insertion_order unpacking_file)) = ["a"] /\
  plan_and_write_single insertion_order 10 default_packing unpacking_file
  = plan_and_write_single insertion_order 10 default_packing
      (file [assign_stmt [Name "a" Store] "a = 1"; pass_stmt]).
Proof.
  destruct (assignment_without_name_target_makes_no_item insertion_order 10 default_packing
              [assign_stmt [Name "a" Store] "a = 1"] []
              (assign_stmt [Node [Name "a" Store; Name "b" Store]] "a, b = 1, 2") None)
    as (_ & _ & H).
  - simpl. repeat constructor.
  - split; [reflexivity | exact H].
Defined.

(** C10, as stated, fails: [a, b = 1, 2] binds [a], and [a] is exported,
    being bound by [a = 1] as well. *)
Lemma unpacked_name_is_exported :
  exists p s t v,
    plan_single insertion_order 10 default_packing unpacking_file = Ok (Some p) /\
    tree_body unpacking_file !! 1 = Some s /\
    stmt_node s = Assign [t] v /\ name_target t = None /\
    "a" ∈ stored_names t /\
    "a" ∈ concat (map names (plan_components p)) /\
    "a" ∈ init_exports (plan_components p).
Proof.
  eexists. eexists. eexists. eexists. split; [vm_compute; reflexivity|].
  split; [reflexivity|]. split; [reflexivity|]. split; [reflexivity|].
  split; [vm_compute; left|]. split; vm_compute; left.
Qed.
(** * Further properties *)

(** ** Names of modules *)

Lemma length_lstrip_l p l : length (Str.lstrip_l p l) <= length l.
Proof. induction l as [|c r IH]; simpl; [lia|]. destruct (p c); simpl; lia. Qed.

Lemma length_rstrip_l p l : length (Str.rstrip_l p l) <= length l.
Proof.
  induction l as [|c r IH]; simpl; [lia|].
  destruct (Str.rstrip_l p r); [destruct (p c)|]; simpl in *; lia.
Qed.

Lemma lstrip_l_head p l c : Str.lstrip_l p l = l -> head l = Some c -> p c = false.
Proof.
  destruct l as [|a r]; [done|]. simpl. intros H [= ->].
  destruct (p c) eqn:E; [|done].
  pose proof (length_lstrip_l p r) as Hlen. rewrite H in Hlen. simpl in Hlen. lia.
Qed.

Lemma rstrip_l_cons p c r :
  Str.rstrip_l p (c :: r) =
  match Str.rstrip_l p r with
  | [] => if p c then [] else [c]
  | x :: r' => c :: x :: r'
  end.
Proof. reflexivity. Qed.

Lemma rstrip_l_last p l c : Str.rstrip_l p l = l -> last l = Some c -> p c = false.
Proof.
  induction l as [|a r IH]; [done|]. rewrite rstrip_l_cons.
  destruct r as [|b r'].
  - simpl. intros H [= Hac]. subst. by destruct (p c).
  - intros H Hlast. apply IH; [|done].
    destruct (Str.rstrip_l p (b :: r')) as [|x r''].
    + destruct (p a); discriminate.
    + congruence.
Qed.

Lemma rstrip_l_cons_keep p c l : p c = false -> exists r, Str.rstrip_l p (c :: l) = c :: r.
Proof.
  intros Hc. simpl. destruct (Str.rstrip_l p l) as [|x r]; [|by eexists].
  rewrite Hc. by eexists.
Qed.

Lemma to_list_append (a b : string) : Str.to_list (a +:+ b) = Str.to_list a ++ Str.to_list b.
Proof. induction a as [|c a IH]; simpl; [done|]. by rewrite <- IH. Qed.

Lemma to_list_of_list l : Str.to_list (Str.of_list l) = l.
Proof. apply list_ascii_of_string_of_list_ascii. Qed.

Lemma of_list_to_list s : Str.of_list (Str.to_list s) = s.
Proof. apply string_of_list_ascii_of_string. Qed.

Lemma length_to_list s : length (Str.to_list s) = String.length s.
Proof. induction s as [|c s IH]; simpl; [done|]. by rewrite IH. Qed.

Lemma normalised_name_part y : normalised y -> name_part y.
Proof.
  intros [Hch Hl Ht Hne Hd Hk]. split_and!; try done.
  - intros Hh. by pose proof (lstrip_l_head _ _ _ Hl Hh).
  - intros Hh. by pose proof (rstrip_l_last _ _ _ Ht Hh).
Qed.

Lemma name_part_join a b :
  name_part a -> name_part b -> name_part (a ++ "_"%char :: b).
Proof.
  intros (Ha & Hca & Hda & Hha & _) (Hb & Hcb & _ & _ & Hlb).
  destruct a as [|x a]; [done|]. split_and!; try done.
  - apply Forall_app. split; [done|]. by constructor.
  - rewrite last_app. destruct b as [|y b]; [done|].
    rewrite last_cons_cons. destruct (last (y :: b)) eqn:E; [done|].
    by apply last_None in E.
Qed.

Lemma name_part_truncate a n :
  0 < n -> name_part a ->
  name_part (Str.rstrip_l Str.is_underscore (take n a)) /\
  length (Str.rstrip_l Str.is_underscore (take n a)) <= n.
Proof.
  intros Hn (Ha & Hca & Hda & Hha & _).
  destruct a as [|x a]; [done|]. destruct n as [|n]; [lia|]. simpl take.
  assert (Hx : Str.is_underscore x = false).
  { destruct (Str.is_underscore x) eqn:E; [|done]. exfalso. apply Hha. simpl. f_equal.
    unfold Str.is_underscore, Str.code in E. apply Nat.eqb_eq in E.
    rewrite <- (ascii_nat_embedding x), E. reflexivity. }
  destruct (rstrip_l_cons_keep Str.is_underscore x (take n a) Hx) as [r Hr].
  split.
  - split_and!.
    + by rewrite Hr.
    + apply rstrip_l_Forall. change (x :: take n a) with (take (S n) (x :: a)).
      by apply Forall_take.
    + by rewrite Hr.
    + rewrite Hr. simpl. intros [= ->]. done.
    + intros Hl. pose proof (rstrip_l_last Str.is_underscore _ "_"%char
                               (rstrip_l_idemp _ _) Hl). done.
  - etrans; [apply length_rstrip_l|]. simpl. rewrite length_take. lia.
Qed.

(** X1: whatever the input, [to_snake] returns a name that can stand for a
    module: not empty, made of lower-case letters, digits and underscores,
    not starting with a digit, not a keyword, and with no underscore at
    either end. *)
Theorem to_snake_gives_module_name (s : string) :
  let y := Str.to_list (to_snake s) in
  y <> [] /\ Forall (fun c => snake_char c = true) y /\
  starts_with_digit y = false /\ iskeyword (to_snake s) = false /\
  head y <> Some "_"%char /\ last y <> Some "_"%char.
Proof.
  cbv zeta. unfold to_snake. rewrite to_list_of_list.
  pose proof (to_snake_l_is_normalised (Str.to_list s)) as Hn.
  destruct (normalised_name_part _ Hn) as (? & ? & ? & ? & ?).
  split_and!; try done. apply Hn.
Qed.

Lemma to_snake_name_part s : name_part (Str.to_list (to_snake s)).
Proof.
  unfold to_snake. rewrite to_list_of_list.
  apply normalised_name_part, to_snake_l_is_normalised.
Qed.

Lemma module_base_name_part (extras : list string) :
  Forall (fun p => name_part (Str.to_list p)) extras ->
  forall base, name_part (Str.to_list base) ->
    name_part (Str.to_list
      (fold_left
         (fun base extra => if String.length base <? 20 then base +:+ "_" +:+ extra else base)
         extras base)).
Proof.
  induction 1 as [|p extras Hp _ IH]; intros base Hb; simpl; [done|].
  apply IH. destruct (String.length base <? 20); [|done].
  rewrite !to_list_append. by apply name_part_join.
Qed.

(** X2: the module name made for a component is never empty, has at most
    forty characters, all of them lower-case letters, digits or
    underscores, starts neither with a digit nor with an underscore, and
    does not end in an underscore - whatever names the component has. *)
Theorem module_name_for_component_shape (nms : list string) :
  let y := Str.to_list (module_name_for_component nms) in
  length y <= 40 /\ y <> [] /\ Forall (fun c => snake_char c = true) y /\
  starts_with_digit y = false /\
  head y <> Some "_"%char /\ last y <> Some "_"%char.
Proof.
  cbv zeta. unfold module_name_for_component. cbv zeta.
  set (parts := map to_snake (filter (fun n => n <> "") nms)).
  assert (Hparts : Forall (fun p => name_part (Str.to_list p)) parts).
  { unfold parts. apply Forall_forall. intros p (n & -> & _)%elem_of_map.
    apply to_snake_name_part. }
  set (base0 := match parts with p :: _ => p | [] => "module" end).
  assert (H0 : name_part (Str.to_list base0)).
  { unfold base0. destruct parts as [|p ?].
    - split_and!; try done. repeat constructor.
    - by apply Forall_cons in Hparts as [? _]. }
  set (base1 := fold_left _ (take 2 (drop 1 parts)) base0).
  assert (H1 : name_part (Str.to_list base1)).
  { apply module_base_name_part; [|done]. by apply Forall_take, Forall_drop. }
  clearbody base1. clear H0 Hparts.
  set (base2 := if 40 <? String.length base1 then _ else base1).
  assert (H2 : name_part (Str.to_list base2) /\ length (Str.to_list base2) <= 40).
  { unfold base2. destruct (40 <? String.length base1) eqn:E.
    - rewrite to_list_of_list. apply name_part_truncate; [lia|done].
    - split; [done|]. apply Nat.ltb_ge in E. by rewrite length_to_list. }
  clearbody base2. destruct H2 as [H2 Hlen].
  destruct (String.eqb_spec base2 "") as [->|_].
  - by destruct H2 as [? _].
  - destruct H2 as (? & ? & ? & ? & ?). done.
Qed.

(** X3: [ensure_unique_module_name] returns a name that was not in use and
    records it; the name is the base itself when that is free, and otherwise
    the base with the least suffix [_2], [_3], ... that is free. *)
Theorem ensure_unique_module_name_least_suffix (base : string) (used : gset string) :
  let name := (ensure_unique_module_name base used).1 in
  let used' := (ensure_unique_module_name base used).2 in
  name ∉ used /\ used' = {[name]} ∪ used /\
  (base ∉ used -> name = base) /\
  (base ∈ used ->
     exists i, 2 <= i /\ name = suffixed base i /\
       forall k, 2 <= k < i -> suffixed base k ∈ used).
Proof.
  cbv zeta. destruct (ensure_unique_module_name_spec base used) as [Hfresh Hused].
  split; [done|]. split; [done|].
  unfold ensure_unique_module_name. case_bool_decide as Hb; simpl.
  - split; [done|]. intros ?. done.
  - split; [intros ?; done|]. intros _.
    exists (first_free_suffix base used (S (size used)) 2).
    pose proof (first_free_suffix_spec base used (S (size used)) 2) as H.
    cbv zeta in H. destruct H as (Hrange & Hbelow & _).
    split; [lia|]. split; [done|]. exact Hbelow.
Qed.

Lemma rename_same c : rename c (module_name c) = c.
Proof. by destruct c. Qed.

Lemma uniquify_unchanged comps :
  forall used, NoDup (map module_name comps) ->
    (forall c, c ∈ comps -> module_name c ∉ used) ->
    uniquify comps used = comps.
Proof.
  induction comps as [|c comps IH]; intros used Hnd Hfree; simpl; [done|].
  apply NoDup_cons in Hnd as [Hc Hnd].
  unfold ensure_unique_module_name.
  rewrite bool_decide_eq_true_2 by (apply Hfree; by left).
  rewrite rename_same. f_equal. apply IH; [done|].
  intros c' Hc'. rewrite elem_of_union, elem_of_singleton. intros [Heq|Hin].
  - apply Hc. rewrite <- Heq. apply elem_of_map. eauto.
  - eapply Hfree; [by right|done].
Qed.

Lemma uniquify_suffixes comps :
  forall used,
    Forall2 (fun c c' =>
               module_name c' = module_name c \/
               exists i, 2 <= i /\ module_name c' = suffixed (module_name c) i)
            comps (uniquify comps used).
Proof.
  induction comps as [|c comps IH]; intros used; simpl; [constructor|].
  destruct (ensure_unique_module_name (module_name c) used) as [m used'] eqn:E.
  constructor; [|apply IH].
  unfold ensure_unique_module_name in E. case_bool_decide as Hb.
  - injection E as <- <-. by left.
  - injection E as <- <-. right.
    exists (first_free_suffix (module_name c) used (S (size used)) 2). split; [|done].
    pose proof (first_free_suffix_spec (module_name c) used (S (size used)) 2) as H.
    cbv zeta in H. lia.
Qed.

(** X4: the collision guard that runs right before rendering leaves the
    names and items of every component as they are, makes the module names
    pairwise distinct by adding integer suffixes from 2 on, and changes
    nothing when the module names are distinct already. *)
Theorem collision_guard_makes_names_distinct (comps : list Component) :
  let comps' := uniquify comps ∅ in
  NoDup (map module_name comps') /\
  map names comps' = map names comps /\
  map items comps' = map items comps /\
  Forall2 (fun c c' =>
             module_name c' = module_name c \/
             exists i, 2 <= i /\ module_name c' = suffixed (module_name c) i)
          comps comps' /\
  (NoDup (map module_name comps) -> comps' = comps).
Proof.
  cbv zeta. split_and!.
  - apply uniquify_distinct.
  - apply uniquify_names.
  - apply uniquify_items.
  - apply uniquify_suffixes.
  - intros Hnd. apply uniquify_unchanged; [done|]. intros c _. apply not_elem_of_empty.
Qed.
(** ** The mapping from names to modules *)

Lemma fold_insert_lookup (v : string) (l : list string) :
  forall (m : gmap string string) k,
    fold_left (fun m n => <[n := v]> m) l m !! k
    = if decide (k ∈ l) then Some v else m !! k.
Proof.
  induction l as [|a l IH]; intros m k; cbn [fold_left].
  - destruct (decide (k ∈ [])) as [H|]; [by apply elem_of_nil in H|done].
  - rewrite IH.
    destruct (decide (k ∈ l)) as [Hin|Hout], (decide (k ∈ a :: l)) as [Hin'|Hout']; try done.
    + exfalso. apply Hout'. by right.
    + destruct (decide (k = a)) as [->|Hne]; [by rewrite lookup_insert_eq|].
      by apply elem_of_cons in Hin' as [?|?].
    + rewrite lookup_insert_ne; [done|]. intros ->. apply Hout'. by left.
Qed.

(** The last component that holds a name decides its module. *)
Lemma assign_modules_from_lookup (f : Component -> list string) comps :
  forall (m : gmap string string) k,
    fold_left (fun m c => fold_left (fun m n => <[n := module_name c]> m) (f c) m) comps m !! k
    = match last (filter (fun c => k ∈ f c) comps) with
      | Some c => Some (module_name c)
      | None => m !! k
      end.
Proof.
  induction comps as [|c comps IH]; intros m k; simpl; [done|].
  rewrite IH, fold_insert_lookup, filter_cons.
  destruct (decide (k ∈ f c)) as [Hin|Hout]; [|done].
  rewrite last_cons. by destruct (last (filter _ comps)).
Qed.

Lemma assign_modules_Some f comps k m :
  assign_modules f comps !! k = Some m ->
  exists c, c ∈ comps /\ k ∈ f c /\ module_name c = m.
Proof.
  unfold assign_modules. rewrite assign_modules_from_lookup.
  destruct (last _) as [c|] eqn:E; [|by rewrite lookup_empty].
  intros [= <-]. apply last_Some_elem_of, list_elem_of_filter in E as [? ?]. eauto.
Qed.

Lemma assign_modules_elem f comps c k :
  NoDup (concat (map f comps)) -> c ∈ comps -> k ∈ f c ->
  assign_modules f comps !! k = Some (module_name c).
Proof.
  intros Hnd Hc Hk. unfold assign_modules. rewrite assign_modules_from_lookup.
  destruct (last _) as [c'|] eqn:E.
  - apply last_Some_elem_of, list_elem_of_filter in E as [Hk' Hc'].
    apply list_elem_of_lookup in Hc as [i Hi], Hc' as [j Hj].
    assert (i = j) as <-.
    { eapply (NoDup_concat_unique (map f comps) i j (f c) (f c') k); try done.
      - by rewrite list_lookup_fmap, Hi.
      - by rewrite list_lookup_fmap, Hj. }
    congruence.
  - apply last_None in E. exfalso.
    assert (Hin : c ∈ filter (fun c => k ∈ f c) comps) by by apply list_elem_of_filter.
    rewrite E in Hin. by apply not_elem_of_nil in Hin.
Qed.

Lemma well_formed_items_names comps :
  well_formed comps -> map (fun c => map name (items c)) comps = map names comps.
Proof.
  intros [_ Hn]. apply map_ext_in. intros c Hc%list_elem_of_In.
  by destruct (Hn c Hc) as [-> _].
Qed.

Lemma rebuild_name_to_module_spec comps n m :
  well_formed comps ->
  rebuild_name_to_module comps !! n = Some m <->
  exists c, c ∈ comps /\ n ∈ names c /\ module_name c = m.
Proof.
  intros Hwf. unfold rebuild_name_to_module. split.
  - intros (c & Hc & Hn & Hm)%assign_modules_Some. exists c. split; [done|].
    destruct (wf_names _ Hwf c Hc) as [-> _]. done.
  - intros (c & Hc & Hn & <-). apply assign_modules_elem; [|done|].
    + rewrite well_formed_items_names by done. apply Hwf.
    + by destruct (wf_names _ Hwf c Hc) as [<- _].
Qed.

Lemma repack_components_snd cfg comps :
  (repack_components cfg comps).2 = rebuild_name_to_module (repack_components cfg comps).1.
Proof. reflexivity. Qed.

(** X5: the mapping that [repack_components] returns sends a name to a
    module exactly when a final component with that module name holds the
    name: the mapping is rebuilt from the merged components, none of the
    earlier entries survives. *)
Theorem repack_mapping_locates_every_name (cfg : packing) (comps0 : list Component) :
  well_formed comps0 ->
  let comps := (repack_components cfg comps0).1 in
  let name_to_module := (repack_components cfg comps0).2 in
  forall n m,
    name_to_module !! n = Some m <->
    exists c, c ∈ comps /\ n ∈ names c /\ module_name c = m.
Proof.
  intros Hwf comps ntm n m. unfold ntm. rewrite repack_components_snd.
  apply rebuild_name_to_module_spec.
  eapply packed_well_formed; [done|]. by apply packed_repack.
Qed.

Lemma constant_components_well_formed : well_formed constant_components.
Proof.
  split.
  - vm_compute. repeat (constructor; [by vm_compute; intros ?; set_solver|]). constructor.
  - intros c Hc. vm_compute in Hc.
    repeat (apply elem_of_cons in Hc as [->|Hc]; [by vm_compute|]).
    by apply elem_of_nil in Hc.
Qed.

Lemma repack_mapping_locates_every_name_witness :
  (repack_components default_packing constant_components).2 !! "f" = Some "core".
Proof.
  apply (repack_mapping_locates_every_name default_packing constant_components
           constant_components_well_formed "f" "core").
  eexists. split; [|split].
  - vm_compute. right. left.
  - vm_compute. left.
  - reflexivity.
Defined.

Lemma build_components_mapping_spec depth its comps ntm :
  build_components depth its = Ok (comps, ntm) ->
  (forall n m,
     ntm !! n = Some m <->
     exists c, c ∈ comps /\ n ∈ names c /\ module_name c = m) /\
  (forall n, is_Some (ntm !! n) <-> n ∈ map name its).
Proof.
  intros Hb. pose proof (build_components_spec _ _ _ _ Hb) as Hinit.
  pose proof (initial_well_formed _ _ Hinit) as Hwf.
  unfold build_components in Hb. cbv zeta in Hb.
  apply result_bind_ok in Hb as (sccs & _ & Hb).
  apply result_bind_ok in Hb as (comps1 & _ & Hb).
  injection Hb as <- <-.
  set (graph := graph_of its) in *.
  pose proof (sort_by_perm Nat.leb (external_dep_count graph) comps1) as Hperm.
  assert (Hiff : forall n m,
            assign_modules names comps1 !! n = Some m <->
            exists c, c ∈ sort_by Nat.leb (external_dep_count graph) comps1 /\
                      n ∈ names c /\ module_name c = m).
  { intros n m. split.
    - intros (c & Hc & Hn & Hm)%assign_modules_Some. exists c.
      by rewrite elem_of_sort_by.
    - intros (c & Hc%elem_of_sort_by & Hn & <-). apply assign_modules_elem; [|done..].
      assert (Hp : concat (map names comps1)
                   ≡ₚ concat (map names (sort_by Nat.leb (external_dep_count graph) comps1))).
      { apply concat_Permutation, map_Permutation. by symmetry. }
      rewrite Hp. apply Hwf. }
  split; [done|].
  intros n. split.
  - intros [m (c & Hc & Hn & _)%Hiff].
    apply keys_names. rewrite <- kept_names.
    rewrite <- (plan_names_items its _ _ Hinit (packed_refl _)).
    apply elem_of_concat. exists (names c). split; [|done]. apply elem_of_map. eauto.
  - intros Hn%keys_names. rewrite <- kept_names in Hn.
    rewrite <- (plan_names_items its _ _ Hinit (packed_refl _)) in Hn.
    apply elem_of_concat in Hn as (l & (c & -> & Hc)%elem_of_map & Hn).
    exists (module_name c). apply Hiff. eauto.
Qed.

(** X6: [build_components] maps every item name, and nothing else, to the
    module name of the component that holds it. *)
Theorem build_components_mapping (depth : nat) (its : list TopLevelItem)
    (comps : list Component) (name_to_module : gmap string string) :
  build_components depth its = Ok (comps, name_to_module) ->
  (forall n m,
     name_to_module !! n = Some m <->
     exists c, c ∈ comps /\ n ∈ names c /\ module_name c = m) /\
  (forall n, is_Some (name_to_module !! n) <-> n ∈ map name its).
Proof. apply build_components_mapping_spec. Qed.

Lemma build_components_mapping_witness :
  exists comps name_to_module,
    build_components 10 (ex_items (extract_top_level_items insertion_order mutual_file))
    = Ok (comps, name_to_module) /\
    exists c, c ∈ comps /\ "f" ∈ names c /\ module_name c = "f_g".
Proof.
  destruct (build_components 10 (ex_items (extract_top_level_items insertion_order mutual_file)))
    as [[comps ntm]|e] eqn:E; [|vm_compute in E; discriminate].
  exists comps, ntm. split; [done|].
  apply (build_components_mapping _ _ _ _ E).
  vm_compute in E. injection E as <- <-. vm_compute. reflexivity.
Defined.

(** ** Imports between the modules *)

Lemma dict_append_keys k x (d : dict (list string)) :
  dict_keys (dict_append k x d) =
  if decide (k ∈ dict_keys d) then dict_keys d else dict_keys d ++ [k].
Proof.
  induction d as [|[k' xs] d IH]; simpl; [done|].
  destruct (String.eqb_spec k k') as [->|Hne]; simpl.
  - by rewrite decide_True by by left.
  - rewrite IH. destruct (decide (k ∈ dict_keys d)) as [Hin|Hout].
    + by rewrite decide_True by by right.
    + rewrite decide_False; [done|]. by intros [?|?]%elem_of_cons.
Qed.

Lemma dict_append_elem k x (d : dict (list string)) k' xs :
  (k', xs) ∈ dict_append k x d ->
  (k', xs) ∈ d \/ (k' = k /\ exists ys, xs = ys ++ [x] /\ (ys = [] \/ (k, ys) ∈ d)).
Proof.
  induction d as [|[k0 ys] d IH]; simpl.
  - intros [= -> ->]%list_elem_of_singleton. right. split; [done|]. exists []. auto.
  - destruct (String.eqb_spec k k0) as [->|Hne].
    + intros [[= -> ->]|Hin]%elem_of_cons.
      * right. split; [done|]. exists ys. split; [done|]. right. by left.
      * left. by right.
    + intros [[= -> ->]|Hin]%elem_of_cons; [left; by left|].
      destruct (IH Hin) as [?|(-> & zs & -> & [->|?])].
      * left. by right.
      * right. split; [done|]. exists []. auto.
      * right. split; [done|]. exists zs. split; [done|]. right. by right.
Qed.



Section ExternalDeps.

Variable component : Component.
Variable name_to_module : gmap string string.

Local Notation note_dep := (note_dep component name_to_module).
Local Notation imported := (imported component name_to_module).
Local Notation sound_deps := (sound_deps component name_to_module).

Lemma external_deps_fold :
  external_deps component name_to_module
  = fold_left (fun ext it => fold_left note_dep (deps it) ext) (items component) [].
Proof. reflexivity. Qed.

Lemma note_dep_sound its ext dep :
  (exists it, it ∈ its /\ dep ∈ deps it) ->
  sound_deps its ext -> sound_deps its (note_dep ext dep).
Proof.
  intros Hdep [Hnd Hs]. unfold note_dep.
  case_bool_decide as Hown; [|by split].
  destruct (name_to_module !! dep) as [md|] eqn:Hmd; [|by split].
  destruct (String.eqb_spec md "") as [->|Hne]; [by split|].
  split.
  - rewrite dict_append_keys. destruct (decide _); [done|].
    apply NoDup_app. split; [done|]. split; [|apply NoDup_singleton].
    intros k Hk Heq%list_elem_of_singleton. by subst.
  - intros md' nms [Hin|(-> & ys & -> & Hys)]%dict_append_elem; [by apply Hs|].
    split; [by destruct ys|].
    intros n [Hn|Heq%list_elem_of_singleton]%elem_of_app.
    + destruct Hys as [->|Hys]; [by apply elem_of_nil in Hn|]. by apply (Hs md ys).
    + subst n. split; [|done]. by split.
Qed.

Lemma sound_deps_mono its its' ext :
  (forall it, it ∈ its -> it ∈ its') -> sound_deps its ext -> sound_deps its' ext.
Proof.
  intros Hsub [Hnd Hs]. split; [done|]. intros md nms Hin.
  destruct (Hs md nms Hin) as [Hne Hall]. split; [done|].
  intros n Hn. destruct (Hall n Hn) as [Him (it & ? & ?)]. split; [done|]. eauto.
Qed.

Lemma external_deps_sound : sound_deps (items component) (external_deps component name_to_module).
Proof.
  rewrite external_deps_fold.
  assert (H : forall its ext,
             (forall it, it ∈ its -> it ∈ items component) ->
             sound_deps (items component) ext ->
             sound_deps (items component)
               (fold_left (fun ext it => fold_left note_dep (deps it) ext) its ext)).
  { induction its as [|it its IH]; intros ext Hsub Hs; simpl; [done|].
    apply IH; [intros ? ?; apply Hsub; by right|].
    assert (Hit : it ∈ items component) by (apply Hsub; by left).
    assert (Hin : forall ds ext, (forall d, d ∈ ds -> d ∈ deps it) ->
                    sound_deps (items component) ext ->
                    sound_deps (items component) (fold_left note_dep ds ext)).
    { induction ds as [|d ds IHd]; intros ext' Hds Hs'; simpl; [done|].
      apply IHd; [intros ? ?; apply Hds; by right|].
      apply note_dep_sound; [|done]. exists it. split; [done|]. apply Hds. by left. }
    by apply Hin. }
  apply H; [done|]. split; [constructor|]. by intros ? ? ?%elem_of_nil.
Qed.






End ExternalDeps.


(** ** Limits of the packing *)

Lemma merge_smallest_once_few comps :
  length (movable comps) < 2 -> merge_smallest_once comps = None.
Proof.
  unfold movable, merge_smallest_once. intros Hlen.
  destruct (sort_by _ _ _) as [|a [|b rest]] eqn:E; [done..|].
  apply (f_equal length) in E. rewrite length_sort_by in E. simpl in E. lia.
Qed.

Lemma merge_smallest_once_None comps :
  merge_smallest_once comps = None -> length (movable comps) < 2.
Proof.
  unfold movable, merge_smallest_once.
  destruct (sort_by _ _ _) as [|a [|b rest]] eqn:E; [| |done]; intros _;
    apply (f_equal length) in E; rewrite length_sort_by in E; simpl in E; lia.
Qed.

Lemma two_distinct_length {A} (l : list A) a b : a ∈ l -> b ∈ l -> a <> b -> 2 <= length l.
Proof.
  intros Ha Hb Hab. pose proof (pair_submseteq l a b Ha Hb Hab) as H.
  by apply submseteq_length in H.
Qed.

Lemma merge_small_once_few min_lines comps :
  length (movable comps) < 2 -> merge_small_once min_lines comps = None.
Proof.
  intros Hlen. destruct (merge_small_once min_lines comps) as [comps'|] eqn:E; [|done].
  apply merge_small_once_inv in E as (a & b & Ha & Hb & Hpa & Hpb & Hab & _).
  assert (2 <= length (movable comps)); [|lia].
  apply (two_distinct_length _ a b); [| |done]; by apply list_elem_of_filter.
Qed.

(** The loops seen through the number of components. *)
Lemma merge_down_to_spec (P : list Component -> list Component -> Prop) bound :
  (forall comps comps' r,
     (bound < Z.of_nat (length comps))%Z -> merge_smallest_once comps = Some comps' ->
     P comps' r -> P comps r) ->
  (forall comps,
     (bound < Z.of_nat (length comps))%Z -> merge_smallest_once comps = None -> P comps comps) ->
  (forall comps, (Z.of_nat (length comps) <= bound)%Z -> P comps comps) ->
  forall comps, P comps (merge_down_to bound comps).
Proof.
  intros Hstep Hstop Hle comps.
  remember (length comps) as n eqn:Hn.
  revert comps Hn. induction n as [n IH] using lt_wf_ind. intros comps ->.
  rewrite merge_down_to_unfold.
  destruct (bound <? Z.of_nat (length comps))%Z eqn:Eb.
  - apply Z.ltb_lt in Eb.
    destruct (merge_smallest_once comps) as [comps'|] eqn:E.
    + eapply Hstep; [done..|]. eapply IH; [|done].
      apply merge_smallest_once_shorter in E. lia.
    + by apply Hstop.
  - apply Z.ltb_ge in Eb. by apply Hle.
Qed.

Lemma enforce_min_lines_spec (P : list Component -> list Component -> Prop) min_lines :
  (forall comps comps' r,
     merge_small_once min_lines comps = Some comps' -> P comps' r -> P comps r) ->
  (forall comps, merge_small_once min_lines comps = None -> P comps comps) ->
  forall comps, P comps (enforce_min_lines min_lines comps).
Proof.
  intros Hstep Hstop comps.
  remember (length comps) as n eqn:Hn.
  revert comps Hn. induction n as [n IH] using lt_wf_ind. intros comps ->.
  rewrite enforce_min_lines_unfold.
  destruct (merge_small_once min_lines comps) as [comps'|] eqn:E.
  - eapply Hstep; [done|]. eapply IH; [|done].
    apply merge_small_once_shorter in E. lia.
  - by apply Hstop.
Qed.

Lemma merge_down_to_bound bound comps :
  (Z.of_nat (length (merge_down_to bound comps)) <= bound)%Z \/
  length (movable (merge_down_to bound comps)) < 2.
Proof.
  apply (merge_down_to_spec
           (fun _ r => (Z.of_nat (length r) <= bound)%Z \/ length (movable r) < 2)).
  - done.
  - intros c _ ?%merge_smallest_once_None. by right.
  - intros c ?. by left.
Qed.

Lemma merge_down_to_few bound comps :
  length (movable comps) < 2 -> merge_down_to bound comps = comps.
Proof.
  intros H. rewrite merge_down_to_unfold, (merge_smallest_once_few _ H).
  by destruct (_ <? _)%Z.
Qed.

Lemma length_merge_down_to bound comps :
  length (merge_down_to bound comps) <= length comps.
Proof.
  apply (merge_down_to_spec (fun c r => length r <= length c)); [|done..].
  intros c c' r _ ?%merge_smallest_once_shorter ?. lia.
Qed.

Lemma enforce_min_lines_few min_lines comps :
  length (movable comps) < 2 -> enforce_min_lines min_lines comps = comps.
Proof.
  intros H. by rewrite enforce_min_lines_unfold, (merge_small_once_few _ _ H).
Qed.

Lemma length_enforce_min_lines min_lines comps :
  length (enforce_min_lines min_lines comps) <= length comps.
Proof.
  apply (enforce_min_lines_spec (fun c r => length r <= length c)); [|done].
  intros c c' r ?%merge_small_once_shorter ?. lia.
Qed.

(** The later steps keep a list that is short enough or has fewer than two
    movable components. *)
Lemma limit_kept_by_min_lines bound min_lines comps :
  (Z.of_nat (length comps) <= bound)%Z \/ length (movable comps) < 2 ->
  (Z.of_nat (length (enforce_min_lines min_lines comps)) <= bound)%Z \/
  length (movable (enforce_min_lines min_lines comps)) < 2.
Proof.
  intros [H|H].
  - left. pose proof (length_enforce_min_lines min_lines comps). lia.
  - right. by rewrite enforce_min_lines_few.
Qed.

Lemma limit_kept_by_merging bound t comps :
  (Z.of_nat (length comps) <= bound)%Z \/ length (movable comps) < 2 ->
  (Z.of_nat (length (merge_down_to t comps)) <= bound)%Z \/
  length (movable (merge_down_to t comps)) < 2.
Proof.
  intros [H|H].
  - left. pose proof (length_merge_down_to t comps). lia.
  - right. by rewrite merge_down_to_few.
Qed.

Lemma repack_max_bound cfg comps :
  max_modules cfg <> 0%Z ->
  (Z.of_nat (length (repack_components cfg comps).1) <= max_modules cfg)%Z \/
  length (movable (repack_components cfg comps).1) < 2.
Proof.
  intros Hmax. unfold repack_components. simpl.
  rewrite (proj2 (Z.eqb_neq _ _) Hmax).
  generalize (if (0 <? pack_small_lines cfg)%Z
              then pack_core (pack_small_lines cfg)
                     (if group_assignments cfg then group_constants comps else comps)
              else if group_assignments cfg then group_constants comps else comps).
  intros c2.
  pose proof (merge_down_to_bound (max_modules cfg) c2) as H3.
  revert H3. generalize (merge_down_to (max_modules cfg) c2). intros c3 H3.
  assert (H4 : let c4 := if (0 <? min_module_lines cfg)%Z
                         then enforce_min_lines (min_module_lines cfg) c3 else c3 in
               (Z.of_nat (length c4) <= max_modules cfg)%Z \/ length (movable c4) < 2).
  { cbv zeta. destruct (0 <? _)%Z; [|done]. by apply limit_kept_by_min_lines. }
  cbv zeta in H4. revert H4.
  generalize (if (0 <? min_module_lines cfg)%Z
              then enforce_min_lines (min_module_lines cfg) c3 else c3).
  intros c4 H4.
  destruct (target_modules cfg) as [t|]; [|done].
  destruct (0 <? t)%Z; [|done]. by apply limit_kept_by_merging.
Qed.

Lemma repack_target_bound cfg comps t :
  target_modules cfg = Some t -> (0 < t)%Z ->
  (Z.of_nat (length (repack_components cfg comps).1) <= t)%Z \/
  length (movable (repack_components cfg comps).1) < 2.
Proof.
  intros Ht Hpos. unfold repack_components. simpl.
  rewrite Ht, (proj2 (Z.ltb_lt _ _) Hpos). apply merge_down_to_bound.
Qed.

(** X8: the limits on the number of modules are kept as far as merging
    allows: with [max_modules] other than 0, and with a positive
    [target_modules], the result of [repack_components] has at most that
    many components, unless fewer than two components outside [constants]
    and [core] are left to merge. *)
Theorem repack_respects_module_limits (cfg : packing) (comps : list Component) :
  let final := (repack_components cfg comps).1 in
  (max_modules cfg <> 0%Z ->
     (Z.of_nat (length final) <= max_modules cfg)%Z \/ length (movable final) < 2) /\
  (forall t, target_modules cfg = Some t -> (0 < t)%Z ->
     (Z.of_nat (length final) <= t)%Z \/ length (movable final) < 2).
Proof.
  cbv zeta. split; [apply repack_max_bound | intros t; apply repack_target_bound].
Qed.

Lemma repack_respects_module_limits_witness :
  let cfg := {| group_assignments := false; pack_small_lines := 0; max_modules := 0;
                min_module_lines := 0; target_modules := Some 2%Z |} in
  (Z.of_nat (length (repack_components cfg constant_components).1) <= 2)%Z \/
  length (movable (repack_components cfg constant_components).1) < 2.
Proof.
  cbv zeta.
  by apply (proj2 (repack_respects_module_limits
                     {| group_assignments := false; pack_small_lines := 0; max_modules := 0;
                        min_module_lines := 0; target_modules := Some 2%Z |}
                     constant_components) 2%Z).
Defined.

(** *** The two smallest components *)

Lemma key_le_transitive {A} (key : A -> nat) : Transitive (key_le Nat.leb key).
Proof.
  intros x y z. unfold key_le. rewrite !Nat.leb_le. lia.
Qed.

(** X9: [merge_smallest_once] returns [False], changing nothing, exactly
    when fewer than two components outside [constants] and [core] exist;
    otherwise it takes two of them, a first with the fewest lines and a
    second with the fewest lines among the rest, removes them and puts their
    merge last. *)
Theorem merge_smallest_once_takes_the_two_smallest (comps : list Component) :
  (merge_smallest_once comps = None <-> length (movable comps) < 2) /\
  forall comps', merge_smallest_once comps = Some comps' ->
    exists a b rest,
      movable comps ≡ₚ a :: b :: rest /\
      _comp_lines a <= _comp_lines b /\
      (forall c, c ∈ rest -> _comp_lines b <= _comp_lines c) /\
      comps' = filter (fun c => c ∉ [a; b]) comps ++ [merge_components a b None].
Proof.
  split.
  - split; [apply merge_smallest_once_None | apply merge_smallest_once_few].
  - intros comps' E.
    unfold merge_smallest_once in E. fold (movable comps) in E.
    pose proof (sort_by_perm Nat.leb _comp_lines (movable comps)) as Hperm.
    pose proof (sort_by_sorted Nat.leb _comp_lines) as Hsorted.
    specialize (Hsorted (fun a b => ltac:(rewrite !Nat.leb_le; lia)) (movable comps)).
    apply Sorted_StronglySorted in Hsorted; [|apply key_le_transitive].
    destruct (sort_by Nat.leb _comp_lines (movable comps)) as [|a [|b rest]]; [done..|].
    injection E as <-.
    apply StronglySorted_inv in Hsorted as [Hsorted Ha].
    apply StronglySorted_inv in Hsorted as [_ Hb].
    exists a, b, rest. split_and!.
    + by symmetry.
    + apply Forall_cons in Ha as [Hab _]. by apply Nat.leb_le.
    + intros c Hc. apply Nat.leb_le. by apply (proj1 (Forall_forall _ _) Hb c).
    + done.
Qed.

(** *** The least size of a module *)

Lemma sum_list_app_nat (l k : list nat) : sum_list (l ++ k) = sum_list l + sum_list k.
Proof. induction l as [|x l IH]; simpl; [done|]. rewrite IH. lia. Qed.

Lemma _comp_lines_merge a b new_name :
  _comp_lines (merge_components a b new_name) = _comp_lines a + _comp_lines b.
Proof. unfold _comp_lines. simpl. by rewrite map_app, sum_list_app_nat. Qed.

Lemma merge_small_once_None min_lines comps :
  merge_small_once min_lines comps = None ->
  large_enough min_lines comps \/
  exists s, forall c, c ∈ comps -> pinned c = false -> c = s.
Proof.
  unfold merge_small_once. cbv zeta.
  destruct (sort_by Nat.leb _comp_lines
              (filter (fun c => (Z.of_nat (_comp_lines c) <? min_lines)%Z && negb (pinned c) = true)
                 comps)) as [|s rest] eqn:Es.
  - intros _. left. intros c Hc Hp.
    destruct (Z.ltb_spec (Z.of_nat (_comp_lines c)) min_lines) as [Hlt|]; [|done].
    assert (Hin : c ∈ sort_by Nat.leb _comp_lines
              (filter (fun c => (Z.of_nat (_comp_lines c) <? min_lines)%Z && negb (pinned c) = true)
                 comps)).
    { apply elem_of_sort_by, list_elem_of_filter. split; [|done].
      rewrite Hp. simpl. rewrite andb_true_r. by apply Z.ltb_lt. }
    rewrite Es in Hin. by apply elem_of_nil in Hin.
  - destruct (sort_by Nat.leb _comp_lines
                (filter (fun c => c <> s /\ pinned c = false) comps)) as [|o rest'] eqn:Eo; [|done].
    intros _. right. exists s. intros c Hc Hp.
    destruct (decide (c = s)) as [|Hne]; [done|].
    assert (Hin : c ∈ sort_by Nat.leb _comp_lines
                        (filter (fun c => c <> s /\ pinned c = false) comps)).
    { apply elem_of_sort_by, list_elem_of_filter. done. }
    rewrite Eo in Hin. by apply elem_of_nil in Hin.
Qed.

Lemma single_movable comps s :
  NoDup comps -> (forall c, c ∈ comps -> pinned c = false -> c = s) ->
  length (movable comps) < 2.
Proof.
  intros Hnd Hs. unfold movable.
  assert (Hnd' : NoDup (filter (fun c => pinned c = false) comps)) by by apply NoDup_filter.
  assert (Hall : forall c, c ∈ filter (fun c => pinned c = false) comps -> c = s).
  { intros c [? ?]%list_elem_of_filter. by apply Hs. }
  destruct (filter _ comps) as [|a [|b rest]]; simpl; [lia..|].
  exfalso. apply NoDup_cons in Hnd' as [Hab _]. apply Hab.
  rewrite (Hall a) by by left. rewrite (Hall b) at 1 by (right; by left). by left.
Qed.

Lemma large_enough_merge min_lines comps comps' :
  merge_smallest_once comps = Some comps' ->
  large_enough min_lines comps -> large_enough min_lines comps'.
Proof.
  intros (a & b & Ha & Hb & Hpa & _ & _ & ->)%merge_smallest_once_inv Hq c.
  intros [[_ Hc]%list_elem_of_filter|Heq%list_elem_of_singleton]%elem_of_app Hp.
  - by apply Hq.
  - subst c. rewrite _comp_lines_merge. pose proof (Hq a Ha Hpa). lia.
Qed.

Lemma large_enough_merge_down_to min_lines bound comps :
  large_enough min_lines comps -> large_enough min_lines (merge_down_to bound comps).
Proof.
  apply (merge_down_to_spec
           (fun c r => large_enough min_lines c -> large_enough min_lines r)); [|done..].
  intros c c' r _ E IH Hq. by eapply IH, large_enough_merge.
Qed.

(** X10: with a positive [min_module_lines], every component of the result
    of [repack_components] outside [constants] and [core] has at least that
    many lines, unless at most one such component is left. *)
Theorem repack_enforces_min_module_lines (cfg : packing) (comps0 : list Component) :
  well_formed comps0 -> (0 < min_module_lines cfg)%Z ->
  let final := (repack_components cfg comps0).1 in
  (forall c, c ∈ final -> pinned c = false ->
     (min_module_lines cfg <= Z.of_nat (_comp_lines c))%Z) \/
  length (movable final) < 2.
Proof.
  intros Hwf0 Hmin. unfold repack_components. simpl.
  rewrite (proj2 (Z.ltb_lt _ _) Hmin).
  set (c1 := if group_assignments cfg then group_constants comps0 else comps0).
  assert (H1 : packed comps0 c1).
  { unfold c1. destruct (group_assignments cfg); [|apply packed_refl].
    apply packed_merge_all_into; [done | apply packed_refl]. }
  clearbody c1.
  set (c2 := if (0 <? pack_small_lines cfg)%Z then pack_core (pack_small_lines cfg) c1 else c1).
  assert (H2 : packed comps0 c2).
  { unfold c2. destruct (0 <? _)%Z; [|done]. by apply packed_merge_all_into. }
  clearbody c2. clear c1 H1.
  set (c3 := if (max_modules cfg =? 0)%Z then c2 else merge_down_to (max_modules cfg) c2).
  assert (H3 : packed comps0 c3).
  { unfold c3. destruct (_ =? 0)%Z; [done|]. by apply packed_merge_while_above. }
  clearbody c3. clear c2 H2.
  set (c4 := enforce_min_lines (min_module_lines cfg) c3).
  assert (H4 : packed comps0 c4) by by apply packed_merge_small_loop.
  assert (Hexit : merge_small_once (min_module_lines cfg) c4 = None).
  { unfold c4.
    by apply (enforce_min_lines_spec
                (fun _ r => merge_small_once (min_module_lines cfg) r = None)). }
  clearbody c4. clear c3 H3.
  assert (H5 : large_enough (min_module_lines cfg) c4 \/ length (movable c4) < 2).
  { destruct (merge_small_once_None _ _ Hexit) as [?|[s Hs]]; [by left|right].
    apply (single_movable _ s); [|done].
    apply well_formed_NoDup. by eapply packed_well_formed. }
  destruct (target_modules cfg) as [t|]; [|done].
  destruct (0 <? t)%Z; [|done].
  destruct H5 as [H5|H5].
  - left. by apply large_enough_merge_down_to.
  - right. by rewrite merge_down_to_few.
Qed.

Lemma repack_enforces_min_module_lines_witness :
  let cfg := {| group_assignments := false; pack_small_lines := 0; max_modules := 0;
                min_module_lines := 2; target_modules := None |} in
  (forall c, c ∈ (repack_components cfg constant_components).1 -> pinned c = false ->
     (2 <= Z.of_nat (_comp_lines c))%Z) \/
  length (movable (repack_components cfg constant_components).1) < 2.
Proof.
  cbv zeta. apply repack_enforces_min_module_lines; [|done].
  apply constant_components_well_formed.
Defined.

(** *** The module of the constants *)

Lemma forallb_concat {A} (p : A -> bool) (ls : list (list A)) :
  Forall (fun l => forallb p l = true) ls -> forallb p (concat ls) = true.
Proof.
  induction 1 as [|l ls Hl _ IH]; simpl; [done|].
  rewrite forallb_app, Hl, IH. done.
Qed.

(** X11: with [group_assignments], when at least two components consist of
    assignments only, all of them are merged into one component named
    [constants], which is among the final components: the packing of small
    components and the later merge steps leave it as it is. Every other
    final component is made of components that do not consist of
    assignments only: among components that share no name, a name of an
    assignment-only component is held by [constants] alone. *)
Theorem assignments_grouped_into_constants (cfg : packing) (comps : list Component) :
  group_assignments cfg = true ->
  2 <= length (filter (fun c => _assign_only c = true) comps) ->
  let assigns := filter (fun c => _assign_only c = true) comps in
  let final := (repack_components cfg comps).1 in
  exists constants,
    constants ∈ final /\
    module_name constants = "constants" /\
    names constants = concat (map names assigns) /\
    items constants = concat (map items assigns) /\
    (forall c, c ∈ final ->
       c = constants \/ built_from (fun s => s ∈ comps /\ _assign_only s = false) c) /\
    (well_formed comps ->
       forall c n, c ∈ final -> n ∈ names c -> n ∈ names constants -> c = constants).
Proof.
  intros Hg Hlen. cbv zeta.
  assert (Hfinal : (repack_components cfg comps).1 =
    (let comps2 := if (0 <? pack_small_lines cfg)%Z
                   then pack_core (pack_small_lines cfg) (group_constants comps)
                   else group_constants comps in
     let comps := if (max_modules cfg =? 0)%Z then comps2
                  else merge_down_to (max_modules cfg) comps2 in
     let comps := if (0 <? min_module_lines cfg)%Z
                  then enforce_min_lines (min_module_lines cfg) comps else comps in
     match target_modules cfg with
     | Some t => if (0 <? t)%Z then merge_down_to t comps else comps
     | None => comps
     end)).
  { unfold repack_components. simpl. by rewrite Hg. }
  unfold group_constants, merge_all_into in Hfinal.
  remember (filter (fun c => _assign_only c = true) comps) as assigns eqn:E.
  destruct assigns as [|first [|second rest]]; [simpl in Hlen; lia..|].
  set (k := rename (fold_left (fun m c => merge_components m c None)
                      (second :: rest) first) "constants") in *.
  set (c1 := filter (fun c => c ∉ first :: second :: rest) comps ++ [k]) in *.
  assert (Hpin : pinned k = true) by done.
  assert (Hnames : names k = concat (map names (first :: second :: rest))).
  { unfold k. cbn [names rename]. by rewrite fold_merge_names. }
  assert (Hitems : items k = concat (map items (first :: second :: rest))).
  { unfold k. cbn [items rename]. by rewrite fold_merge_items. }
  assert (Hassign : _assign_only k = true).
  { unfold _assign_only. rewrite Hitems. apply forallb_concat.
    apply Forall_forall. intros l (c & -> & Hc)%elem_of_map.
    rewrite E in Hc. by apply list_elem_of_filter in Hc as [? _]. }
  assert (H1 : k ∈ c1) by (apply elem_of_app; right; by left).
  assert (H1' : forall c, c ∈ c1 ->
    c = k \/ built_from (fun s => s ∈ comps /\ _assign_only s = false) c).
  { intros c [[Hc Hcg]%list_elem_of_filter | Hc%list_elem_of_singleton]%elem_of_app;
      [right | by left].
    apply built_from_one. split; [done|].
    destruct (_assign_only c) eqn:Ea; [|done]. exfalso. apply Hc.
    rewrite E. by apply list_elem_of_filter. }
  set (c2 := if (0 <? pack_small_lines cfg)%Z
             then pack_core (pack_small_lines cfg) c1 else c1) in *.
  assert (Hsmall : forall c, c ∈ filter (fun c => is_small (pack_small_lines cfg) c = true) c1 ->
    c ∈ c1 /\ c <> k).
  { intros c [Hs Hc]%list_elem_of_filter. split; [done|]. intros ->.
    unfold is_small in Hs. rewrite Hassign in Hs. simpl in Hs.
    by rewrite andb_false_r in Hs. }
  assert (H2 : k ∈ c2).
  { unfold c2. destruct (0 <? _)%Z; [|done]. unfold pack_core, merge_all_into.
    destruct (filter _ c1) as [|f1 [|f2 frest]] eqn:Ef; [done..|].
    apply elem_of_app. left. apply list_elem_of_filter. split; [|done].
    intros Hk. by destruct (Hsmall k Hk). }
  assert (H2' : forall c, c ∈ c2 ->
    c = k \/ built_from (fun s => s ∈ comps /\ _assign_only s = false) c).
  { unfold c2. destruct (0 <? _)%Z; [|done]. by apply merge_all_into_apart. }
  pose proof (size_steps_apart _ k cfg c2 Hpin H2 H2') as Hsteps.
  cbv zeta in Hfinal, Hsteps. rewrite <- Hfinal in Hsteps.
  destruct Hsteps as [Hk Hothers].
  exists k. split_and!; [done | done | done | done | done |].
  intros Hwf c n Hc Hn Hn'.
  apply (shared_name_same (repack_components cfg comps).1 c k n); try done.
  apply (packed_well_formed comps); [done | by apply packed_repack].
Qed.
(** ** The components are the strongly connected ones *)

Section Connected.

Variable graph : dict (list string).

Local Notation edge := (edge graph).
Local Notation nodes := (nodes graph).
Local Notation tarjan_inv := (tarjan_inv graph).
Local Notation strongconnect_post := (strongconnect_post graph).
Local Notation loop_inv := (loop_inv graph).
Local Notation strongly_connected := (strongly_connected graph).
Local Notation conn_inv := (conn_inv graph).
Local Notation conn_loop := (conn_loop graph).
Local Notation conn_post := (conn_post graph).

(** Two names on the stack with the same index are the same name. *)
Lemma stack_index_inj st x y i :
  tarjan_inv st -> x ∈ stack st -> y ∈ stack st ->
  indices st !! x = Some i -> indices st !! y = Some i -> x = y.
Proof.
  intros Hinv Hx Hy Hix Hiy.
  destruct (decide (x = y)) as [|Hne]; [done|]. exfalso.
  apply list_elem_of_split in Hx as (pre & post & E).
  rewrite E in Hy. apply elem_of_app in Hy as [Hy|Hy].
  - apply list_elem_of_split in Hy as (p1 & p2 & ->).
    assert (Hlt : i < i); [|lia].
    apply (inv_sorted graph st Hinv p1 y (p2 ++ x :: post) i i) with (y := x); try done.
    + by rewrite E, <- app_assoc.
    + apply elem_of_app. right. by left.
  - apply elem_of_cons in Hy as [->|Hy]; [done|].
    assert (Hlt : i < i); [|lia].
    by apply (inv_sorted graph st Hinv pre x post i i E y).
Qed.

Lemma conn_enter st0 v :
  tarjan_inv st0 -> conn_inv st0 -> (forall x, x ∈ stack st0 -> rtc edge x v) ->
  conn_loop st0 v (enter v st0).
Proof.
  intros Hinv Hc Hto. split; simpl.
  - done.
  - intros x [->|Hx]%elem_of_cons; [done|]. by apply Hto.
  - intros x [->|Hx]%elem_of_cons; [done|]. by intros ?.
  - intros lv y. rewrite lookup_insert_eq. intros [= <-] Hy Hi.
    apply (inv_index graph st0 Hinv) in Hi. lia.
Qed.

Lemma conn_step_onstack st0 v seen st w iw lv :
  tarjan_inv st0 -> v ∉ dom (indices st0) ->
  loop_inv st0 v seen st -> conn_loop st0 v st ->
  indices st !! w = Some iw -> w ∈ onstack st -> edge v w ->
  lowlink st !! v = Some lv ->
  conn_loop st0 v (set_lowlink v (lv `min` iw) st).
Proof.
  intros Hinv0 Hv H [C1 C2 C3 C4] Hiw Hon He Hlv.
  pose proof (li_inv graph _ _ _ _ H) as Hinv.
  split; simpl; [done..|].
  intros l y. rewrite lookup_insert_eq. intros [= <-] Hy Hi.
  destruct (Nat.min_spec lv iw) as [[_ E]|[Hlt E]]; rewrite E in Hi.
  - by apply (C4 lv y).
  - assert (y = w) as ->; [|by apply rtc_once].
    destruct (li_stack graph _ _ _ _ H) as (seg & lv' & Hst & _).
    apply (stack_index_inj st y w iw); try done.
    + rewrite Hst. apply elem_of_app. right. by right.
    + by apply (inv_onstack graph st Hinv).
    + eapply lookup_weaken; [exact Hi|]. by eapply loop_inv_indices.
Qed.

Lemma conn_step_call st0 v seen st w st1 lv lw :
  tarjan_inv st0 -> v ∉ dom (indices st0) ->
  loop_inv st0 v seen st -> conn_loop st0 v st ->
  indices st !! w = None -> edge v w ->
  strongconnect_post st w st1 -> conn_post st w st1 ->
  lowlink st1 !! v = Some lv -> lowlink st1 !! w = Some lw ->
  conn_loop st0 v (set_lowlink v (lv `min` lw) st1).
Proof.
  intros Hinv0 Hv H [C1 C2 C3 C4] Hw He P [Q1 Q2 Q3] Hlv Hlw.
  pose proof (li_inv graph _ _ _ _ H) as Hinv.
  pose proof (loop_inv_index_v graph _ _ _ _ H) as Hiv.
  destruct (li_stack graph _ _ _ _ H) as (seg & lv0 & Hst & Hlv0 & Hdis & _).
  assert (Hsub0 : forall y, y ∈ stack st0 -> y ∈ stack st).
  { intros y Hy. rewrite Hst. apply elem_of_app. right. by right. }
  assert (Hvd : v ∈ dom (indices st)) by (apply elem_of_dom; eauto).
  assert (Hlv' : lowlink st !! v = Some lv).
  { by rewrite <- (post_lowlink graph _ _ _ P v Hvd). }
  assert (Hwv : forall x, x ∈ stack st1 -> x ∉ stack st -> rtc edge x v).
  { intros x Hx Hnx. destruct (Q2 x Hx Hnx) as [_ Hxw].
    destruct (post_stack graph _ _ _ P) as [[E _]|(segw & y & i & _ & Hy & Hi & Hl & _)].
    - rewrite E in Hx. done.
    - etrans; [exact Hxw|]. etrans; [by apply (Q3 i y)|]. by apply C2. }
  split; simpl.
  - done.
  - intros x Hx. destruct (decide (x ∈ stack st)) as [Hin|Hout]; [by apply C2|].
    by apply Hwv.
  - intros x Hx Hx0. destruct (decide (x ∈ stack st)) as [Hin|Hout]; [by apply C3|].
    etrans; [by apply rtc_once|]. by apply (Q2 x).
  - intros l y. rewrite lookup_insert_eq. intros [= <-] Hy Hi.
    destruct (Nat.min_spec lv lw) as [[_ E]|[Hlt E]]; rewrite E in Hi.
    + by apply (C4 lv y).
    + destruct (post_stack graph _ _ _ P) as [[_ Hl]|(segw & y' & i & _ & Hy' & Hi' & Hl & _)].
      * exfalso. rewrite Hl in Hlw. injection Hlw as Heq. subst lw.
        rewrite Hlv0 in Hlv'. injection Hlv' as Heq. subst lv0.
        pose proof (low_le_index graph _ _ Hinv0 Hdis).
        apply (inv_index graph st Hinv) in Hiv. lia.
      * rewrite Hl in Hlw. injection Hlw as Heq. subst i.
        assert (y = y') as ->.
        { apply (stack_index_inj st y y' lw); try done; [by apply Hsub0|].
          eapply lookup_weaken; [exact Hi|]. by eapply loop_inv_indices. }
        etrans; [by apply rtc_once|]. by apply (Q3 lw y').
Qed.

Lemma conn_close st0 v st st' :
  tarjan_inv st0 -> v ∉ dom (indices st0) ->
  loop_inv st0 v (graph_get graph v) st -> conn_loop st0 v st ->
  close_component v st = Ok st' -> conn_post st0 v st'.
Proof.
  intros Hinv0 Hv H [C1 C2 C3 C4].
  destruct (li_stack graph _ _ _ _ H) as (seg & lv & Hst & Hlv & Hdis & _).
  pose proof (loop_inv_index_v graph _ _ _ _ H) as Hiv.
  pose proof (li_inv graph _ _ _ _ H) as Hinv.
  unfold close_component.
  rewrite (map_item_ok _ _ _ Hlv), (map_item_ok _ _ _ Hiv). simpl.
  destruct (Nat.eqb_spec lv (index st0)) as [->|Hne].
  - pose proof (inv_nodup graph _ Hinv) as Hnd. rewrite Hst in Hnd.
    apply NoDup_app in Hnd as (Hnds & _ & _).
    apply NoDup_app in Hnds as (Hndseg & Hsegv & Hndv).
    apply NoDup_cons in Hndv as [Hv0 Hnd0].
    rewrite Hst, pop_component_ok; [|by intros ?%Hsegv; set_solver | done |]; cycle 1.
    { intros x Hx. apply (inv_onstack graph _ Hinv). rewrite Hst.
      apply elem_of_app in Hx as [?|Hx%list_elem_of_singleton];
        apply elem_of_app; [by left | right; subst x; by left]. }
    simpl. intros [= <-]. split; simpl.
    + apply Forall_app. split; [done|]. constructor; [|constructor].
      assert (Hin : forall x, x ∈ seg ++ [v] -> x ∈ stack st /\ x ∉ stack st0).
      { intros x Hx. rewrite Hst.
        apply elem_of_app in Hx as [Hx|Hx%list_elem_of_singleton].
        - split; [apply elem_of_app; by left|]. intros ?. apply (Hsegv x); [done|by right].
        - subst x. split; [|done]. apply elem_of_app. right. by left. }
      intros x y [Hx _]%Hin [Hy Hy0]%Hin. etrans; [by apply C2 | by apply C3].
    + by intros x ? ?.
    + intros i y Hl Hy Hi. rewrite Hlv in Hl. injection Hl as <-.
      apply (inv_index graph st0 Hinv0) in Hi. lia.
  - intros [= <-]. split; [done | | done].
    intros x Hx Hx0. split; [by apply C3 | by apply C2].
Qed.

Lemma visit_successors_conn rec st0 v :
  tarjan_inv st0 -> v ∉ dom (indices st0) ->
  (forall w st st1, tarjan_inv st -> w ∉ dom (indices st) -> w ∈ nodes ->
     rec w st = Ok st1 -> strongconnect_post st w st1) ->
  (forall w st st1, tarjan_inv st -> w ∉ dom (indices st) -> w ∈ nodes ->
     conn_inv st -> (forall x, x ∈ stack st -> rtc edge x w) ->
     rec w st = Ok st1 -> conn_post st w st1) ->
  forall ws seen st st',
    (forall w, w ∈ ws -> edge v w) ->
    loop_inv st0 v seen st -> conn_loop st0 v st ->
    visit_successors rec v ws st = Ok st' ->
    loop_inv st0 v (seen ++ ws) st' /\ conn_loop st0 v st'.
Proof.
  intros Hinv0 Hv Hpost Hrec ws.
  induction ws as [|w ws IH]; intros seen st st' He H C; simpl.
  - intros [= <-]. by rewrite app_nil_r.
  - replace (seen ++ w :: ws) with ((seen ++ [w]) ++ ws) by by rewrite <- app_assoc.
    assert (He' : forall w', w' ∈ ws -> edge v w') by (intros; apply He; by right).
    assert (Hvw : edge v w) by (apply He; by left).
    destruct (indices st !! w) as [iw|] eqn:Hw.
    + case_bool_decide as Hon.
      * destruct (loop_step_onstack graph _ _ _ _ _ _ Hinv0 Hv H Hw Hon) as (lv & Hlv & H').
        rewrite (map_item_ok _ _ _ Hlv). simpl.
        apply IH; [done | done |].
        apply (conn_step_onstack st0 v seen st w iw lv Hinv0 Hv H C Hw Hon Hvw Hlv).
      * apply IH; [done | | done]. by eapply loop_step_done.
    + intros (st1 & Hcall & Hrest)%result_bind_ok.
      pose proof (li_inv graph _ _ _ _ H) as Hinv.
      assert (Hwd : w ∉ dom (indices st)) by by apply not_elem_of_dom.
      assert (Hwn : w ∈ nodes) by by apply (edge_nodes graph v).
      pose proof (Hpost w st st1 Hinv Hwd Hwn Hcall) as P.
      assert (Q : conn_post st w st1).
      { apply Hrec; try done; [apply C|].
        intros x Hx. etrans; [by apply C | by apply rtc_once]. }
      destruct (loop_step_call graph _ _ _ _ _ _ Hinv0 Hv H Hw P) as (lv & lw & Hlv & Hlw & H').
      rewrite (map_item_ok _ _ _ Hlv) in Hrest. simpl in Hrest.
      rewrite (map_item_ok _ _ _ Hlw) in Hrest. simpl in Hrest.
      revert Hrest. apply IH; [done | done |].
      apply (conn_step_call st0 v seen st w st1 lv lw Hinv0 Hv H C Hw Hvw P Q Hlv Hlw).
Qed.

Lemma strongconnect_conn d :
  forall v st st', tarjan_inv st -> v ∉ dom (indices st) -> v ∈ nodes ->
    conn_inv st -> (forall x, x ∈ stack st -> rtc edge x v) ->
    strongconnect graph d v st = Ok st' -> conn_post st v st'.
Proof.
  induction d as [|d IH]; intros v st st' Hinv Hv Hn Hc Hto; simpl; [done|].
  intros (st1 & Hloop & Hclose)%result_bind_ok.
  destruct (visit_successors_conn (strongconnect graph d) st v Hinv Hv) with
    (ws := graph_get graph v) (seen := @nil string) (st := enter v st) (st' := st1)
    as [H C]; try done.
  - intros w s s1 ? ? ?. by apply strongconnect_ok_post.
  - by apply enter_loop_inv.
  - by apply conn_enter.
  - by eapply conn_close.
Qed.

Lemma visit_roots_conn d vs :
  forall st st', tarjan_inv st -> stack st = [] -> (forall v, v ∈ vs -> v ∈ nodes) ->
    conn_inv st -> visit_roots graph d vs st = Ok st' -> conn_inv st'.
Proof.
  induction vs as [|v vs IH]; intros st st' Hinv Hs Hn Hc; simpl.
  - by intros [= <-].
  - assert (Hn' : forall w, w ∈ vs -> w ∈ nodes) by (intros; apply Hn; by right).
    destruct (indices st !! v) eqn:Hv; [by apply IH|].
    intros (st1 & H1 & H2)%result_bind_ok.
    assert (Hvd : v ∉ dom (indices st)) by by apply not_elem_of_dom.
    assert (Hvn : v ∈ nodes) by (apply Hn; by left).
    pose proof (strongconnect_ok_post graph d v st st1 Hinv Hvd Hvn H1) as P.
    assert (Q : conn_post st v st1).
    { eapply strongconnect_conn; try done. rewrite Hs. by intros x ?%elem_of_nil. }
    eapply IH; [apply P | by eapply strongconnect_root | done | apply Q | done].
Qed.

Lemma scc_strongly_connected d sccs :
  strongly_connected_components d graph = Ok sccs -> Forall strongly_connected sccs.
Proof.
  unfold strongly_connected_components.
  intros (st & H & [= <-])%result_bind_ok.
  eapply (visit_roots_conn d (dict_keys graph) tarjan_init st); try done.
  - apply tarjan_init_inv.
  - apply keys_nodes.
  - constructor.
Qed.

(** *** Errors *)

Lemma visit_successors_cut rec rec' v ws :
  (forall w st st', rec' w st = Ok st' ->
     rec w st = Ok st' \/ rec w st = Err RecursionError) ->
  forall st st', visit_successors rec' v ws st = Ok st' ->
    visit_successors rec v ws st = Ok st' \/
    visit_successors rec v ws st = Err RecursionError.
Proof.
  intros Hrec. induction ws as [|w ws IH]; intros st st'; simpl; [by left|].
  destruct (indices st !! w).
  - case_bool_decide; [|apply IH].
    destruct (map_item (lowlink st) v); simpl; [apply IH | done].
  - intros (st1 & H1 & H2)%result_bind_ok.
    destruct (Hrec _ _ _ H1) as [-> | ->]; simpl; [|by right].
    destruct (map_item (lowlink st1) v); simpl in *; [|done].
    destruct (map_item (lowlink st1) w); simpl in *; [by apply IH | done].
Qed.

Lemma strongconnect_cut d d' v st st' :
  strongconnect graph d' v st = Ok st' ->
  strongconnect graph d v st = Ok st' \/ strongconnect graph d v st = Err RecursionError.
Proof.
  revert d' v st st'. induction d as [|d IH]; intros d' v st st'; simpl; [by right|].
  destruct d' as [|d']; simpl; [done|].
  intros (st1 & H1 & H2)%result_bind_ok.
  destruct (visit_successors_cut (strongconnect graph d) (strongconnect graph d') v
              (graph_get graph v) (fun w s s' => IH d' w s s') _ _ H1) as [-> | ->]; simpl.
  - by left.
  - by right.
Qed.

Lemma visit_roots_cut d d' vs :
  forall st st', visit_roots graph d' vs st = Ok st' ->
    visit_roots graph d vs st = Ok st' \/ visit_roots graph d vs st = Err RecursionError.
Proof.
  induction vs as [|v vs IH]; intros st st'; simpl; [by left|].
  destruct (indices st !! v); [apply IH|].
  intros (st1 & H1 & H2)%result_bind_ok.
  destruct (strongconnect_cut d d' _ _ _ H1) as [-> | ->]; simpl; [by apply IH | by right].
Qed.

Lemma scc_ok_or_recursion_error d :
  (exists sccs, strongly_connected_components d graph = Ok sccs) \/
  strongly_connected_components d graph = Err RecursionError.
Proof.
  destruct (strongly_connected_components_total graph (size nodes)) as [sccs H]; [done|].
  unfold strongly_connected_components in *.
  apply result_bind_ok in H as (st & H & _).
  destruct (visit_roots_cut d _ _ _ _ H) as [-> | ->]; simpl; eauto.
Qed.

End Connected.

(** X12: the lists that [strongly_connected_components] returns are the
    classes of mutual dependency: two names are in the same list exactly
    when each depends on the other, directly or through other names. *)
Theorem scc_components_are_the_dependency_cycles
    (depth : nat) (graph : dict (list string)) (sccs : list (list string)) :
  strongly_connected_components depth graph = Ok sccs ->
  forall x y, x ∈ nodes graph ->
    (exists c, c ∈ sccs /\ x ∈ c /\ y ∈ c) <->
    rtc (edge graph) x y /\ rtc (edge graph) y x.
Proof.
  intros H x y Hx. split.
  - intros (c & Hc & Hxc & Hyc).
    pose proof (scc_strongly_connected graph depth sccs H) as Hall.
    pose proof (proj1 (Forall_forall _ _) Hall c Hc) as Hconn. split; by apply Hconn.
  - intros [Hxy Hyx].
    pose proof (strongly_connected_components_partition graph depth sccs H) as Hpart.
    apply (scc_partition_mutual graph sccs x y Hpart); [|done..].
    by apply (scc_cover graph sccs Hpart).
Qed.

Lemma scc_components_are_the_dependency_cycles_witness :
  rtc (edge (graph_of (ex_items (extract_top_level_items insertion_order mutual_file)))) "f" "g".
Proof.
  apply (scc_components_are_the_dependency_cycles 10
           (graph_of (ex_items (extract_top_level_items insertion_order mutual_file)))
           [["f"; "g"]] eq_refl "f" "g").
  - vm_compute. set_solver.
  - exists ["f"; "g"]. split; [by left|]. split; [by left | right; by left].
Defined.

(** X13: the only exception [strongly_connected_components] raises is
    [RecursionError]: the look-ups in [indices] and [lowlink], [stack.pop()]
    and [onstack.remove(w)] never fail. *)
Theorem scc_raises_recursion_error_only (depth : nat) (graph : dict (list string)) :
  (exists sccs, strongly_connected_components depth graph = Ok sccs) \/
  strongly_connected_components depth graph = Err RecursionError.
Proof. apply scc_ok_or_recursion_error. Qed.
(** ** The initial components *)

Lemma build_components_sccs depth its comps ntm :
  build_components depth its = Ok (comps, ntm) ->
  exists sccs,
    strongly_connected_components depth (graph_of its) = Ok sccs /\
    forall c, c ∈ comps -> exists s, s ∈ sccs /\ names c ≡ₚ s.
Proof.
  unfold build_components. fold (item_by_name_of its) (graph_of its).
  intros (sccs & Hscc & (pre & Hpre & [= <- _])%result_bind_ok)%result_bind_ok.
  exists sccs. split; [done|]. intros c Hc%elem_of_sort_by.
  apply traverse_ok in Hpre.
  destruct (Forall2_elem_r _ _ _ _ Hpre Hc) as (s & Hs & Hcs).
  apply component_of_spec in Hcs as (_ & _ & Hp & _). eauto.
Qed.

Lemma initial_components_cycles depth its comps ntm :
  build_components depth its = Ok (comps, ntm) ->
  forall a b, a ∈ map name its ->
    (exists c, c ∈ comps /\ a ∈ names c /\ b ∈ names c) <->
    rtc (depends its) a b /\ rtc (depends its) b a.
Proof.
  intros Hb a b Ha. split.
  - intros (c & Hc & Hac & Hbc).
    destruct (build_components_sccs _ _ _ _ Hb) as (sccs & Hscc & Hin).
    destruct (Hin c Hc) as (s & Hs & Hp).
    pose proof (scc_strongly_connected _ _ _ Hscc) as Hall.
    pose proof (proj1 (Forall_forall _ _) Hall s Hs) as Hconn.
    rewrite Hp in Hac, Hbc. split; by apply Hconn.
  - intros [Hab Hba]. by apply (ic_mutual _ _ (build_components_spec _ _ _ _ Hb)).
Qed.

(** X14: the components that [build_components] returns are the classes
    of mutual dependency among the items: two names are in the same
    component exactly when each depends on the other, directly or through
    other names. *)
Theorem initial_components_are_the_dependency_cycles
    (depth : nat) (its : list TopLevelItem) (comps : list Component)
    (name_to_module : gmap string string) :
  build_components depth its = Ok (comps, name_to_module) ->
  forall a b, a ∈ map name its ->
    (exists c, c ∈ comps /\ a ∈ names c /\ b ∈ names c) <->
    rtc (depends its) a b /\ rtc (depends its) b a.
Proof. apply initial_components_cycles. Qed.

Lemma initial_components_are_the_dependency_cycles_witness :
  rtc (depends (ex_items (extract_top_level_items insertion_order mutual_file))) "f" "g".
Proof.
  destruct (build_components 10 (ex_items (extract_top_level_items insertion_order mutual_file)))
    as [[comps ntm]|e] eqn:E; [|vm_compute in E; discriminate].
  apply (initial_components_are_the_dependency_cycles _ _ _ _ E "f" "g").
  - vm_compute. right. left.
  - vm_compute in E. injection E as <- _.
    eexists. split; [left|]. split; [left | right; left].
Defined.

Lemma rtc_ne_tc {A} (R : relation A) x y : rtc R x y -> x <> y -> tc R x y.
Proof.
  intros H Hne. destruct (rtc_inv _ _ H) as [?|(z & Hxz & Hzy)]; [done|].
  eapply tc_rtc_r; [by apply tc_once | done].
Qed.

(** X15: when no item depends on itself through a chain of dependencies,
    every component that [build_components] returns holds exactly one
    name. *)
Theorem acyclic_items_get_components_of_their_own
    (depth : nat) (its : list TopLevelItem) (comps : list Component)
    (name_to_module : gmap string string) :
  build_components depth its = Ok (comps, name_to_module) ->
  (forall x, ~ tc (depends its) x x) ->
  forall c, c ∈ comps -> exists x, names c = [x].
Proof.
  intros Hb Hacyclic c Hc.
  pose proof (build_components_spec _ _ _ _ Hb) as Hinit.
  pose proof (initial_well_formed _ _ Hinit) as [Hnd Hnames].
  destruct (Hnames c Hc) as [_ Hne].
  destruct (names c) as [|x [|y rest]] eqn:E; [done | by exists x |]. exfalso.
  assert (Hxy : x <> y).
  { intros ->. apply list_elem_of_split in Hc as (l1 & l2 & ->).
    rewrite map_app, concat_app in Hnd. simpl in Hnd. rewrite E in Hnd.
    apply NoDup_app in Hnd as (_ & _ & Hnd).
    apply NoDup_app in Hnd as (Hnd & _ & _).
    apply NoDup_cons in Hnd as [Hy _]. apply Hy. by left. }
  assert (Hx : x ∈ map name its).
  { apply keys_names. rewrite <- kept_names.
    rewrite <- (plan_names_items its _ _ Hinit (packed_refl _)).
    apply elem_of_concat. exists (names c). split; [apply elem_of_map; eauto|].
    rewrite E. by left. }
  destruct (proj1 (initial_components_cycles depth its comps name_to_module Hb x y Hx))
    as [Hab Hba].
  { exists c. rewrite E. split; [done|]. split; [by left | right; by left]. }
  apply (Hacyclic x). eapply tc_rtc_r; [by apply rtc_ne_tc | done].
Qed.

Lemma constant_file_no_dependency x y :
  ~ depends (ex_items (extract_top_level_items insertion_order constant_file)) x y.
Proof.
  unfold depends, edge, graph_get.
  change (graph_of (ex_items (extract_top_level_items insertion_order constant_file)))
    with [("x", @nil string); ("f", []); ("g", [])].
  simpl. repeat (destruct (String.eqb x _); [by intros ?%elem_of_nil|]).
  by intros ?%elem_of_nil.
Qed.

Lemma acyclic_items_get_components_of_their_own_witness :
  Forall (fun c => exists x, names c = [x]) constant_components.
Proof.
  destruct (build_components 10 (ex_items (extract_top_level_items insertion_order constant_file)))
    as [[comps ntm]|e] eqn:E; [|vm_compute in E; discriminate].
  assert (Hc : constant_components = comps).
  { unfold constant_components. by rewrite E. }
  rewrite Hc. apply Forall_forall.
  apply (acyclic_items_get_components_of_their_own _ _ _ _ E).
  intros x Hx. destruct Hx as [x y Hxy|x y z Hxy _]; by apply constant_file_no_dependency in Hxy.
Defined.

(** *** Errors *)

Lemma build_components_ok_or_recursion_error depth its :
  deps_closed its ->
  (exists r, build_components depth its = Ok r) \/
  build_components depth its = Err RecursionError.
Proof.
  intros Hc. unfold build_components. fold (item_by_name_of its) (graph_of its).
  assert (Hedge : forall x y, edge (graph_of its) x y -> y ∈ dict_keys (graph_of its))
    by (intros x y; by apply depends_keys).
  destruct (scc_ok_or_recursion_error (graph_of its) depth) as [[sccs Hscc]| ->]; [|by right].
  left. rewrite Hscc. simpl.
  apply strongly_connected_components_partition in Hscc as [_ Hcover _ _].
  destruct (traverse_total (component_of (item_by_name_of its)) sccs) as [pre ->].
  - intros s Hs. unfold component_of.
    destruct (traverse_total (dict_item (item_by_name_of its)) s) as [ys ->].
    + intros n Hn. unfold dict_item.
      assert (Hk : n ∈ dict_keys (item_by_name_of its)).
      { rewrite <- graph_of_keys. apply nodes_keys; [done|].
        apply Hcover, elem_of_concat. eauto. }
      apply dict_get_keys in Hk as [it ->]. eauto.
    + simpl. eauto.
  - simpl. eauto.
Qed.

(** X16: splitting a file raises no exception but [RecursionError]: in
    [build_components] the look-up [item_by_name[n]] finds every name the
    components hold. *)
Theorem splitting_raises_recursion_error_only
    (set_iter : list string -> list string) (depth : nat) (cfg : packing)
    (tree : module_tree) :
  (forall l, set_iter l ≡ₚ l) ->
  (exists r, plan_and_write_single set_iter depth cfg tree = Ok r) \/
  plan_and_write_single set_iter depth cfg tree = Err RecursionError.
Proof.
  intros Hperm. unfold plan_and_write_single, plan_single.
  pose proof (extract_items_deps_closed set_iter Hperm tree) as Hc.
  destruct (ex_items (extract_top_level_items set_iter tree)) as [|it its] eqn:E; [eauto|].
  rewrite <- E in *.
  destruct (build_components_ok_or_recursion_error depth _ Hc) as [[[comps0 ntm] ->]| ->].
  - simpl. destruct (repack_components cfg comps0) as [comps ntm']. eauto.
  - by right.
Qed.

Lemma splitting_raises_recursion_error_only_witness :
  (exists r, plan_and_write_single insertion_order 1 default_packing chain_file = Ok r) \/
  plan_and_write_single insertion_order 1 default_packing chain_file = Err RecursionError.
Proof. apply splitting_raises_recursion_error_only. intros l. reflexivity. Defined.
(** ** Extraction of the items *)

Lemma visit_all_adds tops ns :
  Forall (adds_top_level_names tops) ns ->
  forall used,
    (forall x, x ∈ used -> x ∈ fold_left (fun used n => visit tops n used) ns used) /\
    (forall x, x ∈ fold_left (fun used n => visit tops n used) ns used -> x ∈ used \/ x ∈ tops) /\
    (NoDup used -> NoDup (fold_left (fun used n => visit tops n used) ns used)).
Proof.
  induction 1 as [|n ns Hn _ IH]; intros used; simpl; [auto|].
  destruct (Hn used) as (H1 & H2 & H3).
  destruct (IH (visit tops n used)) as (I1 & I2 & I3).
  split_and!; [auto | | auto].
  intros x [Hx|?]%I2; [|auto]. by apply H2.
Qed.

Lemma visit_opt_adds tops o :
  holds_opt (adds_top_level_names tops) o ->
  forall used,
    let r := match o with Some n => visit tops n used | None => used end in
    (forall x, x ∈ used -> x ∈ r) /\
    (forall x, x ∈ r -> x ∈ used \/ x ∈ tops) /\
    (NoDup used -> NoDup r).
Proof. destruct o as [n|]; simpl; [by intros H used; apply H | auto]. Qed.

Lemma adds_compose (f g : list string -> list string) (tops : gset string) :
  (forall used,
      (forall x, x ∈ used -> x ∈ f used) /\
      (forall x, x ∈ f used -> x ∈ used \/ x ∈ tops) /\
      (NoDup used -> NoDup (f used))) ->
  (forall used,
      (forall x, x ∈ used -> x ∈ g used) /\
      (forall x, x ∈ g used -> x ∈ used \/ x ∈ tops) /\
      (NoDup used -> NoDup (g used))) ->
  forall used,
    (forall x, x ∈ used -> x ∈ g (f used)) /\
    (forall x, x ∈ g (f used) -> x ∈ used \/ x ∈ tops) /\
    (NoDup used -> NoDup (g (f used))).
Proof.
  intros Hf Hg used. destruct (Hf used) as (F1 & F2 & F3).
  destruct (Hg (f used)) as (G1 & G2 & G3).
  split_and!; [auto | | auto].
  intros x [Hx|?]%G2; [|auto]. by apply F2.
Qed.

Lemma visit_adds tops n : adds_top_level_names tops n.
Proof.
  induction n as
    [id ctx| | |test body orelse IHt IHb IHo|lhs cs IHl IHc
    |cname bases kws decs body IH1 IH2 IH3 IH4
    |a fname decs returns anns defs body IH1 IH2 IH3 IH4
    |targets value IH1 IH2|target ann value IH1 IH2 IH3|children IH]
    using ast_nested_ind; unfold adds_top_level_names; simpl.
  - intros used. destruct (is_load ctx && bool_decide (id ∈ tops)) eqn:E; [|auto].
    apply andb_true_iff in E as [_ E%bool_decide_eq_true].
    unfold set_add. case_bool_decide as Hin; [auto|].
    split_and!.
    + intros x Hx. apply elem_of_app. by left.
    + intros x [?|Hx%list_elem_of_singleton]%elem_of_app; [auto | subst; auto].
    + intros Hnd. apply NoDup_app. split_and!; [done | | apply NoDup_singleton].
      intros x Hx Hx'%list_elem_of_singleton. by subst.
  - auto.
  - auto.
  - apply (adds_compose (fun u => fold_left _ body (visit tops test u)) (fold_left _ orelse));
      [|by apply visit_all_adds].
    apply (adds_compose (visit tops test) (fold_left _ body));
      [done | by apply visit_all_adds].
  - apply (adds_compose (visit tops lhs) (fold_left _ cs)); [done | by apply visit_all_adds].
  - apply (adds_compose
             (fun u => fold_left _ decs (fold_left _ kws (fold_left _ bases u)))
             (fold_left _ body)); [|by apply visit_all_adds].
    apply (adds_compose (fun u => fold_left _ kws (fold_left _ bases u)) (fold_left _ decs));
      [|by apply visit_all_adds].
    apply (adds_compose (fold_left _ bases) (fold_left _ kws)); by apply visit_all_adds.
  - apply (adds_compose
             (fun u => fold_left _ anns
                         (match returns with
                          | Some n => visit tops n (fold_left _ decs u)
                          | None => fold_left _ decs u
                          end))
             (fold_left _ body)); [|by apply visit_all_adds].
    apply (adds_compose
             (fun u => match returns with
                       | Some n => visit tops n (fold_left _ decs u)
                       | None => fold_left _ decs u
                       end)
             (fold_left _ anns)); [|by apply visit_all_adds].
    apply (adds_compose (fold_left _ decs)
             (fun u => match returns with Some n => visit tops n u | None => u end));
      [by apply visit_all_adds | by apply visit_opt_adds].
  - apply (adds_compose (fold_left _ targets) (visit tops value));
      [by apply visit_all_adds | done].
  - apply (adds_compose
             (fun u => visit tops ann (visit tops target u))
             (fun u => match value with Some n => visit tops n u | None => u end));
      [|by apply visit_opt_adds].
    by apply (adds_compose (visit tops target) (visit tops ann)).
  - by apply visit_all_adds.
Qed.

(** X17: [DependencyVisitor] only adds to the names it has recorded:
    visiting a node loses no name, records nothing but top-level names, and
    records no name twice. *)
Theorem visitor_records_top_level_names_only
    (tops : gset string) (n : ast) (used : list string) :
  (forall x, x ∈ used -> x ∈ visit tops n used) /\
  (forall x, x ∈ visit tops n used -> x ∈ used \/ x ∈ tops) /\
  (NoDup used -> NoDup (visit tops n used)).
Proof. apply visit_adds. Qed.

(** *** The items and their statements *)

#[local] Arguments is_main_guard : simpl never.

Lemma extract_statement_split pos s its imports main :
  acc_items (extract_statement pos s (its, imports, main)) = its ++ items_of_statement pos s.
Proof.
  unfold items_of_statement, extract_statement, acc_items.
  destruct (stmt_node s) as
    [| | |test body orelse| | | |targets value|target ann value|]; simpl;
    try (by rewrite app_nil_r);
    try (destruct (is_main_guard _); simpl; by rewrite app_nil_r).
  - done.
  - done.
  - done.
  - destruct (name_target target); simpl; [done | by rewrite app_nil_r].
Qed.

Lemma extract_statements_split body :
  forall pos acc,
    acc_items (extract_statements pos body acc) = acc_items acc ++ items_from pos body.
Proof.
  induction body as [|s body IH]; intros pos acc; simpl; [by rewrite app_nil_r|].
  rewrite IH. destruct acc as [[its imports] main].
  rewrite extract_statement_split. by rewrite <- app_assoc.
Qed.

Lemma items_of_statement_made pos s it :
  it ∈ items_of_statement pos s -> node it = pos /\ made_from it s.
Proof.
  unfold items_of_statement, extract_statement, acc_items, made_from.
  destruct (stmt_node s) as
    [| | |test body orelse| | | |targets value|target ann value|]; simpl;
    try (by intros ?%elem_of_nil);
    try (destruct (is_main_guard _); simpl; by intros ?%elem_of_nil).
  - intros Hit%list_elem_of_singleton. by subst.
  - intros Hit%list_elem_of_singleton. by subst.
  - intros (t & Ht & Hit)%list_elem_of_omap.
    destruct (name_target t) as [id|] eqn:E; simplify_eq/=.
    split_and!; try done. eauto.
  - destruct (name_target target) as [id|] eqn:E; simpl; [|by intros ?%elem_of_nil].
    intros Hit%list_elem_of_singleton. by subst.
Qed.

Lemma items_of_statement_names pos s :
  map name (items_of_statement pos s) = defined_names (stmt_node s).
Proof.
  unfold items_of_statement, extract_statement, acc_items, defined_names.
  destruct (stmt_node s) as
    [| | |test body orelse| | | |targets value|target ann value|]; simpl;
    try done; try (by destruct (is_main_guard _)).
  - induction targets as [|t ts IH]; simpl; [done|].
    destruct (name_target t); simpl; [f_equal|]; exact IH.
  - by destruct (name_target target).
Qed.

Lemma items_from_lookup body :
  forall pos it,
    it ∈ items_from pos body <->
    exists i s, body !! i = Some s /\ it ∈ items_of_statement (pos + i) s.
Proof.
  induction body as [|s body IH]; intros pos it; simpl.
  - split; [by intros ?%elem_of_nil | by intros (i & s & ? & _)].
  - rewrite elem_of_app, IH. split.
    + intros [Hit|(i & s' & Hi & Hit)].
      * exists 0, s. by rewrite Nat.add_0_r.
      * exists (S i), s'. by replace (pos + S i) with (S pos + i) by lia.
    + intros ([|i] & s' & Hi & Hit).
      * left. rewrite Nat.add_0_r in Hit. by simplify_eq/=.
      * right. exists i, s'. by replace (S pos + i) with (pos + S i) by lia.
Qed.

Lemma Sorted_le_app (l k : list nat) :
  Sorted le l -> Sorted le k -> (forall x y, x ∈ l -> y ∈ k -> x <= y) ->
  Sorted le (l ++ k).
Proof.
  intros Hl Hk Hlk. induction Hl as [|x l Hl IH Hhd]; simpl; [done|].
  constructor.
  - apply IH. intros ? ? ? ?. apply Hlk; [by right|done].
  - destruct l as [|y l]; simpl.
    + destruct k as [|z k]; constructor. apply Hlk; by left.
    + constructor. by inversion Hhd.
Qed.

Lemma Sorted_le_const (l : list nat) n : (forall x, x ∈ l -> x = n) -> Sorted le l.
Proof.
  induction l as [|x l IH]; intros H; constructor.
  - apply IH. intros ? ?. apply H. by right.
  - destruct l as [|y l]; constructor.
    rewrite (H x) by by left. rewrite (H y) by (right; by left). done.
Qed.

Lemma items_from_sorted body :
  forall pos,
    Sorted le (map node (items_from pos body)) /\
    forall it, it ∈ items_from pos body -> pos <= node it.
Proof.
  induction body as [|s body IH]; intros pos; simpl.
  - split; [constructor | by intros it ?%elem_of_nil].
  - destruct (IH (S pos)) as [Hs Hge].
    assert (Hhere : forall it, it ∈ items_of_statement pos s -> node it = pos).
    { intros it Hit. by apply items_of_statement_made in Hit as [? _]. }
    split.
    + rewrite map_app. apply Sorted_le_app; [|done|].
      * apply (Sorted_le_const _ pos). intros x (it & -> & Hit)%elem_of_map. by apply Hhere.
      * intros x y (it & -> & Hit)%elem_of_map (it' & -> & Hit')%elem_of_map.
        rewrite (Hhere it Hit). pose proof (Hge it' Hit'). lia.
    + intros it [Hit|Hit]%elem_of_app; [by rewrite (Hhere it Hit)|].
      pose proof (Hge it Hit). lia.
Qed.

Lemma made_from_with_deps set_iter body tops it s :
  made_from it s -> made_from (with_deps set_iter body tops it) s.
Proof. done. Qed.

Lemma ex_items_items_from set_iter tree :
  exists tops,
    ex_items (extract_top_level_items set_iter tree)
    = map (with_deps set_iter (tree_body tree) tops) (items_from 0 (tree_body tree)).
Proof.
  unfold extract_top_level_items.
  pose proof (extract_statements_split (tree_body tree) 0 ([], [], None)) as H.
  destruct (extract_statements 0 (tree_body tree) ([], [], None)) as [[its imports] main].
  unfold acc_items in H. simpl in *. subst its. eauto.
Qed.

(** X18: every extracted item is made from a top-level class, function
    or assignment: it carries the position and the text of its statement
    and the name of the class, of the function or of a plain-name target;
    the items follow the order of the statements, and their names are the
    names the statements define, in that order. *)
Theorem items_come_from_the_statements_in_order
    (set_iter : list string -> list string) (tree : module_tree) :
  let its := ex_items (extract_top_level_items set_iter tree) in
  (forall it, it ∈ its ->
     exists s, tree_body tree !! node it = Some s /\ made_from it s) /\
  Sorted le (map node its) /\
  map name its = concat (map (fun s => defined_names (stmt_node s)) (tree_body tree)).
Proof.
  cbv zeta. destruct (ex_items_items_from set_iter tree) as [tops ->]. split_and!.
  - intros it (it0 & -> & Hit0)%elem_of_map.
    apply items_from_lookup in Hit0 as (i & s & Hi & Hit0). simpl in Hit0.
    apply items_of_statement_made in Hit0 as [Hn Hm].
    exists s. simpl. rewrite Hn. split; [done|]. by apply made_from_with_deps.
  - rewrite map_map. simpl. apply items_from_sorted.
  - rewrite map_map. simpl. generalize 0.
    induction (tree_body tree) as [|s body IH]; intros pos; simpl; [done|].
    by rewrite map_app, items_of_statement_names, IH.
Qed.

(** *** Imports and the main block *)

Lemma extract_statement_imports pos s its imports main :
  (extract_statement pos s (its, imports, main)).1.2
  = imports ++ (if is_import (stmt_node s) then [Str.rstrip (stmt_segment s)] else []).
Proof.
  unfold extract_statement.
  destruct (stmt_node s) as
    [| | |test body orelse| | | |targets value|target ann value|]; simpl;
    try done;
    try (by rewrite app_nil_r);
    try (destruct (is_main_guard _); simpl; by rewrite app_nil_r).
  by destruct (name_target target); simpl; rewrite app_nil_r.
Qed.

Lemma extract_statement_main pos s its imports main :
  (extract_statement pos s (its, imports, main)).2
  = if is_main_guard (stmt_node s) && negb (String.eqb (stmt_segment s) "")
    then Some (stmt_segment s) else main.
Proof.
  unfold extract_statement.
  destruct (stmt_node s) as
    [| | |test body orelse| | | |targets value|target ann value|]; simpl; try done.
  - destruct (is_main_guard _); simpl; [|done]. by destruct (String.eqb _ _).
  - by destruct (name_target target).
Qed.

Lemma extract_statements_imports body :
  forall pos acc,
    (extract_statements pos body acc).1.2
    = acc.1.2 ++ map (fun s => Str.rstrip (stmt_segment s))
                   (filter (fun s => is_import (stmt_node s) = true) body).
Proof.
  induction body as [|s body IH]; intros pos acc; simpl; [by rewrite app_nil_r|].
  rewrite IH. destruct acc as [[its imports] main].
  rewrite extract_statement_imports, filter_cons. cbn [fst snd].
  case_decide as Hd.
  - rewrite Hd. simpl. by rewrite <- app_assoc.
  - destruct (is_import (stmt_node s)); [done|]. by rewrite app_nil_r.
Qed.

Lemma extract_statements_main body :
  forall pos acc,
    (extract_statements pos body acc).2
    = match last (filter (fun s => is_main_guard (stmt_node s) = true /\ stmt_segment s <> "")
                    body) with
      | Some s => Some (stmt_segment s)
      | None => acc.2
      end.
Proof.
  induction body as [|s body IH]; intros pos acc; simpl; [done|].
  rewrite IH. destruct acc as [[its imports] main].
  rewrite extract_statement_main, filter_cons. cbn [fst snd].
  case_decide as Hd.
  - destruct Hd as [Hg Hs]. rewrite Hg. apply String.eqb_neq in Hs. rewrite Hs. simpl.
    rewrite last_cons. by destruct (last _).
  - destruct (is_main_guard (stmt_node s)); simpl; [|done].
    destruct (String.eqb_spec (stmt_segment s) ""); simpl; [done|].
    exfalso. by apply Hd.
Qed.

(** X19: the imports collected are the texts, stripped on the right, of
    the top-level [import] statements in their order; the main block is the
    text of the last top-level [if] whose test compares the name
    [__name__] and whose text is not empty; the docstring is that of the
    module. *)
Theorem imports_and_main_block_collected
    (set_iter : list string -> list string) (tree : module_tree) :
  let ex := extract_top_level_items set_iter tree in
  ex_imports ex
  = map (fun s => Str.rstrip (stmt_segment s))
      (filter (fun s => is_import (stmt_node s) = true) (tree_body tree)) /\
  ex_main_block ex
  = (stmt_segment <$>
       last (filter (fun s => is_main_guard (stmt_node s) = true /\ stmt_segment s <> "")
               (tree_body tree))) /\
  ex_module_doc ex = tree_docstring tree.
Proof.
  cbv zeta. unfold extract_top_level_items.
  pose proof (extract_statements_imports (tree_body tree) 0 ([], [], None)) as Hi.
  pose proof (extract_statements_main (tree_body tree) 0 ([], [], None)) as Hm.
  destruct (extract_statements 0 (tree_body tree) ([], [], None)) as [[its imports] main].
  simpl in *. split_and!; [done | | done].
  rewrite Hm. by destruct (last _).
Qed.

(** *** Dependencies *)

(** X20: the dependencies recorded for an item are names of extracted
    items other than the item itself, each listed once. *)
Theorem dependencies_are_other_items
    (set_iter : list string -> list string) (tree : module_tree) :
  (forall l, set_iter l ≡ₚ l) ->
  forall it, it ∈ ex_items (extract_top_level_items set_iter tree) ->
    NoDup (deps it) /\
    forall d, d ∈ deps it ->
      d <> name it /\ d ∈ map name (ex_items (extract_top_level_items set_iter tree)).
Proof.
  intros Hperm it Hit.
  pose proof (extract_items_deps_closed set_iter Hperm tree) as Hclosed.
  split; [|intros d Hd; split; [|by apply (Hclosed it)]].
  - destruct (ex_items_items_from set_iter tree) as [tops E]. rewrite E in Hit.
    apply elem_of_map in Hit as (it0 & -> & _). simpl. rewrite Hperm.
    apply NoDup_filter. destruct (tree_body tree !! node it0) as [s|]; [|constructor].
    apply visit_adds. constructor.
  - destruct (ex_items_items_from set_iter tree) as [tops E]. rewrite E in Hit.
    apply elem_of_map in Hit as (it0 & -> & _). simpl in *. rewrite Hperm in Hd.
    by apply list_elem_of_filter in Hd as [? _].
Qed.

Lemma dependencies_are_other_items_witness :
  Forall (fun it =>
            NoDup (deps it) /\
            forall d, d ∈ deps it ->
              d <> name it /\
              d ∈ map name (ex_items (extract_top_level_items insertion_order mutual_file)))
         (ex_items (extract_top_level_items insertion_order mutual_file)).
Proof.
  apply Forall_forall.
  apply (dependencies_are_other_items insertion_order mutual_file).
  intros l. reflexivity.
Defined.
(** ** The imports of the original file *)

Lemma strip_idemp s : Str.strip (Str.strip s) = Str.strip s.
Proof. unfold Str.strip. rewrite to_list_of_list. f_equal. apply strip_l_idemp. Qed.

Lemma _dedup_from_spec imports :
  forall seen,
    NoDup (_dedup_from seen imports) /\
    (forall k, k ∈ _dedup_from seen imports <->
       k <> "" /\ k ∉ seen /\ k ∈ map Str.strip imports) /\
    sublist (_dedup_from seen imports) (map Str.strip imports).
Proof.
  induction imports as [|line rest IH]; intros seen; simpl.
  - split_and!; [constructor | | done].
    intros k. split; [by intros ?%elem_of_nil | by intros (_ & _ & ?%elem_of_nil)].
  - destruct (String.eqb_spec (Str.strip line) "") as [He|Hne]; simpl.
    + destruct (IH seen) as (I1 & I2 & I3). split_and!; [done | | by apply sublist_cons].
      intros k. rewrite I2, elem_of_cons. split; [tauto|].
      intros (? & ? & [->|?]); tauto.
    + case_bool_decide as Hseen; simpl.
      * destruct (IH (Str.strip line :: seen)) as (I1 & I2 & I3).
        split_and!; [| | by apply sublist_skip].
        -- apply NoDup_cons. split; [|done]. rewrite I2. intros (_ & Hn & _).
           apply Hn. by left.
        -- intros k. rewrite !elem_of_cons, I2, not_elem_of_cons. split.
           ++ intros [->|(? & [? ?] & ?)]; tauto.
           ++ intros (? & ? & [->|?]); [by left|].
              destruct (decide (k = Str.strip line)) as [->|?]; [by left|]. right. tauto.
      * destruct (IH seen) as (I1 & I2 & I3). split_and!; [done | | by apply sublist_cons].
        intros k. rewrite I2, elem_of_cons. split; [tauto|].
        intros (? & Hk & [->|?]); [|tauto]. exfalso. by apply Hk.
Qed.

Lemma _dedup_from_app l1 l2 :
  forall seen, exists seen', _dedup_from seen (l1 ++ l2) = _dedup_from seen l1 ++ _dedup_from seen' l2.
Proof.
  induction l1 as [|line l1 IH]; intros seen; simpl; [by exists seen|].
  destruct (negb _ && _).
  - destruct (IH (Str.strip line :: seen)) as [seen' ->]. by exists seen'.
  - apply IH.
Qed.

Lemma _dedup_from_fixed out :
  forall seen,
    NoDup out -> Forall (fun k => Str.strip k = k /\ k <> "") out ->
    (forall k, k ∈ out -> k ∉ seen) ->
    _dedup_from seen out = out.
Proof.
  induction out as [|k out IH]; intros seen Hnd Hall Hseen; simpl; [done|].
  apply NoDup_cons in Hnd as [Hk Hnd]. apply Forall_cons in Hall as [[Hs Hne] Hall].
  rewrite Hs. apply String.eqb_neq in Hne. rewrite Hne. simpl.
  rewrite bool_decide_eq_true_2 by (apply Hseen; by left). f_equal.
  apply IH; [done..|]. intros k' Hk' [->|?]%elem_of_cons; [done|].
  by apply (Hseen k'); [right|].
Qed.

(** X21: [_dedup_imports] returns the stripped import lines that are not
    empty, each once and in the order of their first occurrence: what it
    returns for an initial part of the input is an initial part of what it
    returns for the whole, and applying it again changes nothing. *)
Theorem dedup_imports_keeps_first_occurrences (imports : list string) :
  let out := _dedup_imports imports in
  NoDup out /\
  (forall k, k ∈ out <-> k <> "" /\ k ∈ map Str.strip imports) /\
  sublist out (map Str.strip imports) /\
  (forall l1 l2, imports = l1 ++ l2 -> exists rest, out = _dedup_imports l1 ++ rest) /\
  _dedup_imports out = out.
Proof.
  cbv zeta. unfold _dedup_imports.
  destruct (_dedup_from_spec imports []) as (H1 & H2 & H3).
  split_and!; [done | | done | |].
  - intros k. rewrite H2. split; [tauto|]. intros [? ?]. split_and!; try done.
    apply not_elem_of_nil.
  - intros l1 l2 ->. destruct (_dedup_from_app l1 l2 []) as [seen' ->]. eauto.
  - apply _dedup_from_fixed; [done | |].
    + apply Forall_forall. intros k [Hne (_ & (line & -> & _)%elem_of_map)]%H2.
      split; [apply strip_idemp | done].
    + intros k _. apply not_elem_of_nil.
Qed.

(** ** The generated files *)

Lemma join_cons sep a b rest :
  Str.join sep (a :: b :: rest) = a +:+ sep +:+ Str.join sep (b :: rest).
Proof. done. Qed.

Lemma string_app_assoc (a b c : string) : (a +:+ b) +:+ c = a +:+ (b +:+ c).
Proof.
  induction a as [|x a IH]; [done|].
  change (String x ((a +:+ b) +:+ c) = String x (a +:+ (b +:+ c))). by rewrite IH.
Qed.

Lemma string_app_empty_r (a : string) : a +:+ "" = a.
Proof.
  induction a as [|x a IH]; [done|].
  change (String x (a +:+ "") = String x a). by rewrite IH.
Qed.

Lemma join_snoc_empty sep l :
  l <> [] -> Str.join sep (l ++ [""]) = Str.join sep l +:+ sep.
Proof.
  induction l as [|a l IH]; [done|]. intros _. destruct l as [|b l].
  - simpl. by rewrite string_app_empty_r.
  - change ((a :: b :: l) ++ [""]) with (a :: (b :: l) ++ [""]).
    change ((b :: l) ++ [""]) with (b :: l ++ [""]) at 1.
    rewrite !join_cons.
    change (b :: l ++ [""]) with ((b :: l) ++ [""]).
    rewrite IH by done. by rewrite !string_app_assoc.
Qed.

Lemma join_header rest :
  rest <> [] -> String.prefix (HEADER +:+ newline) (Str.join newline (HEADER :: rest)) = true.
Proof.
  destruct rest as [|a rest]; [done|]. intros _. rewrite join_cons.
  rewrite <- string_app_assoc. apply prefix_app.
Qed.

Lemma lines_end (pre : list string) :
  pre <> [] -> ends_with_newline (Str.join newline (pre ++ [""])).
Proof. intros H. eexists. by apply join_snoc_empty. Qed.

(** X22: every generated file - a module, [__init__.py] and
    [__main__.py] - starts with the header line followed by an empty line
    and ends with a line feed. *)
Theorem generated_files_carry_the_header
    (component : Component) (all_imports : list string)
    (name_to_module : gmap string string)
    (comps : list Component) (pkg_doc : option string)
    (init_reexport : bool) (main_body : string) :
  let texts := [render_module component all_imports name_to_module;
                render_init comps pkg_doc;
                render_main init_reexport main_body] in
  Forall (fun text => String.prefix (HEADER +:+ newline) text = true /\
                      ends_with_newline text) texts.
Proof.
  cbv zeta. repeat constructor.
  - unfold render_module, module_lines. apply join_header.
    destruct (_dedup_imports all_imports), (package_import_lines _),
      (external_deps component name_to_module), (source_blocks component); done.
  - unfold render_module, module_lines.
    rewrite !app_assoc.
    change [all_line (names component); ""] with ([all_line (names component)] ++ [""]).
    rewrite !app_assoc. apply lines_end. by intros [? ?]%app_eq_nil.
  - unfold render_init, init_lines. apply join_header.
    destruct pkg_doc as [doc|]; [destruct (String.eqb doc "")|];
      simpl; by destruct (omap _ comps).
  - unfold render_init, init_lines.
    change [""; all_line (init_exports comps); ""]
      with ([""; all_line (init_exports comps)] ++ [""]).
    rewrite !app_assoc. apply lines_end. by intros [? ?]%app_eq_nil.
  - unfold render_main, main_lines. apply join_header. by destruct init_reexport.
  - unfold render_main, main_lines.
    change [Str.rstrip main_body; ""] with ([Str.rstrip main_body] ++ [""]).
    rewrite !app_assoc. apply lines_end. by intros [? ?]%app_eq_nil.
Qed.

Lemma rstrip_l_all_space p w : Forall (fun c => p c = true) w -> Str.rstrip_l p w = [].
Proof.
  induction 1 as [|c w Hc _ IH]; [done|]. by rewrite rstrip_l_cons, IH, Hc.
Qed.

Lemma rstrip_l_app_space p l w :
  Forall (fun c => p c = true) w -> Str.rstrip_l p (l ++ w) = Str.rstrip_l p l.
Proof.
  intros Hw. induction l as [|c l IH]; simpl app.
  - by rewrite rstrip_l_all_space.
  - by rewrite !rstrip_l_cons, IH.
Qed.

(** X23: [render_main] ignores white space at the end of the main body:
    the body is stripped on the right and followed by one line feed. *)
Theorem render_main_ignores_trailing_space
    (init_reexport : bool) (main_body trailing : string) :
  Forall (fun c => Str.is_space c = true) (Str.to_list trailing) ->
  render_main init_reexport (main_body +:+ trailing) = render_main init_reexport main_body.
Proof.
  intros Hw. unfold render_main, main_lines, Str.rstrip.
  by rewrite to_list_append, rstrip_l_app_space.
Qed.

Lemma render_main_ignores_trailing_space_witness :
  render_main true ("run()" +:+ newline +:+ newline) = render_main true "run()".
Proof.
  apply (render_main_ignores_trailing_space true "run()" (newline +:+ newline)).
  repeat constructor.
Defined.

(** ** The preset [--compact] *)

(** X24: the preset [--compact] never loosens an option: it keeps or
    raises [pack_small_lines] and [min_module_lines], keeps or lowers
    [max_modules] (a limit of 0, which switches the limit off, stays 0),
    and leaves [group_assignments] as it is; a value other than 1, 2 or 3
    changes nothing. *)
Theorem compact_preset_only_tightens (compact : option Z) (cfg : packing) :
  let cfg' := compact_preset compact cfg in
  (pack_small_lines cfg <= pack_small_lines cfg')%Z /\
  (max_modules cfg' <= max_modules cfg)%Z /\
  (min_module_lines cfg <= min_module_lines cfg')%Z /\
  group_assignments cfg' = group_assignments cfg /\
  (max_modules cfg = 0%Z -> max_modules cfg' = 0%Z) /\
  (compact <> Some 1%Z -> compact <> Some 2%Z -> compact <> Some 3%Z -> cfg' = cfg).
Proof.
  cbv zeta. unfold compact_preset.
  destruct compact as [level|]; [|by split_and!; try lia].
  destruct (Z.ltb_spec 0 level); [|by split_and!; try lia].
  destruct (Z.eqb_spec level 1) as [->|?]; [simpl; split_and!; (lia || done)|].
  destruct (Z.eqb_spec level 2) as [->|?]; [simpl; split_and!; (lia || done)|].
  destruct (Z.eqb_spec level 3) as [->|?]; [simpl; split_and!; (lia || done)|].
  split_and!; try lia; done.
Qed.

(** X25: with the preset [--compact] at level 2 or 3 and no negative
    [target_modules], the packing leaves at most 8 components (6 at level
    3), unless fewer than two components outside [constants] and [core]
    are left to merge. *)
Theorem compact_preset_bounds_module_count
    (level : Z) (cfg : packing) (comps : list Component) :
  level = 2%Z \/ level = 3%Z ->
  (forall t, target_modules cfg = Some t -> (0 <= t)%Z) ->
  let final := (repack_components (compact_preset (Some level) cfg) comps).1 in
  (Z.of_nat (length final) <= if (level =? 2)%Z then 8 else 6)%Z \/
  length (movable final) < 2.
Proof.
  intros Hlevel Ht. cbv zeta.
  set (cfg' := compact_preset (Some level) cfg).
  assert (Htarget : exists t, target_modules cfg' = Some t /\
                      (0 < t <= if (level =? 2)%Z then 8 else 6)%Z).
  { unfold cfg', compact_preset, or_default.
    destruct Hlevel as [-> | ->]; simpl; eexists; (split; [done|]);
      destruct (target_modules cfg) as [t|] eqn:E; try lia;
      destruct (Z.eqb_spec t 0); try lia; pose proof (Ht t eq_refl); lia. }
  destruct Htarget as (t & Ht' & Hrange).
  destruct (repack_target_bound cfg' comps t Ht' (proj1 Hrange)) as [H|H].
  - left. lia.
  - by right.
Qed.

Lemma compact_preset_bounds_module_count_witness :
  (Z.of_nat (length (repack_components (compact_preset (Some 2%Z) default_packing)
                       constant_components).1) <= 8)%Z \/
  length (movable (repack_components (compact_preset (Some 2%Z) default_packing)
                     constant_components).1) < 2.
Proof.
  apply (compact_preset_bounds_module_count 2 default_packing constant_components).
  - by left.
  - intros t Ht. discriminate.
Defined.
(** ** Examples of the properties above *)




Lemma assignments_grouped_into_constants_witness :
  exists constants,
    constants ∈ (repack_components default_packing (initial_components_of two_constants_file)).1 /\
    module_name constants = "constants" /\
    map name (items constants) = ["x"; "y"].
Proof.
  destruct (assignments_grouped_into_constants default_packing
              (initial_components_of two_constants_file))
    as (k & Hin & Hname & _ & Hitems & _).
  - reflexivity.
  - vm_compute. lia.
  - exists k. split; [done|]. split; [done|]. rewrite Hitems. vm_compute. reflexivity.
Defined.

(** ** Packing as a whole *)

(** X26: [repack_components] only merges: the items of the result are
    those of the components given, every component of the result is the
    concatenation of some of the components given, every component given
    lies within one of the result, and no name is held twice. *)
Theorem repack_only_merges (cfg : packing) (comps0 : list Component) :
  well_formed comps0 ->
  let final := (repack_components cfg comps0).1 in
  concat (map items final) ≡ₚ concat (map items comps0) /\
  (forall c, c ∈ final ->
     exists seeds, seeds <> [] /\ Forall (fun s => s ∈ comps0) seeds /\
       items c = concat (map items seeds) /\ names c = concat (map names seeds)) /\
  (forall c0, c0 ∈ comps0 ->
     exists c, c ∈ final /\ forall x, x ∈ names c0 -> x ∈ names c) /\
  NoDup (concat (map names final)).
Proof.
  intros Hwf. cbv zeta. pose proof (packed_repack cfg comps0 Hwf) as [H1 H2 H3].
  split_and!; [done..|].
  eapply packed_well_formed; [done|]. by apply packed_repack.
Qed.

Lemma repack_only_merges_witness :
  NoDup (concat (map names (repack_components default_packing constant_components).1)).
Proof.
  apply (repack_only_merges default_packing constant_components).
  apply constant_components_well_formed.
Defined.

Lemma merge_down_to_short bound comps :
  (Z.of_nat (length comps) <= bound)%Z -> merge_down_to bound comps = comps.
Proof.
  intros H. rewrite merge_down_to_unfold.
  by rewrite (proj2 (Z.ltb_ge _ _) H).
Qed.

(** X27: with the grouping of assignments and the packing of small
    components switched off, no minimum size, and module limits that are
    off or not exceeded, [repack_components] returns the components as they
    are. *)
Theorem packing_switched_off_changes_nothing (cfg : packing) (comps : list Component) :
  group_assignments cfg = false ->
  (pack_small_lines cfg <= 0)%Z ->
  (max_modules cfg = 0%Z \/ (Z.of_nat (length comps) <= max_modules cfg)%Z) ->
  (min_module_lines cfg <= 0)%Z ->
  (forall t, target_modules cfg = Some t ->
     (t <= 0)%Z \/ (Z.of_nat (length comps) <= t)%Z) ->
  (repack_components cfg comps).1 = comps.
Proof.
  intros Hg Hp Hmax Hmin Ht. unfold repack_components. simpl.
  rewrite Hg, (proj2 (Z.ltb_ge _ _) Hp), (proj2 (Z.ltb_ge _ _) Hmin).
  assert (H3 : (if (max_modules cfg =? 0)%Z then comps
                else merge_down_to (max_modules cfg) comps) = comps).
  { destruct (Z.eqb_spec (max_modules cfg) 0); [done|].
    destruct Hmax as [?|?]; [done|]. by apply merge_down_to_short. }
  rewrite H3. destruct (target_modules cfg) as [t|]; [|done].
  destruct (Z.ltb_spec 0 t); [|done].
  destruct (Ht t eq_refl) as [?|?]; [lia|]. by apply merge_down_to_short.
Qed.

Lemma packing_switched_off_changes_nothing_witness :
  let cfg := {| group_assignments := false; pack_small_lines := 0; max_modules := 12;
                min_module_lines := 0; target_modules := None |} in
  (repack_components cfg constant_components).1 = constant_components.
Proof.
  cbv zeta. apply packing_switched_off_changes_nothing; try done.
  - right. vm_compute. discriminate.
Defined.

(** ** The order of the initial components *)

Lemma Sorted_mono {A} (R R' : relation A) (l : list A) :
  (forall x y, R x y -> R' x y) -> Sorted R l -> Sorted R' l.
Proof.
  intros H. induction 1 as [|x l Hs IH Hhd]; constructor; [done|].
  destruct Hhd; constructor; auto.
Qed.

(** X28: [build_components] returns the components in ascending order of
    the number of names they depend on outside themselves. *)
Theorem initial_components_ordered_by_external_dependencies
    (depth : nat) (its : list TopLevelItem) (comps : list Component)
    (name_to_module : gmap string string) :
  build_components depth its = Ok (comps, name_to_module) ->
  Sorted (fun a b => external_dep_count (graph_of its) a <= external_dep_count (graph_of its) b)
         comps.
Proof.
  unfold build_components. fold (item_by_name_of its) (graph_of its).
  intros (sccs & _ & (pre & _ & [= <- _])%result_bind_ok)%result_bind_ok.
  eapply Sorted_mono; [|apply (sort_by_sorted Nat.leb (external_dep_count (graph_of its)))].
  - intros a b H. by apply Nat.leb_le.
  - intros a b. rewrite !Nat.leb_le. lia.
Qed.

Lemma initial_components_ordered_by_external_dependencies_witness :
  Sorted (fun a b =>
            external_dep_count
              (graph_of (ex_items (extract_top_level_items insertion_order chain_file))) a
            <= external_dep_count
                 (graph_of (ex_items (extract_top_level_items insertion_order chain_file))) b)
         (initial_components_of chain_file).
Proof.
  destruct (build_components 10 (ex_items (extract_top_level_items insertion_order chain_file)))
    as [[comps ntm]|e] eqn:E; [|vm_compute in E; discriminate].
  assert (Hc : initial_components_of chain_file = comps).
  { unfold initial_components_of. by rewrite E. }
  rewrite Hc. by apply (initial_components_ordered_by_external_dependencies _ _ _ _ E).
Defined.

(** ** The package file *)

Lemma omap_all_some {A B} (f : A -> option B) (g : A -> B) (l : list A) :
  (forall x, x ∈ l -> f x = Some (g x)) -> omap f l = map g l.
Proof.
  induction l as [|x l IH]; intros H; [done|].
  change (omap f (x :: l)) with (match f x with Some y => y :: omap f l | None => omap f l end).
  rewrite (H x) by by left. rewrite map_cons. f_equal.
  apply IH. intros y Hy. apply H. by right.
Qed.

(** X29: in every plan the module names are pairwise distinct, and
    [__init__.py] imports from every module, in the order of the
    components, exactly the names the component holds. *)
Theorem init_imports_every_module
    (set_iter : list string -> list string) (depth : nat) (cfg : packing)
    (tree : module_tree) (p : plan) :
  (forall it, it ∈ ex_items (extract_top_level_items set_iter tree) -> name it <> "") ->
  plan_single set_iter depth cfg tree = Ok (Some p) ->
  let comps := plan_components p in
  NoDup (map module_name comps) /\
  exists pre,
    render_init comps (plan_doc p)
    = Str.join newline
        (pre
         ++ map (fun c => "from ." +:+ module_name c +:+ " import " +:+ Str.join ", " (names c))
              comps
         ++ [""; all_line (init_exports comps); ""]).
Proof.
  intros Hnonempty Hp. pose proof (plan_module_names_distinct _ _ _ _ _ Hp) as Hnd.
  apply plan_single_packed in Hp as (comps0 & ntm0 & _ & Hinit & Hpacked & _). cbv zeta.
  set (its := ex_items (extract_top_level_items set_iter tree)) in *.
  pose proof (packed_well_formed _ _ (initial_well_formed _ _ Hinit) Hpacked) as Hwf.
  split; [done|].
  assert (Hin : forall x, x ∈ concat (map names (plan_components p)) <-> x ∈ map name its).
  { intros x. rewrite (plan_names_items _ _ _ Hinit Hpacked), kept_names. apply keys_names. }
  assert (Hjoin : forall c, c ∈ plan_components p -> Str.join ", " (names c) <> "").
  { intros c Hc E. apply join_comma_empty in E as [E|E].
    - by apply (wf_names _ Hwf c Hc).
    - assert (Hx : "" ∈ map name its).
      { apply Hin, elem_of_concat. exists (names c).
        split; [apply elem_of_map; eauto | rewrite E; by left]. }
      apply elem_of_map in Hx as (it & Hname & Hit). by apply (Hnonempty it). }
  assert (Homap :
    omap (fun c =>
            let joined := Str.join ", " (names c) in
            if String.eqb joined "" then None
            else Some ("from ." +:+ module_name c +:+ " import " +:+ joined))
         (plan_components p)
    = map (fun c => "from ." +:+ module_name c +:+ " import " +:+ Str.join ", " (names c))
          (plan_components p)).
  { apply omap_all_some. intros c Hc. cbv zeta.
    destruct (String.eqb_spec (Str.join ", " (names c)) "") as [E|_]; [|done].
    exfalso. by apply (Hjoin c). }
  unfold render_init, init_lines. eexists ([HEADER] ++ _). rewrite <- app_assoc.
  apply (f_equal (Str.join newline)).
  apply (f_equal (app [HEADER])), (f_equal (app _)).
  apply (f_equal (fun l => l ++ _)). exact Homap.
Qed.

Lemma init_imports_every_module_witness :
  exists p,
    plan_single insertion_order 10 default_packing constant_file = Ok (Some p) /\
    NoDup (map module_name (plan_components p)).
Proof.
  destruct (plan_single insertion_order 10 default_packing constant_file)
    as [[p|]|e] eqn:E; [|vm_compute in E; discriminate..].
  destruct (init_imports_every_module
              insertion_order 10 default_packing constant_file p) as (Hnd & _).
  - apply Forall_forall. vm_compute. repeat (constructor; [discriminate|]). constructor.
  - done.
  - exists p. by split.
Defined.

(** ** Imports among the initial components *)

Lemma position_lookup sccs :
  forall k s x, NoDup (concat sccs) -> sccs !! k = Some s -> x ∈ s -> position x sccs = k.
Proof.
  induction sccs as [|s0 sccs IH]; intros k s x Hnd Hk Hx; [done|].
  simpl in Hnd. apply NoDup_app in Hnd as (_ & Hdisj & Hnd). simpl.
  destruct k as [|k]; simpl in Hk.
  - injection Hk as ->. by rewrite bool_decide_eq_true_2.
  - rewrite bool_decide_eq_false_2.
    + f_equal. by apply (IH k s).
    + intros Hx0. apply (Hdisj x Hx0). apply elem_of_concat. exists s.
      split; [by eapply list_elem_of_lookup_2|done].
Qed.

Lemma kept_item_lookup its it :
  it ∈ kept its -> dict_get (item_by_name_of its) (name it) = Some it.
Proof.
  unfold kept. intros ([k it'] & -> & Hin)%elem_of_map. simpl.
  pose proof (dict_get_Some_elem _ _ _ (dict_of_NoDup name (fun x => x) its) Hin) as Hget.
  by destruct (item_by_name_name _ _ _ Hget) as [-> _].
Qed.

Lemma kept_item_depends its it d :
  it ∈ kept its -> d ∈ deps it -> depends its (name it) d.
Proof.
  intros Hit Hd. unfold depends, edge, graph_get.
  by rewrite graph_of_item_by_name, dict_get_map, (kept_item_lookup _ _ Hit).
Qed.

Section UnmergedImports.

Variables (depth : nat) (its : list TopLevelItem) (comps : list Component).
Variables (name_to_module mapping : gmap string string).
Variable sccs : list (list string).

Hypothesis Hbuild : build_components depth its = Ok (comps, name_to_module).
Hypothesis Hmapping :
  forall n m, mapping !! n = Some m <->
    exists c, c ∈ comps /\ n ∈ names c /\ module_name c = m.
Hypothesis Hdistinct : NoDup (map module_name comps).
Hypothesis Hsccs : strongly_connected_components depth (graph_of its) = Ok sccs.
Hypothesis Hnames : forall c, c ∈ comps -> exists s, s ∈ sccs /\ names c ≡ₚ s.

Lemma rank_lookup c k s x :
  c ∈ comps -> sccs !! k = Some s -> x ∈ s -> x ∈ names c -> rank sccs c = k.
Proof.
  intros Hc Hk Hx Hxc.
  pose proof (strongly_connected_components_partition _ _ _ Hsccs) as [Hnd _ _ _].
  destruct (Hnames c Hc) as (s' & Hs' & Hp).
  apply list_elem_of_lookup in Hs' as [k' Hk'].
  assert (k' = k) as ->.
  { eapply (NoDup_concat_unique sccs k' k s' s x); try done. by rewrite <- Hp. }
  assert (s' = s) as -> by congruence.
  unfold rank. destruct (names c) as [|y rest] eqn:E; [by apply elem_of_nil in Hxc|].
  apply (position_lookup sccs k s y Hnd Hk). rewrite <- Hp. by left.
Qed.

Lemma module_imports_rank c c' :
  module_imports comps mapping c c' -> rank sccs c' < rank sccs c.
Proof.
  intros (Hc & Hc' & nms & Hin).
  pose proof (build_components_spec _ _ _ _ Hbuild) as Hinit.
  pose proof (initial_well_formed _ _ Hinit) as Hwf.
  pose proof (strongly_connected_components_partition _ _ _ Hsccs) as [Hnd _ Hclosed _].
  destruct (external_deps_sound c mapping) as [_ Hs].
  destruct (Hs _ _ Hin) as [Hne Hall].
  destruct nms as [|n nms]; [done|].
  destruct (Hall n) as [(Hout & Hmap & _) (it & Hit & Hd)]; [by left|].
  (* the name [n] belongs to [c'] *)
  apply Hmapping in Hmap as (c'' & Hc'' & Hn & Hmod).
  assert (c'' = c') as ->.
  { apply list_elem_of_lookup in Hc' as [i Hi], Hc'' as [j Hj].
    assert (j = i) as ->; [|congruence].
    eapply NoDup_lookup; [exact Hdistinct| |].
    - by rewrite list_lookup_fmap, Hj.
    - rewrite list_lookup_fmap, Hi. simpl. by rewrite Hmod. }
  (* an item of [c] depends on it *)
  assert (Hkept : it ∈ kept its).
  { rewrite <- (ic_items _ _ Hinit). apply elem_of_concat. exists (items c).
    split; [apply elem_of_map; eauto | done]. }
  pose proof (kept_item_depends _ _ _ Hkept Hd) as Hedge.
  assert (Hitc : name it ∈ names c).
  { destruct (wf_names _ Hwf c Hc) as [-> _]. apply elem_of_map. eauto. }
  destruct (Hnames c Hc) as (s & Hs_in & Hp).
  destruct (Hnames c' Hc') as (s' & Hs'_in & Hp').
  apply list_elem_of_lookup in Hs_in as [k Hk], Hs'_in as [j Hj].
  rewrite (rank_lookup c k s (name it) Hc Hk) by (by rewrite <- ?Hp).
  rewrite (rank_lookup c' j s' n Hc' Hj) by (by rewrite <- ?Hp').
  (* the list that holds [n] is not after the list of [c] *)
  assert (Hpre : n ∈ concat (take (S k) sccs)).
  { apply (Hclosed (S k) (name it) n); [|done].
    apply elem_of_concat. exists s. split; [|by rewrite <- Hp].
    apply (list_elem_of_lookup_2 _ k). rewrite lookup_take_lt by lia. done. }
  apply elem_of_concat in Hpre as (s0 & Hs0 & Hn0).
  apply list_elem_of_lookup in Hs0 as [j0 Hj0].
  apply lookup_take_Some in Hj0 as [Hj0 Hlt].
  assert (j0 = j) as ->.
  { eapply (NoDup_concat_unique sccs j0 j s0 s' n); try done. by rewrite <- Hp'. }
  assert (j <> k); [|lia].
  intros ->. apply Hout. rewrite Hp. assert (s0 = s) as <- by congruence. done.
Qed.

Lemma module_imports_acyclic c : ~ tc (module_imports comps mapping) c c.
Proof.
  assert (H : forall a b, tc (module_imports comps mapping) a b ->
                rank sccs b < rank sccs a).
  { induction 1 as [a b Hab|a b d Hab _ IH].
    - by apply module_imports_rank.
    - apply module_imports_rank in Hab. lia. }
  intros Hc. apply H in Hc. lia.
Qed.

End UnmergedImports.

(** X30: as long as no components are merged, the imports between the
    modules form no cycle: when the components of [build_components] have
    pairwise distinct module names, no module imports from itself, directly
    or through other modules - with the mapping [build_components] returns
    and with the mapping rebuilt from the components. *)
Theorem unmerged_modules_import_without_cycle
    (depth : nat) (its : list TopLevelItem) (comps : list Component)
    (name_to_module : gmap string string) :
  build_components depth its = Ok (comps, name_to_module) ->
  NoDup (map module_name comps) ->
  forall c,
    ~ tc (module_imports comps name_to_module) c c /\
    ~ tc (module_imports comps (rebuild_name_to_module comps)) c c.
Proof.
  intros Hb Hnd c.
  destruct (build_components_sccs _ _ _ _ Hb) as (sccs & Hscc & Hnames).
  split.
  - apply (module_imports_acyclic depth its comps name_to_module name_to_module sccs);
      try done.
    apply (build_components_mapping_spec _ _ _ _ Hb).
  - apply (module_imports_acyclic depth its comps name_to_module
             (rebuild_name_to_module comps) sccs); try done.
    intros n m. apply rebuild_name_to_module_spec.
    eapply initial_well_formed, build_components_spec, Hb.
Qed.

Lemma unmerged_modules_import_without_cycle_witness :
  NoDup (map module_name (initial_components_of chain_file)) /\
  forall c,
    ~ tc (module_imports (initial_components_of chain_file)
            (rebuild_name_to_module (initial_components_of chain_file))) c c.
Proof.
  destruct (build_components 10 (ex_items (extract_top_level_items insertion_order chain_file)))
    as [[comps ntm]|e] eqn:E; [|vm_compute in E; discriminate].
  assert (Hc : initial_components_of chain_file = comps).
  { unfold initial_components_of. by rewrite E. }
  rewrite Hc.
  assert (Hnd : NoDup (map module_name comps)).
  { vm_compute in E. injection E as <- _.
    apply (bool_decide_unpack _). vm_compute. exact I. }
  split; [done|]. intros c.
  by apply (unmerged_modules_import_without_cycle _ _ _ _ E).
Defined.
